(** * AudioStreamPlayer3D: a shallow embedding of the playback manager

    The development follows the TypeScript sources of the repository:

    - [src/unnamed/part_001], the current [AudioStreamPlayer3D] class;
    - [src/unnamed/part_000], the earlier version of the same class,
      embedded apart in the module [Legacy];
    - the utilities ([streamCache], [loadAudioBuffer], [loadAudioWithCaching],
      [createSourceNode]) bundled in [src/apps/simple_demo/src/main.ts],
      with the earlier copy of them that [part_000] imports, and the demo
      page of the same file.

    JavaScript objects with identity (source nodes, promises) live in an
    explicit store, [Env], together with the module-level [streamCache] and
    the network; the class instance is the record [Player]; every method is
    a function [Player -> Env -> Player * Env].  The Web Audio primitives
    ([start], [stop], [disconnect]) are total operations recording their
    effect on the node they are called on; they describe the platform
    wherever it accepts the call: [start(0, offset)] with a finite
    [offset >= 0], [stop(0)] on a node that was started, a finite playback
    rate.

    An [async] method returns how its promise settles.  A call that never
    reaches an [await] runs to completion at once, as in JavaScript; a call
    that awaits a load is run with the load, and the two continuations of
    the [await] are also events of their own ([OpLoadSettled],
    [OpPlayResume]), so that the invariants below cover every interleaving
    of the event loop.

    The [volume], [position] and [orientation] accessors only forward
    numbers to the gain and panner nodes, which no other method reads;
    they are not embedded, in either version. *)

From Stdlib Require Import QArith Qround Lqa.
From stdpp Require Import gmap strings list.

Local Open Scope Q_scope.

(** ** JavaScript numbers

    A [number] is NaN, an infinity, or a finite value.  Finite doubles are
    rationals, and the only arithmetic the class performs on them is [%],
    whose result ECMAScript defines exactly (no rounding): it is computed
    here on [Q]. *)

Inductive number : Type :=
  | NaN
  | Inf (negative : bool)
  | Num (q : Q).

(** Integer part of a rational, rounding towards zero. *)
Definition Qtrunc (q : Q) : Z := Z.quot (Qnum q) (Z.pos (Qden q)).

(** [n % d]: the remainder has the sign of the dividend; a zero divisor or
    an infinite dividend gives NaN, an infinite divisor gives the dividend. *)
Definition js_rem (n d : number) : number :=
  match n, d with
  | Num x, Num y =>
      if Qeq_bool y 0 then NaN
      else Num (Qred (x - inject_Z (Qtrunc (x / y)) * y))
  | Num x, Inf _ => Num x
  | _, _ => NaN
  end.

(** [a >= b]; every comparison with NaN is false. *)
Definition js_ge (a b : number) : bool :=
  match a, b with
  | Num x, Num y => Qle_bool y x
  | Num _, Inf negative => negative
  | Inf negative, Num _ => negb negative
  | Inf na, Inf nb => negb na || nb
  | _, _ => false
  end.

(** The [length] of an array, as a number. *)
Definition js_length {A : Type} (l : list A) : number :=
  Num (inject_Z (Z.of_nat (length l))).

(** ** Platform objects *)

(** A decoded [AudioBuffer]: its PCM content (abstracted to a tag) and the
    [duration] attribute the platform reports, in seconds. *)
Record AudioBuffer : Type := {
  pcm : nat;
  duration : Q;
}.

(** [new AudioBuffer({ length, sampleRate })]: [length] frames of silence
    on one channel.  An [AudioBuffer] holds at least one frame: for
    [length = 0] the platform throws a [NotSupportedError], for which [None]
    stands. *)
Definition newAudioBuffer (length : nat) (sampleRate : Q) : option AudioBuffer :=
  match length with
  | O => None
  | S _ => Some {| pcm := 0; duration := inject_Z (Z.of_nat length) / sampleRate |}
  end.

(** Why a fetch+decode failed. *)
Inductive LoadError : Type := FetchFailed | DecodeFailed.

(** Result of [fetch] followed by [decodeAudioData]. *)
Inductive LoadResult : Type :=
  | Loaded (b : AudioBuffer)
  | Failed (err : LoadError).

(** How the promise of an [async] method settles. *)
Inductive Settled : Type :=
  | Fulfilled
  | Rejected (err : LoadError).

(** An [AudioBufferSourceNode]. *)
Record SourceNode : Type := {
  node_buffer : AudioBuffer;         (* source.buffer *)
  node_loop : bool;                  (* source.loop *)
  node_playbackRate : number;        (* source.playbackRate.value *)
  node_connected : bool;             (* connected to the panner *)
  node_onended : bool;               (* an onended handler is installed *)
  node_started : option number;      (* offset passed to start(0, offset) *)
  node_stopped : bool;               (* stop(0) has been called *)
}.

(** Everything outside the class instance: the source nodes created so far
    (by reference), the module-level [streamCache], the network, the log of
    fetches, and the promises handed out by [whenAllEnded]. *)
Record Env : Type := {
  nodes : gmap nat SourceNode;
  next_node : nat;
  streamCache : gmap string AudioBuffer;
  network : string -> LoadResult;
  fetchLog : list string;
  resolved : list nat;
  next_promise : nat;
}.

(** The private and public fields of [AudioStreamPlayer3D]. *)
Record Player : Type := {
  _loop : bool;
  _playbackRate : number;
  _maxPolyphony : number;
  _offset : number;
  _endedPromiseResolver : option nat;
  _useCache : bool;
  sourcePath : string;
  sources : list nat;
  buffer : option AudioBuffer;
  pannerConnected : bool;
  gainConnected : bool;
}.

(** *** Field updates *)

Definition set_nodes (f : gmap nat SourceNode -> gmap nat SourceNode) (e : Env) : Env :=
  {| nodes := f (nodes e); next_node := next_node e;
     streamCache := streamCache e; network := network e;
     fetchLog := fetchLog e; resolved := resolved e;
     next_promise := next_promise e |}.

Definition set_streamCache (f : gmap string AudioBuffer -> gmap string AudioBuffer) (e : Env) : Env :=
  {| nodes := nodes e; next_node := next_node e;
     streamCache := f (streamCache e); network := network e;
     fetchLog := fetchLog e; resolved := resolved e;
     next_promise := next_promise e |}.

Definition with_loop (v : bool) (p : Player) : Player :=
  {| _loop := v; _playbackRate := _playbackRate p;
     _maxPolyphony := _maxPolyphony p; _offset := _offset p;
     _endedPromiseResolver := _endedPromiseResolver p;
     _useCache := _useCache p; sourcePath := sourcePath p;
     sources := sources p; buffer := buffer p;
     pannerConnected := pannerConnected p; gainConnected := gainConnected p |}.

Definition with_playbackRate (v : number) (p : Player) : Player :=
  {| _loop := _loop p; _playbackRate := v;
     _maxPolyphony := _maxPolyphony p; _offset := _offset p;
     _endedPromiseResolver := _endedPromiseResolver p;
     _useCache := _useCache p; sourcePath := sourcePath p;
     sources := sources p; buffer := buffer p;
     pannerConnected := pannerConnected p; gainConnected := gainConnected p |}.

Definition with_maxPolyphony (v : number) (p : Player) : Player :=
  {| _loop := _loop p; _playbackRate := _playbackRate p;
     _maxPolyphony := v; _offset := _offset p;
     _endedPromiseResolver := _endedPromiseResolver p;
     _useCache := _useCache p; sourcePath := sourcePath p;
     sources := sources p; buffer := buffer p;
     pannerConnected := pannerConnected p; gainConnected := gainConnected p |}.

Definition with_offset (v : number) (p : Player) : Player :=
  {| _loop := _loop p; _playbackRate := _playbackRate p;
     _maxPolyphony := _maxPolyphony p; _offset := v;
     _endedPromiseResolver := _endedPromiseResolver p;
     _useCache := _useCache p; sourcePath := sourcePath p;
     sources := sources p; buffer := buffer p;
     pannerConnected := pannerConnected p; gainConnected := gainConnected p |}.

Definition with_resolver (v : option nat) (p : Player) : Player :=
  {| _loop := _loop p; _playbackRate := _playbackRate p;
     _maxPolyphony := _maxPolyphony p; _offset := _offset p;
     _endedPromiseResolver := v;
     _useCache := _useCache p; sourcePath := sourcePath p;
     sources := sources p; buffer := buffer p;
     pannerConnected := pannerConnected p; gainConnected := gainConnected p |}.

Definition with_sources (v : list nat) (p : Player) : Player :=
  {| _loop := _loop p; _playbackRate := _playbackRate p;
     _maxPolyphony := _maxPolyphony p; _offset := _offset p;
     _endedPromiseResolver := _endedPromiseResolver p;
     _useCache := _useCache p; sourcePath := sourcePath p;
     sources := v; buffer := buffer p;
     pannerConnected := pannerConnected p; gainConnected := gainConnected p |}.

Definition with_buffer (v : option AudioBuffer) (p : Player) : Player :=
  {| _loop := _loop p; _playbackRate := _playbackRate p;
     _maxPolyphony := _maxPolyphony p; _offset := _offset p;
     _endedPromiseResolver := _endedPromiseResolver p;
     _useCache := _useCache p; sourcePath := sourcePath p;
     sources := sources p; buffer := v;
     pannerConnected := pannerConnected p; gainConnected := gainConnected p |}.

Definition with_graph (panner gain : bool) (p : Player) : Player :=
  {| _loop := _loop p; _playbackRate := _playbackRate p;
     _maxPolyphony := _maxPolyphony p; _offset := _offset p;
     _endedPromiseResolver := _endedPromiseResolver p;
     _useCache := _useCache p; sourcePath := sourcePath p;
     sources := sources p; buffer := buffer p;
     pannerConnected := panner; gainConnected := gain |}.

(** ** Web Audio primitives on the node store *)

Definition mark_stopped (n : SourceNode) : SourceNode :=
  {| node_buffer := node_buffer n; node_loop := node_loop n;
     node_playbackRate := node_playbackRate n;
     node_connected := node_connected n; node_onended := node_onended n;
     node_started := node_started n; node_stopped := true |}.

Definition mark_disconnected (n : SourceNode) : SourceNode :=
  {| node_buffer := node_buffer n; node_loop := node_loop n;
     node_playbackRate := node_playbackRate n;
     node_connected := false; node_onended := node_onended n;
     node_started := node_started n; node_stopped := node_stopped n |}.

Definition mark_connected (n : SourceNode) : SourceNode :=
  {| node_buffer := node_buffer n; node_loop := node_loop n;
     node_playbackRate := node_playbackRate n;
     node_connected := true; node_onended := node_onended n;
     node_started := node_started n; node_stopped := node_stopped n |}.

Definition mark_started (offset : number) (n : SourceNode) : SourceNode :=
  {| node_buffer := node_buffer n; node_loop := node_loop n;
     node_playbackRate := node_playbackRate n;
     node_connected := node_connected n; node_onended := node_onended n;
     node_started := Some offset; node_stopped := node_stopped n |}.

Definition mark_loop (v : bool) (n : SourceNode) : SourceNode :=
  {| node_buffer := node_buffer n; node_loop := v;
     node_playbackRate := node_playbackRate n;
     node_connected := node_connected n; node_onended := node_onended n;
     node_started := node_started n; node_stopped := node_stopped n |}.

Definition mark_playbackRate (v : number) (n : SourceNode) : SourceNode :=
  {| node_buffer := node_buffer n; node_loop := node_loop n;
     node_playbackRate := v;
     node_connected := node_connected n; node_onended := node_onended n;
     node_started := node_started n; node_stopped := node_stopped n |}.

Definition mark_onended (n : SourceNode) : SourceNode :=
  {| node_buffer := node_buffer n; node_loop := node_loop n;
     node_playbackRate := node_playbackRate n;
     node_connected := node_connected n; node_onended := true;
     node_started := node_started n; node_stopped := node_stopped n |}.

(** [source.stop(0); source.disconnect()] on the node referenced by [i]. *)
Definition stop_and_disconnect (i : nat) (e : Env) : Env :=
  set_nodes (alter mark_disconnected i) (set_nodes (alter mark_stopped i) e).

(** Calling a promise's [resolve] function. *)
Definition resolve (r : nat) (e : Env) : Env :=
  {| nodes := nodes e; next_node := next_node e;
     streamCache := streamCache e; network := network e;
     fetchLog := fetchLog e; resolved := resolved e ++ [r];
     next_promise := next_promise e |}.

(** [new Promise(...)]: a fresh promise. *)
Definition new_promise (e : Env) : nat * Env :=
  (next_promise e,
   {| nodes := nodes e; next_node := next_node e;
      streamCache := streamCache e; network := network e;
      fetchLog := fetchLog e; resolved := resolved e;
      next_promise := S (next_promise e) |}).

(** ** Utilities ([main.ts], lines 383-465) *)

(** [loadAudioBuffer(context, url)]: one fetch, then decode. *)
Definition loadAudioBuffer (url : string) (e : Env) : LoadResult * Env :=
  (network e url,
   {| nodes := nodes e; next_node := next_node e;
      streamCache := streamCache e; network := network e;
      fetchLog := fetchLog e ++ [url]; resolved := resolved e;
      next_promise := next_promise e |}).

(** [loadAudioWithCaching(context, url)]. *)
Definition loadAudioWithCaching (url : string) (e : Env) : LoadResult * Env :=
  match streamCache e !! url with
  | Some cached => (Loaded cached, e)
  | None =>
      match loadAudioBuffer url e with
      | (Loaded b, e1) => (Loaded b, set_streamCache (insert url b) e1)
      | (Failed err, e1) => (Failed err, e1)
      end
  end.

(** [createSourceNode(context, buffer, panner)]: a fresh node holding
    [buffer], connected to the panner.  Returns the reference. *)
Definition createSourceNode (b : AudioBuffer) (e : Env) : nat * Env :=
  let source :=
    {| node_buffer := b; node_loop := false; node_playbackRate := Num 1;
       node_connected := true; node_onended := false;
       node_started := None; node_stopped := false |} in
  (next_node e,
   {| nodes := <[next_node e := source]> (nodes e);
      next_node := S (next_node e);
      streamCache := streamCache e; network := network e;
      fetchLog := fetchLog e; resolved := resolved e;
      next_promise := next_promise e |}).

(** ** Methods of [AudioStreamPlayer3D] ([part_001]) *)

(** [loadAudio()], lines 66-69. *)
Definition loadAudio (p : Player) (e : Env) : Player * Env * Settled :=
  let loadMethod := if _useCache p then loadAudioWithCaching else loadAudioBuffer in
  match loadMethod (sourcePath p) e with
  | (Loaded b, e1) => (with_buffer (Some b) p, e1, Fulfilled)
  | (Failed err, e1) => (p, e1, Rejected err)
  end.

(** [stopAllSources()], lines 176-187. *)
Definition stopAllSources (p : Player) (e : Env) : Player * Env :=
  let e1 := foldl (fun acc i => stop_and_disconnect i acc) e (sources p) in
  let p1 := with_sources [] p in
  match _endedPromiseResolver p1 with
  | Some r => (with_resolver None p1, resolve r e1)
  | None => (p1, e1)
  end.

(** The [onended] closure installed by [play] on [source], lines 99-106. *)
Definition onended (source : nat) (p : Player) (e : Env) : Player * Env :=
  let p1 :=
    match list_find (fun s => s = source) (sources p) with
    | Some (index, _) => with_sources (delete index (sources p)) p
    | None => p
    end in
  match sources p1, _endedPromiseResolver p1 with
  | [], Some r => (with_resolver None p1, resolve r e)
  | _, _ => (p1, e)
  end.

(** "Manage polyphony", lines 81-88 of [play()]: once the array has
    reached the ceiling, [shift()] the oldest source and stop it. *)
Definition enforce_polyphony (p : Player) (e : Env) : Player * Env :=
  if js_ge (js_length (sources p)) (_maxPolyphony p) then
    match sources p with
    | oldestSource :: rest =>
        (with_sources rest p, stop_and_disconnect oldestSource e)
    | [] => (p, e)
    end
  else (p, e).

(** [play()] from the polyphony check on, lines 80-113, with [b] the
    buffer that passed the guard of line 78. *)
Definition play_body (b : AudioBuffer) (p : Player) (e : Env) : Player * Env :=
  let '(p1, e1) := enforce_polyphony p e in
  let '(source, e2) := createSourceNode b e1 in
  let e3 := set_nodes (alter (mark_loop (_loop p1)) source) e2 in
  let e4 := set_nodes (alter (mark_playbackRate (_playbackRate p1)) source) e3 in
  let '(p2, e5) :=
    if negb (_loop p1) then
      (with_sources (sources p1 ++ [source]) p1,
       set_nodes (alter mark_onended source) e4)
    else
      let '(p', e') := stopAllSources p1 e4 in
      (with_sources (sources p' ++ [source]) p', e') in
  (p2, set_nodes (alter (mark_started (_offset p2)) source) e5).

(** [play()] after the [await], lines 77-113. *)
Definition play_resume (p : Player) (e : Env) : Player * Env :=
  match buffer p with
  | None => (p, e)
  | Some b => play_body b p e
  end.

(** [play()], lines 74-114.  With a buffer present the body runs without
    suspension; otherwise the load runs first and its rejection is the
    rejection of [play]'s own promise. *)
Definition play (p : Player) (e : Env) : Player * Env * Settled :=
  match buffer p with
  | Some _ => (play_resume p e, Fulfilled)
  | None =>
      match loadAudio p e with
      | (p1, e1, Rejected err) => (p1, e1, Rejected err)
      | (p1, e1, Fulfilled) => (play_resume p1 e1, Fulfilled)
      end
  end.

(** [stop()], lines 119-122. *)
Definition stop (p : Player) (e : Env) : Player * Env :=
  let '(p1, e1) := stopAllSources p e in
  (with_offset (Num 0) p1, e1).

(** [seek(time)], lines 128-138.  The nested [this.play()] finds the buffer
    present, so it runs to completion inside the call. *)
Definition seek (time : number) (p : Player) (e : Env) : Player * Env :=
  match buffer p with
  | None => (p, e)
  | Some b =>
      let p1 := with_offset (js_rem time (Num (duration b))) p in
      match sources p1 with
      | [] => (p1, e)
      | _ :: _ =>
          let '(p2, e2) := stopAllSources p1 e in
          fst (play p2 e2)
      end
  end.

(** [whenAllEnded()], lines 144-152: returns the promise. *)
Definition whenAllEnded (p : Player) (e : Env) : Player * Env * nat :=
  let '(promise, e1) := new_promise e in
  match sources p with
  | [] => (p, resolve promise e1, promise)
  | _ :: _ => (with_resolver (Some promise) p, e1, promise)
  end.

(** JavaScript truthiness of a string. *)
Definition truthy (s : string) : bool :=
  match s with EmptyString => false | String _ _ => true end.

(** [dispose(removeFromCache)] of [part_001], lines 158-171. *)
Definition dispose (removeFromCache : bool) (p : Player) (e : Env) : Player * Env :=
  let '(p1, e1) := stopAllSources p e in
  let p2 := with_graph false false p1 in
  let e2 :=
    if removeFromCache && truthy (sourcePath p2)
    then set_streamCache (delete (sourcePath p2)) e1 else e1 in
  let p3 := with_buffer None p2 in
  (with_resolver None (with_offset (Num 0) (with_playbackRate (Num 1) (with_loop false p3))), e2).

(** The [loop] setter, lines 197-203. *)
Definition set_loop (value : bool) (p : Player) (e : Env) : Player * Env :=
  (with_loop value p,
   foldl (fun acc i => set_nodes (alter (mark_loop value) i) acc) e (sources p)).

(** The [maxPolyphony] setter, lines 213-215. *)
Definition set_maxPolyphony (value : number) (p : Player) (e : Env) : Player * Env :=
  (with_maxPolyphony value p, e).

(** The [playbackRate] setter, lines 235-240. *)
Definition set_playbackRate (value : number) (p : Player) (e : Env) : Player * Env :=
  (with_playbackRate value p,
   foldl (fun acc i => set_nodes (alter (mark_playbackRate value) i) acc) e (sources p)).

(** The options the constructor reads that bear on playback. *)
Record Options : Type := {
  opt_useCache : option bool;
  opt_maxPolyphony : option number;
}.

(** Field initialisers and constructor of [part_001], lines 31-59. *)
Definition constructor (path : string) (opts : Options) : Player :=
  let this :=
    {| _loop := false; _playbackRate := Num 1; _maxPolyphony := Num 1;
       _offset := Num 0; _endedPromiseResolver := None;
       _useCache := default true (opt_useCache opts);
       sourcePath := path; sources := []; buffer := None;
       pannerConnected := true; gainConnected := true |} in
  match opt_maxPolyphony opts with
  | Some v => with_maxPolyphony v this
  | None => this
  end.

(** ** The player as a transition system

    One event of the host event loop: a call of a public method, a setter
    assignment, the platform dispatching [ended] on a node, a change of
    what the network answers, and the two continuations of a suspended
    [await] ([loadAudio] settling, [play] resuming). *)

Inductive Op : Type :=
  | OpLoadAudio
  | OpPlay
  | OpStop
  | OpSeek (time : number)
  | OpWhenAllEnded
  | OpDispose (removeFromCache : bool)
  | OpSetLoop (value : bool)
  | OpSetPlaybackRate (value : number)
  | OpSetMaxPolyphony (value : number)
  | OpEnded (source : nat)
  | OpLoadSettled (r : LoadResult)
  | OpPlayResume
  | OpNetwork (answer : string -> LoadResult).

(** The platform dispatches [ended] on a node: its handler runs if one was
    installed. *)
Definition dispatch_ended (source : nat) (p : Player) (e : Env) : Player * Env :=
  match nodes e !! source with
  | Some n => if node_onended n then onended source p e else (p, e)
  | None => (p, e)
  end.

(** A load issued earlier settles: [streamCache.set] of line 416 of
    [main.ts] (cached loads) and the assignment of line 68. *)
Definition load_settled (r : LoadResult) (p : Player) (e : Env) : Player * Env :=
  match r with
  | Loaded b =>
      (with_buffer (Some b) p,
       if _useCache p then set_streamCache (insert (sourcePath p) b) e else e)
  | Failed _ => (p, e)
  end.

(** The network starts answering differently. *)
Definition set_network (answer : string -> LoadResult) (e : Env) : Env :=
  {| nodes := nodes e; next_node := next_node e;
     streamCache := streamCache e; network := answer;
     fetchLog := fetchLog e; resolved := resolved e;
     next_promise := next_promise e |}.

(** One event on an instance of [part_001]. *)
Definition exec (op : Op) (w : Player * Env) : Player * Env :=
  let '(p, e) := w in
  match op with
  | OpLoadAudio => fst (loadAudio p e)
  | OpPlay => fst (play p e)
  | OpStop => stop p e
  | OpSeek time => seek time p e
  | OpWhenAllEnded => fst (whenAllEnded p e)
  | OpDispose removeFromCache => dispose removeFromCache p e
  | OpSetLoop value => set_loop value p e
  | OpSetPlaybackRate value => set_playbackRate value p e
  | OpSetMaxPolyphony value => set_maxPolyphony value p e
  | OpEnded source => dispatch_ended source p e
  | OpLoadSettled r => load_settled r p e
  | OpPlayResume => play_resume p e
  | OpNetwork answer => (p, set_network answer e)
  end.

(** A run: the events one after the other. *)
Definition run (ops : list Op) (w : Player * Env) : Player * Env :=
  foldl (fun acc op => exec op acc) w ops.

(** ** The earlier version, [part_000]

    [part_000] is embedded from its own source, method by method, with
    the utilities it imports ([main.ts], lines 323-360), on the same
    records as [part_001].  Its [volume], [position] and [orientation]
    accessors, and the assignments its constructor makes to them (lines
    47, 49 and 50), write parameters of the gain and panner nodes that no
    other method reads; they are not embedded.  (The [volume] setter
    assigns [gain.value] where [part_001] schedules the value at the
    current time: what tells the two apart is a matter of timing.) *)

Module Legacy.

Module Utilities.

(** [loadAudio(context, url)], lines 332-341 of [main.ts]: one fetch, then
    decode. *)
Definition loadAudio (url : string) (e : Env) : LoadResult * Env :=
  (network e url,
   {| nodes := nodes e; next_node := next_node e;
      streamCache := streamCache e; network := network e;
      fetchLog := fetchLog e ++ [url]; resolved := resolved e;
      next_promise := next_promise e |}).

(** [loadAudioWithCaching(context, url)], lines 348-360 of [main.ts]. *)
Definition loadAudioWithCaching (url : string) (e : Env) : LoadResult * Env :=
  match streamCache e !! url with
  | Some cached => (Loaded cached, e)
  | None =>
      match loadAudio url e with
      | (Loaded b, e1) => (Loaded b, set_streamCache (insert url b) e1)
      | (Failed err, e1) => (Failed err, e1)
      end
  end.

End Utilities.

(** The instance the constructor leaves, lines 19-54, with [initial] the
    value of the field initialiser of line 29.  The destructuring defaults
    of lines 35 and 37 stand in for the options that are [undefined]; line
    48 assigns [maxPolyphony] in every case. *)
Definition instance (initial : AudioBuffer) (path : string) (opts : Options) : Player :=
  let useCache := default true (opt_useCache opts) in
  let maxPolyphony := default (Num 1) (opt_maxPolyphony opts) in
  let this :=
    {| _loop := false; _playbackRate := Num 1; _maxPolyphony := Num 1;
       _offset := Num 0; _endedPromiseResolver := None;
       _useCache := useCache;
       sourcePath := path; sources := []; buffer := Some initial;
       pannerConnected := true; gainConnected := true |} in
  with_maxPolyphony maxPolyphony this.

(** [new AudioStreamPlayer3D(context, path, opts)].  The field initialiser
    of line 29, [new AudioBuffer({ length: 0, sampleRate: 44100 })], runs
    before the constructor body, and what it throws the [new] expression
    throws ([None]). *)
Definition constructor (path : string) (opts : Options) : option Player :=
  match newAudioBuffer 0 44100 with
  | Some initial => Some (instance initial path opts)
  | None => None
  end.


(** [loadAudio()], lines 61-64. *)
Definition loadAudio (p : Player) (e : Env) : Player * Env * Settled :=
  let loadMethod :=
    if _useCache p then Utilities.loadAudioWithCaching else Utilities.loadAudio in
  match loadMethod (sourcePath p) e with
  | (Loaded b, e1) => (with_buffer (Some b) p, e1, Fulfilled)
  | (Failed err, e1) => (p, e1, Rejected err)
  end.

(** [stopAllSources()], lines 172-183. *)
Definition stopAllSources (p : Player) (e : Env) : Player * Env :=
  let e1 := foldl (fun acc i => stop_and_disconnect i acc) e (sources p) in
  let p1 := with_sources [] p in
  match _endedPromiseResolver p1 with
  | Some r => (with_resolver None p1, resolve r e1)
  | None => (p1, e1)
  end.

(** The [onended] closure installed by [play] on [source], lines 96-103. *)
Definition onended (source : nat) (p : Player) (e : Env) : Player * Env :=
  let p1 :=
    match list_find (fun s => s = source) (sources p) with
    | Some (index, _) => with_sources (delete index (sources p)) p
    | None => p
    end in
  match sources p1, _endedPromiseResolver p1 with
  | [], Some r => (with_resolver None p1, resolve r e)
  | _, _ => (p1, e)
  end.

(** [context.createBufferSource()] and [source.buffer = this.buffer],
    lines 85-86: a fresh node holding the buffer, connected to nothing. *)
Definition createBufferSource (b : AudioBuffer) (e : Env) : nat * Env :=
  let source :=
    {| node_buffer := b; node_loop := false; node_playbackRate := Num 1;
       node_connected := false; node_onended := false;
       node_started := None; node_stopped := false |} in
  (next_node e,
   {| nodes := <[next_node e := source]> (nodes e);
      next_node := S (next_node e);
      streamCache := streamCache e; network := network e;
      fetchLog := fetchLog e; resolved := resolved e;
      next_promise := next_promise e |}).

(** [play()] from the polyphony check on, lines 75-110, with [b] the
    buffer that passed the guard of line 73.  The node is connected to the
    panner (line 89) after its loop flag and rate are set. *)
Definition play_body (b : AudioBuffer) (p : Player) (e : Env) : Player * Env :=
  let '(p1, e1) :=
    if js_ge (js_length (sources p)) (_maxPolyphony p) then
      match sources p with
      | oldestSource :: rest =>
          (with_sources rest p, stop_and_disconnect oldestSource e)
      | [] => (p, e)
      end
    else (p, e) in
  let '(source, e2) := createBufferSource b e1 in
  let e3 := set_nodes (alter (mark_loop (_loop p1)) source) e2 in
  let e4 := set_nodes (alter (mark_playbackRate (_playbackRate p1)) source) e3 in
  let e5 := set_nodes (alter mark_connected source) e4 in
  let '(p2, e6) :=
    if negb (_loop p1) then
      (with_sources (sources p1 ++ [source]) p1,
       set_nodes (alter mark_onended source) e5)
    else
      let '(p', e') := stopAllSources p1 e5 in
      (with_sources (sources p' ++ [source]) p', e') in
  (p2, set_nodes (alter (mark_started (_offset p2)) source) e6).

(** [play()] after the [await], lines 72-110. *)
Definition play_resume (p : Player) (e : Env) : Player * Env :=
  match buffer p with
  | None => (p, e)
  | Some b => play_body b p e
  end.

(** [play()], lines 69-111. *)
Definition play (p : Player) (e : Env) : Player * Env * Settled :=
  match buffer p with
  | Some _ => (play_resume p e, Fulfilled)
  | None =>
      match loadAudio p e with
      | (p1, e1, Rejected err) => (p1, e1, Rejected err)
      | (p1, e1, Fulfilled) => (play_resume p1 e1, Fulfilled)
      end
  end.

(** [stop()], lines 116-119. *)
Definition stop (p : Player) (e : Env) : Player * Env :=
  let '(p1, e1) := stopAllSources p e in
  (with_offset (Num 0) p1, e1).

(** [seek(time)], lines 125-135. *)
Definition seek (time : number) (p : Player) (e : Env) : Player * Env :=
  match buffer p with
  | None => (p, e)
  | Some b =>
      let p1 := with_offset (js_rem time (Num (duration b))) p in
      match sources p1 with
      | [] => (p1, e)
      | _ :: _ =>
          let '(p2, e2) := stopAllSources p1 e in
          fst (play p2 e2)
      end
  end.

(** [whenAllEnded()], lines 141-149: returns the promise. *)
Definition whenAllEnded (p : Player) (e : Env) : Player * Env * nat :=
  let '(promise, e1) := new_promise e in
  match sources p with
  | [] => (p, resolve promise e1, promise)
  | _ :: _ => (with_resolver (Some promise) p, e1, promise)
  end.

(** [dispose(removeFromCache)], lines 155-167: the buffer stays. *)
Definition dispose (removeFromCache : bool) (p : Player) (e : Env) : Player * Env :=
  let '(p1, e1) := stopAllSources p e in
  let p2 := with_graph false false p1 in
  let e2 :=
    if removeFromCache && truthy (sourcePath p2)
    then set_streamCache (delete (sourcePath p2)) e1 else e1 in
  (with_resolver None (with_offset (Num 0) (with_playbackRate (Num 1) (with_loop false p2))), e2).

(** The [loop] setter, lines 193-199. *)
Definition set_loop (value : bool) (p : Player) (e : Env) : Player * Env :=
  (with_loop value p,
   foldl (fun acc i => set_nodes (alter (mark_loop value) i) acc) e (sources p)).

(** The [maxPolyphony] setter, lines 209-211. *)
Definition set_maxPolyphony (value : number) (p : Player) (e : Env) : Player * Env :=
  (with_maxPolyphony value p, e).

(** The [playbackRate] setter, lines 231-236: assigns
    [playbackRate.value] on every active node. *)
Definition set_playbackRate (value : number) (p : Player) (e : Env) : Player * Env :=
  (with_playbackRate value p,
   foldl (fun acc i => set_nodes (alter (mark_playbackRate value) i) acc) e (sources p)).

(** The platform dispatches [ended] on a node. *)
Definition dispatch_ended (source : nat) (p : Player) (e : Env) : Player * Env :=
  match nodes e !! source with
  | Some n => if node_onended n then onended source p e else (p, e)
  | None => (p, e)
  end.

(** A load issued earlier settles: [streamCache.set] of line 356 of
    [main.ts] (cached loads) and the assignment of line 63. *)
Definition load_settled (r : LoadResult) (p : Player) (e : Env) : Player * Env :=
  match r with
  | Loaded b =>
      (with_buffer (Some b) p,
       if _useCache p then set_streamCache (insert (sourcePath p) b) e else e)
  | Failed _ => (p, e)
  end.

(** One event on an instance of [part_000]. *)
Definition exec (op : Op) (w : Player * Env) : Player * Env :=
  let '(p, e) := w in
  match op with
  | OpLoadAudio => fst (loadAudio p e)
  | OpPlay => fst (play p e)
  | OpStop => stop p e
  | OpSeek time => seek time p e
  | OpWhenAllEnded => fst (whenAllEnded p e)
  | OpDispose removeFromCache => dispose removeFromCache p e
  | OpSetLoop value => set_loop value p e
  | OpSetPlaybackRate value => set_playbackRate value p e
  | OpSetMaxPolyphony value => set_maxPolyphony value p e
  | OpEnded source => dispatch_ended source p e
  | OpLoadSettled r => load_settled r p e
  | OpPlayResume => play_resume p e
  | OpNetwork answer => (p, set_network answer e)
  end.

Definition run (ops : list Op) (w : Player * Env) : Player * Env :=
  foldl (fun acc op => exec op acc) w ops.

End Legacy.

(** A page that has created nothing yet. *)
Definition emptyEnv (answer : string -> LoadResult) : Env :=
  {| nodes := ∅; next_node := 0%nat; streamCache := ∅; network := answer;
     fetchLog := []; resolved := []; next_promise := 0%nat |}.

(** * Specification vocabulary *)

(** What [stop(0)] followed by [disconnect()] leaves of a node. *)
Definition halt (n : SourceNode) : SourceNode := mark_disconnected (mark_stopped n).

(** Applying an update to every node referenced from a list. *)
Definition alter_all (f : SourceNode -> SourceNode) (l : list nat)
    (m : gmap nat SourceNode) : gmap nat SourceNode :=
  foldl (fun acc i => alter f i acc) m l.

(** [stop(0)] and [disconnect()] on every node of a list. *)
Definition halt_all : list nat -> gmap nat SourceNode -> gmap nat SourceNode :=
  alter_all halt.

Arguments alter_all : simpl never.
Arguments halt_all : simpl never.

(** The node [play] has configured before starting it (lines 90-92). *)
Definition configured (b : AudioBuffer) (p : Player) : SourceNode :=
  {| node_buffer := b; node_loop := _loop p;
     node_playbackRate := _playbackRate p; node_connected := true;
     node_onended := false; node_started := None; node_stopped := false |}.

(** The node as [play] leaves it: started at the current offset, with the
    [onended] handler exactly when not looping, neither stopped nor
    disconnected. *)
Definition voice (b : AudioBuffer) (p : Player) : SourceNode :=
  {| node_buffer := b; node_loop := _loop p;
     node_playbackRate := _playbackRate p; node_connected := true;
     node_onended := negb (_loop p);
     node_started := Some (_offset p); node_stopped := false |}.

(** The store after handing out a reference to the new node [n]. *)
Definition alloc_node (n : SourceNode) (e : Env) : Env :=
  {| nodes := <[next_node e := n]> (nodes e); next_node := S (next_node e);
     streamCache := streamCache e; network := network e;
     fetchLog := fetchLog e; resolved := resolved e;
     next_promise := next_promise e |}.

(** Every reference held in [sources] was handed out by the store. *)
Definition refs_allocated (p : Player) (e : Env) : Prop :=
  Forall (fun i => (i < next_node e)%nat) (sources p).

(** Whether the polyphony check of line 81 fires. *)
Definition at_ceiling (p : Player) : bool :=
  js_ge (js_length (sources p)) (_maxPolyphony p).

(** The nodes [play] stops: all of them when looping, the oldest one when
    the ceiling is reached, none otherwise. *)
Definition stopped_by_play (p : Player) : list nat :=
  if _loop p then sources p
  else if at_ceiling p then take 1 (sources p) else [].

(** The environment after one fetch of [url]. *)
Definition log_fetch (url : string) (e : Env) : Env := (loadAudioBuffer url e).2.

(** The implicit load of [play] fails: the load method in use misses the
    cache (when it consults it) and the network answers with an error. *)
Definition load_fails (p : Player) (e : Env) (err : LoadError) : Prop :=
  network e (sourcePath p) = Failed err ∧
  (_useCache p = true -> streamCache e !! sourcePath p = None).

(** Whether an event resolves a pending waiter: [stop] and [dispose]
    always; [seek] when a buffer is loaded and a voice is active; [play]
    (and its resumption) in loop mode when it gets past the buffer guard;
    [ended] on the only remaining voice, if it carries the handler. *)
Definition wakes_waiter (op : Op) (p : Player) (e : Env) : bool :=
  match op with
  | OpStop | OpDispose _ => true
  | OpSeek _ =>
      match buffer p, sources p with
      | Some _, _ :: _ => true
      | _, _ => false
      end
  | OpPlay =>
      _loop p &&
      match buffer p, (loadAudio p e).2 with
      | Some _, _ | None, Fulfilled => true
      | None, Rejected _ => false
      end
  | OpPlayResume => _loop p && bool_decide (is_Some (buffer p))
  | OpEnded source =>
      match nodes e !! source with
      | Some n => node_onended n
      | None => false
      end && bool_decide (sources p = [source])
  | _ => false
  end.

(** A waiter is pending only while voices are active. *)
Definition waiter_has_voices (p : Player) : Prop :=
  _endedPromiseResolver p = None ∨ sources p ≠ [].

(** The resolver slot after an event that found the waiter [r] pending. *)
Definition waiter_after (op : Op) (p : Player) (e : Env) (r : nat) : option nat :=
  if wakes_waiter op p e then None
  else match op with
       | OpWhenAllEnded => Some (next_promise e)
       | _ => Some r
       end.

(** [sources.length <= maxPolyphony], as JavaScript compares them. *)
Definition within_ceiling (p : Player) : bool :=
  js_ge (_maxPolyphony p) (js_length (sources p)).

(** A ceiling the interface allows: a whole number, at least 1. *)
Definition whole_ceiling (v : number) : option Z :=
  match v with
  | Num q => if ((Qden q =? 1)%positive && (1 <=? Qnum q)%Z)%bool
             then Some (Qnum q) else None
  | _ => None
  end.

(** An event that does not lower the ceiling below the voices already
    active: every event but an assignment to [maxPolyphony], and such an
    assignment when the new value is a whole number, at least 1 and at
    least [sources.length]. *)
Definition keeps_ceiling (op : Op) (p : Player) : bool :=
  match op with
  | OpSetMaxPolyphony v =>
      match whole_ceiling v with
      | Some z => (Z.of_nat (length (sources p)) <=? z)%Z
      | None => false
      end
  | _ => true
  end.

(** Every event of a run keeps the ceiling, in the state it is taken in. *)
Fixpoint ceiling_kept (ops : list Op) (w : Player * Env) : bool :=
  match ops with
  | [] => true
  | op :: rest => keeps_ceiling op w.1 && ceiling_kept rest (exec op w)
  end.

(** Options whose [maxPolyphony], if given, is a whole number >= 1. *)
Definition valid_options (opts : Options) : bool :=
  match opt_maxPolyphony opts with
  | None => true
  | Some v => bool_decide (is_Some (whole_ceiling v))
  end.

(** The invariant: the ceiling is a whole number [z >= 1] and at most [z]
    voices are active. *)
Definition ceiling_ok (p : Player) : Prop :=
  exists z : Z, (1 <= z)%Z ∧ _maxPolyphony p = Num (inject_Z z) ∧
                (Z.of_nat (length (sources p)) <= z)%Z.




(** ** Sample states *)

(** A ten-second buffer. *)
Definition demoBuffer : AudioBuffer := {| pcm := 1; duration := 10 |}.

(** [new AudioStreamPlayer3D(context, path)], no options given. *)
Definition defaults : Options := {| opt_useCache := None; opt_maxPolyphony := None |}.

(** Options asking for a ceiling of [n]. *)
Definition upTo (n : Z) : Options :=
  {| opt_useCache := None; opt_maxPolyphony := Some (Num (inject_Z n)) |}.

(** A fresh page on which every fetch fails. *)
Definition offline : Env := emptyEnv (fun _ => Failed FetchFailed).

(** A fresh page on which every fetch decodes to [demoBuffer]. *)
Definition online : Env := emptyEnv (fun _ => Loaded demoBuffer).

(** A player constructed with a ceiling of [n] that holds [demoBuffer]. *)
Definition loadedPlayer (n : Z) : Player :=
  with_buffer (Some demoBuffer) (constructor "a" (upTo n)).

(** Three overlapping one-shot voices under a ceiling of three. *)
Definition threeVoices : Player * Env :=
  run [OpLoadAudio; OpPlay; OpPlay; OpPlay] (constructor "a" (upTo 3), online).

(** One voice playing and a waiter pending on it. *)
Definition awaited : Player * Env :=
  run [OpLoadAudio; OpPlay; OpWhenAllEnded] (constructor "a" (upTo 1), online).


(** ** Vocabulary of the further properties *)

(** How one event may touch the promises: nothing happens; the pending
    waiter is resolved and its slot cleared; [whenAllEnded] hands out a
    promise that is already resolved; or it registers a new waiter. *)
Definition promise_step (p : Player) (e : Env) (p' : Player) (e' : Env) : Prop :=
  (resolved e' = resolved e ∧ next_promise e' = next_promise e ∧
   _endedPromiseResolver p' = _endedPromiseResolver p)
  ∨ (exists r, _endedPromiseResolver p = Some r ∧
               _endedPromiseResolver p' = None ∧
               resolved e' = resolved e ++ [r] ∧
               next_promise e' = next_promise e)
  ∨ (resolved e' = resolved e ++ [next_promise e] ∧
     next_promise e' = S (next_promise e) ∧
     _endedPromiseResolver p' = _endedPromiseResolver p)
  ∨ (resolved e' = resolved e ∧ next_promise e' = S (next_promise e) ∧
     _endedPromiseResolver p' = Some (next_promise e)).

(** The promises are in order: none was resolved twice, every resolved
    promise was handed out, and the pending waiter, if any, was handed out
    and is not resolved yet. *)
Definition promises_ok (p : Player) (e : Env) : Prop :=
  NoDup (resolved e) ∧
  Forall (fun r => (r < next_promise e)%nat) (resolved e) ∧
  match _endedPromiseResolver p with
  | Some r => (r < next_promise e)%nat ∧ (r ∉ resolved e)
  | None => True
  end.

(** A promise that was handed out, is not resolved and is not the pending
    waiter. *)
Definition abandoned (r : nat) (p : Player) (e : Env) : Prop :=
  (r < next_promise e)%nat ∧ (r ∉ resolved e) ∧ (_endedPromiseResolver p ≠ Some r).

(** A node that is sounding: started, not stopped, connected. *)
Definition playing (n : SourceNode) : Prop :=
  is_Some (node_started n) ∧ node_stopped n = false ∧ node_connected n = true.

(** The active voice set is in order: its references were handed out by
    the store, none occurs twice, and each is a sounding node. *)
Definition voices_ok (p : Player) (e : Env) : Prop :=
  refs_allocated p e ∧ NoDup (sources p) ∧
  Forall (fun i => exists n, nodes e !! i = Some n ∧ playing n) (sources p).

(** What the class may do to a node over time: the buffer, the start and
    the handler stay; a stopped node stays stopped and a disconnected one
    disconnected. *)
Definition evolves (n n' : SourceNode) : Prop :=
  node_buffer n' = node_buffer n ∧ node_started n' = node_started n ∧
  node_onended n' = node_onended n ∧
  (node_stopped n = true -> node_stopped n' = true) ∧
  (node_connected n = false -> node_connected n' = false).

(** One one-shot voice playing, nobody waiting. *)
Definition onePlaying : Player * Env :=
  run [OpLoadAudio; OpPlay] (constructor "a" (upTo 1), online).

(** Options asking not to cache. *)
Definition uncached : Options :=
  {| opt_useCache := Some false; opt_maxPolyphony := None |}.

(** The largest finite 32-bit float; [playbackRate.value] is a [float]. *)
Definition float_max : Q := inject_Z (2 ^ 128 - 2 ^ 104).

(** A state whose offset and rate the platform accepts:
    [start(0, offset)] throws unless [offset] is finite and not negative,
    and an assignment to [playbackRate.value] throws unless the rate is
    finite and within the range of a float. *)
Definition platform_accepts (p : Player) : bool :=
  match _offset p, _playbackRate p with
  | Num offset, Num rate =>
      Qle_bool 0 offset && Qle_bool (- float_max) rate && Qle_bool rate float_max
  | _, _ => false
  end.

(** A run that keeps to what the platform accepts: every event leaves
    such an offset and rate.  From a new player no call of [start],
    [stop] or [playbackRate] throws on such a run, and the total
    primitives [mark_started], [mark_stopped] and [mark_playbackRate]
    describe what the platform does. *)
Fixpoint accepted (ops : list Op) (w : Player * Env) : bool :=
  match ops with
  | [] => true
  | op :: rest => platform_accepts (exec op w).1 && accepted rest (exec op w)
  end.

(** Every active voice was started at a finite offset, not negative. *)
Definition offsets_ok (p : Player) (e : Env) : Prop :=
  Forall (fun i => exists n offset,
            nodes e !! i = Some n ∧ node_started n = Some (Num offset) ∧
            0 <= offset)
         (sources p).


(** ** The demo page ([main.ts], lines 22-59)

    [initialise] builds three players one after the other and awaits the
    load of each; a load that fails rejects [initialise] there and then,
    with the players constructed so far.  A play button is enabled, and
    its click handler attached, once the load of its player has come back.
    Line 23 disables the initialise button first, whatever follows;
    [sound1.volume = 0.6] only reaches the gain node.  Neither is part of
    the record below. *)

(** How far [initialise] has come: the players it has constructed, and
    for each play button whether it has enabled the button and attached
    its click handler. *)
Record Demo : Type := {
  sound1 : option Player;
  sound2 : option Player;
  sound3 : option Player;
  buttonPlayLoop : bool;
  buttonPlayDropped : bool;
  buttonPlayDroppedOverlapped : bool;
}.

(** [initialise()], lines 22-59, on the two imported track paths. *)
Definition initialise (backgroundTrack droppedTrack : string) (e : Env)
    : Demo * Env * Settled :=
  let s1 := constructor backgroundTrack defaults in
  let '(s1, e) := set_loop true s1 e in
  match loadAudio s1 e with
  | (s1, e, Rejected err) =>
      ({| sound1 := Some s1; sound2 := None; sound3 := None;
          buttonPlayLoop := false; buttonPlayDropped := false;
          buttonPlayDroppedOverlapped := false |}, e, Rejected err)
  | (s1, e, Fulfilled) =>
      let s2 := constructor droppedTrack defaults in
      match loadAudio s2 e with
      | (s2, e, Rejected err) =>
          ({| sound1 := Some s1; sound2 := Some s2; sound3 := None;
              buttonPlayLoop := true; buttonPlayDropped := false;
              buttonPlayDroppedOverlapped := false |}, e, Rejected err)
      | (s2, e, Fulfilled) =>
          let s3 := constructor droppedTrack defaults in
          let '(s3, e) := set_maxPolyphony (Num 2) s3 e in
          match loadAudio s3 e with
          | (s3, e, Rejected err) =>
              ({| sound1 := Some s1; sound2 := Some s2; sound3 := Some s3;
                  buttonPlayLoop := true; buttonPlayDropped := true;
                  buttonPlayDroppedOverlapped := false |}, e, Rejected err)
          | (s3, e, Fulfilled) =>
              ({| sound1 := Some s1; sound2 := Some s2; sound3 := Some s3;
                  buttonPlayLoop := true; buttonPlayDropped := true;
                  buttonPlayDroppedOverlapped := true |}, e, Fulfilled)
          end
      end
  end.

(** [playDroppedOverlapped()], lines 51-56: [sound3.play()], not awaited,
    then [sound3.whenAllEnded()]; returns the promise waited on.  The
    handler exists once [sound3] has loaded, so [play()] finds the buffer
    and has run to completion when [whenAllEnded()] is called; without a
    buffer [play()] would still be suspended at its [await] then. *)
Definition playDroppedOverlapped (s3 : Player) (e : Env) : Player * Env * nat :=
  let '(s3, e) :=
    match buffer s3 with
    | Some _ => (play s3 e).1
    | None => (s3, e)
    end in
  whenAllEnded s3 e.

(** * Properties *)

(** ** Stopping nodes *)

Lemma halt_idemp n : halt (halt n) = halt n.
Proof. reflexivity. Qed.

Lemma stop_and_disconnect_nodes i e :
  stop_and_disconnect i e = set_nodes (alter halt i) e.
Proof.
  unfold stop_and_disconnect, set_nodes; simpl. f_equal.
  apply alter_alter_eq.
Qed.

Lemma foldl_set_nodes (f : nat -> gmap nat SourceNode -> gmap nat SourceNode) l e :
  foldl (fun acc i => set_nodes (f i) acc) e l =
  set_nodes (fun m => foldl (fun acc i => f i acc) m l) e.
Proof.
  revert e. induction l as [|i l IH]; intros e; cbn [foldl].
  - destruct e; reflexivity.
  - rewrite IH. reflexivity.
Qed.

Lemma foldl_stop_and_disconnect l e :
  foldl (fun acc i => stop_and_disconnect i acc) e l = set_nodes (halt_all l) e.
Proof.
  revert e. induction l as [|i l IH]; intros e; cbn [foldl].
  - destruct e; reflexivity.
  - rewrite IH, stop_and_disconnect_nodes. reflexivity.
Qed.

(** A repeated update is seen once on the listed nodes and not at all on
    the others. *)
Lemma alter_all_lookup f l (m : gmap nat SourceNode) i :
  (forall n, f (f n) = f n) ->
  alter_all f l m !! i = if decide (i ∈ l) then f <$> m !! i else m !! i.
Proof.
  intros Hidem. revert m. induction l as [|j l IH]; intros m.
  - unfold alter_all; cbn [foldl]. rewrite decide_False; [done|].
    rewrite elem_of_nil. tauto.
  - unfold alter_all in *. cbn [foldl]. rewrite IH.
    destruct (decide (i = j)) as [->|Hne].
    + rewrite lookup_alter_eq, (decide_True (P := j ∈ j :: l)).
      2:{ rewrite elem_of_cons. tauto. }
      destruct (decide (j ∈ l)); [|done].
      destruct (m !! j); cbn; by rewrite ?Hidem.
    + rewrite lookup_alter_ne by done.
      destruct (decide (i ∈ l)).
      * rewrite decide_True; [done|]. rewrite elem_of_cons. tauto.
      * rewrite decide_False; [done|]. rewrite elem_of_cons. tauto.
Qed.

Lemma halt_all_lookup l (m : gmap nat SourceNode) i :
  halt_all l m !! i = if decide (i ∈ l) then halt <$> m !! i else m !! i.
Proof. apply alter_all_lookup, halt_idemp. Qed.

(** [stopAllSources] in one equation. *)
Lemma stopAllSources_eq p e :
  stopAllSources p e =
  (with_resolver None (with_sources [] p),
   let e1 := set_nodes (halt_all (sources p)) e in
   match _endedPromiseResolver p with
   | Some r => resolve r e1
   | None => e1
   end).
Proof.
  unfold stopAllSources. rewrite foldl_stop_and_disconnect. simpl.
  destruct p as [? ? ? ? [r|] ? ? ? ? ? ?]; reflexivity.
Qed.

(** ** One call of [play] *)

Lemma enforce_polyphony_eq p e :
  enforce_polyphony p e =
  if at_ceiling p
  then (with_sources (tail (sources p)) p,
        set_nodes (halt_all (take 1 (sources p))) e)
  else (p, e).
Proof.
  unfold enforce_polyphony, at_ceiling.
  destruct (js_ge _ _); [|reflexivity].
  destruct p as [? ? ? ? ? ? ? [|o rest] ? ? ?]; cbn.
  - destruct e; reflexivity.
  - rewrite stop_and_disconnect_nodes. reflexivity.
Qed.

Lemma play_body_oneshot b p e :
  _loop p = false ->
  play_body b p e =
  let '(p1, e1) := enforce_polyphony p e in
  (with_sources (sources p1 ++ [next_node e]) p1, alloc_node (voice b p) e1).
Proof.
  intros Hl. unfold play_body. rewrite enforce_polyphony_eq.
  destruct (at_ceiling p); cbn; rewrite Hl; cbn; f_equal;
    unfold set_nodes, alloc_node, voice; cbn; rewrite Hl; f_equal;
    rewrite !alter_insert_eq; reflexivity.
Qed.

Lemma play_body_loop b p e :
  _loop p = true ->
  play_body b p e =
  let '(p1, e1) := enforce_polyphony p e in
  let e2 := set_nodes (halt_all (sources p1)) (alloc_node (configured b p) e1) in
  (with_resolver None (with_sources [next_node e] p1),
   set_nodes (alter (mark_started (_offset p)) (next_node e))
     match _endedPromiseResolver p with
     | Some r => resolve r e2
     | None => e2
     end).
Proof.
  intros Hl. unfold play_body. rewrite enforce_polyphony_eq.
  destruct (at_ceiling p); cbn; rewrite Hl; cbn;
    rewrite stopAllSources_eq; cbn; f_equal; f_equal;
    unfold set_nodes, alloc_node, configured; cbn; rewrite Hl;
    rewrite !alter_insert_eq; reflexivity.
Qed.

Lemma play_body_sources b p e :
  sources (play_body b p e).1 =
  if _loop p then [next_node e]
  else (if at_ceiling p then tail (sources p) else sources p) ++ [next_node e].
Proof.
  destruct (_loop p) eqn:Hl.
  - rewrite play_body_loop, enforce_polyphony_eq by done.
    destruct (at_ceiling p); reflexivity.
  - rewrite play_body_oneshot, enforce_polyphony_eq by done.
    destruct (at_ceiling p); reflexivity.
Qed.

Lemma play_body_player b p e :
  let p' := (play_body b p e).1 in
  _loop p' = _loop p ∧ _playbackRate p' = _playbackRate p ∧
  _maxPolyphony p' = _maxPolyphony p ∧ _offset p' = _offset p ∧
  _endedPromiseResolver p' =
    (if _loop p then None else _endedPromiseResolver p) ∧
  _useCache p' = _useCache p ∧ sourcePath p' = sourcePath p ∧
  buffer p' = buffer p.
Proof.
  destruct (_loop p) eqn:Hl.
  - rewrite play_body_loop, enforce_polyphony_eq by done.
    destruct (at_ceiling p); cbn; rewrite ?Hl; done.
  - rewrite play_body_oneshot, enforce_polyphony_eq by done.
    destruct (at_ceiling p); cbn; rewrite ?Hl; done.
Qed.

Lemma play_body_env b p e :
  let e' := (play_body b p e).2 in
  next_node e' = S (next_node e) ∧ streamCache e' = streamCache e ∧
  network e' = network e ∧ fetchLog e' = fetchLog e ∧
  next_promise e' = next_promise e ∧
  resolved e' =
    resolved e ++ (if _loop p then option_list (_endedPromiseResolver p) else []).
Proof.
  destruct (_loop p) eqn:Hl.
  - rewrite play_body_loop, enforce_polyphony_eq by done.
    destruct (at_ceiling p), (_endedPromiseResolver p); cbn;
      rewrite ?app_nil_r; done.
  - rewrite play_body_oneshot, enforce_polyphony_eq by done.
    destruct (at_ceiling p); cbn; rewrite ?app_nil_r; done.
Qed.

Lemma elem_of_take_1_or_tail (l : list nat) i :
  i ∈ l <-> i ∈ take 1 l ∨ i ∈ tail l.
Proof.
  destruct l as [|x l]; cbn.
  - rewrite elem_of_nil. tauto.
  - rewrite elem_of_cons, elem_of_cons, elem_of_nil. tauto.
Qed.

Lemma fmap_halt_idemp (o : option SourceNode) : halt <$> (halt <$> o) = halt <$> o.
Proof. destruct o; reflexivity. Qed.

Lemma play_body_nodes b p e i :
  refs_allocated p e ->
  nodes (play_body b p e).2 !! i =
  if decide (i = next_node e) then Some (voice b p)
  else if decide (i ∈ stopped_by_play p) then halt <$> nodes e !! i
  else nodes e !! i.
Proof.
  intros Hwf.
  assert (Hfresh : next_node e ∉ sources p).
  { intros Hin. unfold refs_allocated in Hwf. rewrite Forall_forall in Hwf.
    apply Hwf in Hin. lia. }
  unfold stopped_by_play.
  destruct (_loop p) eqn:Hl.
  - rewrite play_body_loop, enforce_polyphony_eq by done.
    pose proof (elem_of_take_1_or_tail (sources p) i) as Hsplit.
    pose proof (elem_of_take_1_or_tail (sources p) (next_node e)) as Hsplit'.
    destruct (at_ceiling p), (_endedPromiseResolver p); cbn;
      (destruct (decide (i = next_node e)) as [->|Hne];
       [ rewrite lookup_alter_eq, halt_all_lookup, ?decide_False by tauto;
         rewrite lookup_insert_eq; unfold voice, configured, mark_started; cbn;
         rewrite Hl; reflexivity
       | rewrite lookup_alter_ne, halt_all_lookup by done;
         rewrite lookup_insert_ne by done;
         rewrite ?halt_all_lookup;
         repeat case_decide; rewrite ?fmap_halt_idemp; tauto || done ]).
  - rewrite play_body_oneshot, enforce_polyphony_eq by done.
    destruct (at_ceiling p); cbn;
      (destruct (decide (i = next_node e)) as [->|Hne];
       [ rewrite lookup_insert_eq; reflexivity
       | rewrite lookup_insert_ne by done; rewrite ?halt_all_lookup;
         repeat case_decide; try done; exfalso; set_solver ]).
Qed.

(** ** The polyphony check on integer ceilings *)

Lemma at_ceiling_int p (z : Z) :
  _maxPolyphony p = Num (inject_Z z) ->
  at_ceiling p = (z <=? Z.of_nat (length (sources p)))%Z.
Proof.
  intros Hz. unfold at_ceiling, js_length, js_ge. rewrite Hz.
  unfold Qle_bool; cbn. rewrite !Z.mul_1_r. reflexivity.
Qed.

Lemma run_snoc ops op w : run (ops ++ [op]) w = exec op (run ops w).
Proof. unfold run. rewrite foldl_app. reflexivity. Qed.

Lemma replicate_snoc {A} k (x : A) : replicate (S k) x = replicate k x ++ [x].
Proof. induction k as [|k IH]; cbn in *; [done | by rewrite <- IH]. Qed.

(** While fewer than [n] one-shot voices are active, every [play] appends a
    voice and stops nothing. *)
Lemma plays_below_ceiling (n k : nat) b p e :
  _maxPolyphony p = Num (inject_Z (Z.of_nat n)) ->
  buffer p = Some b -> sources p = [] -> _loop p = false ->
  (k <= n)%nat ->
  (run (replicate k OpPlay) (p, e)).1 = with_sources (seq (next_node e) k) p ∧
  next_node (run (replicate k OpPlay) (p, e)).2 = (next_node e + k)%nat ∧
  ∀ i, nodes (run (replicate k OpPlay) (p, e)).2 !! i =
       if decide (next_node e <= i < next_node e + k)%nat
       then Some (voice b p) else nodes e !! i.
Proof.
  intros Hmax Hbuf Hsrc Hloop. induction k as [|k IH]; intros Hk.
  - cbn. repeat split.
    + destruct p; cbn in *; subst; reflexivity.
    + lia.
    + intros i. rewrite decide_False by lia. done.
  - destruct IH as (Hp & Hn & Hnodes); [lia|].
    rewrite replicate_snoc, run_snoc.
    destruct (run (replicate k OpPlay) (p, e)) as [pk ek]; cbn in Hp, Hn, Hnodes.
    subst pk. cbn [exec]. unfold play, play_resume. cbn [buffer with_sources].
    rewrite Hbuf. cbn [fst].
    rewrite play_body_oneshot, enforce_polyphony_eq by done.
    rewrite (at_ceiling_int _ (Z.of_nat n)) by done. cbn [sources with_sources].
    rewrite length_seq.
    destruct (Z.leb_spec (Z.of_nat n) (Z.of_nat k)) as [Hle|_]; [lia|].
    cbn [fst snd sources with_sources]. rewrite Hn. repeat split.
    + rewrite seq_S. reflexivity.
    + cbn. lia.
    + intros i. cbn [nodes alloc_node]. rewrite Hn.
      destruct (decide (i = next_node e + k)%nat) as [->|Hne].
      * rewrite lookup_insert_eq, decide_True by lia. reflexivity.
      * rewrite lookup_insert_ne, Hnodes by done.
        destruct (decide (next_node e <= i < next_node e + k)%nat).
        -- rewrite decide_True by lia. done.
        -- rewrite decide_False by lia. done.
Qed.

(** C1.  With [maxPolyphony = n >= 1], a loaded buffer, no active voice and
    [loop = false], calling [play()] [n + 1] times with no [ended] event in
    between leaves exactly [n] active voices: the first call starts the
    node [next_node e]; after the last call that node has been stopped and
    disconnected and is no longer in [sources], and the [n] nodes started
    after it are all in [sources], in starting order, still playing. *)
Theorem polyphony_evicts_first_started (n : nat) b p e :
  (1 <= n)%nat ->
  _maxPolyphony p = Num (inject_Z (Z.of_nat n)) ->
  buffer p = Some b -> sources p = [] -> _loop p = false ->
  sources (run [OpPlay] (p, e)).1 = [next_node e] ∧
  length (sources (run (replicate (S n) OpPlay) (p, e)).1) = n ∧
  sources (run (replicate (S n) OpPlay) (p, e)).1 = seq (S (next_node e)) n ∧
  nodes (run (replicate (S n) OpPlay) (p, e)).2 !! next_node e
    = Some (halt (voice b p)) ∧
  Forall (fun i => nodes (run (replicate (S n) OpPlay) (p, e)).2 !! i
                   = Some (voice b p))
         (sources (run (replicate (S n) OpPlay) (p, e)).1).
Proof.
  intros Hn Hmax Hbuf Hsrc Hloop.
  assert (Hfirst : sources (run [OpPlay] (p, e)).1 = [next_node e]).
  { destruct (plays_below_ceiling n 1 b p e) as (Hp & _); try done.
    cbn [replicate] in Hp. rewrite Hp. reflexivity. }
  destruct (plays_below_ceiling n n b p e) as (Hp & Hnext & Hnodes); try done.
  rewrite replicate_snoc, run_snoc.
  destruct (run (replicate n OpPlay) (p, e)) as [pn en]; cbn in Hp, Hnext, Hnodes.
  subst pn. cbn [exec]. unfold play, play_resume. cbn [buffer with_sources].
  rewrite Hbuf. cbn [fst].
  rewrite play_body_oneshot, enforce_polyphony_eq by done.
  rewrite (at_ceiling_int _ (Z.of_nat n)) by done. cbn [sources with_sources].
  rewrite length_seq, Z.leb_refl. cbn [fst snd sources with_sources].
  destruct n as [|m]; [lia|]. cbn [seq tail take].
  assert (Hsrcs : seq (S (next_node e)) m ++ [next_node en] = seq (S (next_node e)) (S m)).
  { rewrite seq_S. f_equal. f_equal. lia. }
  rewrite Hsrcs. split; [done|]. split; [by rewrite length_seq|]. split; [done|].
  cbn [nodes alloc_node set_nodes next_node take].
  change (voice b (with_sources _ p)) with (voice b p). split.
  - rewrite lookup_insert_ne by lia. rewrite halt_all_lookup.
    rewrite decide_True by (apply list_elem_of_singleton; done).
    rewrite Hnodes, decide_True by lia. reflexivity.
  - apply Forall_forall. intros i Hi. apply elem_of_seq in Hi.
    destruct (decide (i = next_node en)) as [->|Hne].
    + rewrite lookup_insert_eq. reflexivity.
    + rewrite lookup_insert_ne by done. rewrite halt_all_lookup.
      rewrite decide_False by (rewrite list_elem_of_singleton; lia).
      rewrite Hnodes, decide_True by lia. reflexivity.
Qed.

Lemma polyphony_evicts_first_started_witness :
  sources (run (replicate 3 OpPlay) (loadedPlayer 2, offline)).1
    = [1%nat; 2%nat] ∧
  nodes (run (replicate 3 OpPlay) (loadedPlayer 2, offline)).2 !! 0%nat
    = Some (halt (voice demoBuffer (loadedPlayer 2))).
Proof.
  pose proof (polyphony_evicts_first_started 2 demoBuffer (loadedPlayer 2)
                offline) as H.
  destruct H as (_ & _ & Hsrc & Hfirst & _); [lia | reflexivity ..|].
  split; [exact Hsrc | exact Hfirst].
Defined.

(** ** [stop] and looping playback *)

(** C7.  [stop()] in any state: every node referenced by [sources] is
    stopped and disconnected (and nothing else about any node changes),
    [sources] is left empty, [offset] is 0, and a pending waiter is resolved
    (once) and the resolver slot cleared. *)
Theorem stop_tears_down (p : Player) (e : Env) :
  sources (stop p e).1 = [] ∧
  _offset (stop p e).1 = Num 0 ∧
  _endedPromiseResolver (stop p e).1 = None ∧
  (∀ i, nodes (stop p e).2 !! i =
        if decide (i ∈ sources p) then halt <$> nodes e !! i
        else nodes e !! i) ∧
  resolved (stop p e).2 = resolved e ++ option_list (_endedPromiseResolver p).
Proof.
  unfold stop. rewrite stopAllSources_eq. cbn.
  repeat split.
  - intros i. destruct (_endedPromiseResolver p); cbn; apply halt_all_lookup.
  - destruct (_endedPromiseResolver p); cbn; by rewrite ?app_nil_r.
Qed.

Lemma set_loop_eq v p e :
  set_loop v p e =
  (with_loop v p, set_nodes (alter_all (mark_loop v) (sources p)) e).
Proof. unfold set_loop. rewrite foldl_set_nodes. reflexivity. Qed.

Lemma set_playbackRate_eq v p e :
  set_playbackRate v p e =
  (with_playbackRate v p,
   set_nodes (alter_all (mark_playbackRate v) (sources p)) e).
Proof. unfold set_playbackRate. rewrite foldl_set_nodes. reflexivity. Qed.

(** C2.  With a buffer loaded, whatever [sources] holds: after
    [loop = true] and [play()], [sources] is exactly the new node; every
    node that was in [sources] has been stopped and disconnected, the new
    node is playing (looping, from the current offset), and no other node
    is touched. *)
Theorem loop_play_leaves_one_voice b (p : Player) (e : Env) :
  buffer p = Some b ->
  refs_allocated p e ->
  sources (run [OpSetLoop true; OpPlay] (p, e)).1 = [next_node e] ∧
  length (sources (run [OpSetLoop true; OpPlay] (p, e)).1) = 1%nat ∧
  ∀ i, nodes (run [OpSetLoop true; OpPlay] (p, e)).2 !! i =
       if decide (i = next_node e) then Some (voice b (with_loop true p))
       else if decide (i ∈ sources p)
            then halt <$> (mark_loop true <$> nodes e !! i)
            else nodes e !! i.
Proof.
  intros Hbuf Hwf. unfold run. cbn [foldl exec].
  rewrite set_loop_eq. cbn [exec]. unfold play. cbn [buffer with_loop].
  rewrite Hbuf. unfold play_resume. cbn [buffer with_loop]. rewrite Hbuf. cbn [fst].
  set (p1 := with_loop true p). set (e1 := set_nodes _ e).
  assert (Hwf1 : refs_allocated p1 e1) by exact Hwf.
  rewrite play_body_sources. cbn [_loop p1 with_loop].
  change (next_node e1) with (next_node e).
  split; [done|]. split; [done|]. intros i.
  rewrite play_body_nodes by done.
  change (next_node e1) with (next_node e).
  destruct (decide (i = next_node e)); [done|].
  unfold stopped_by_play. cbn [_loop p1 with_loop sources].
  subst e1. cbn [nodes set_nodes].
  rewrite alter_all_lookup by reflexivity.
  destruct (decide (i ∈ sources p)); done.
Qed.

Lemma loop_play_leaves_one_voice_witness :
  length (sources threeVoices.1) = 3%nat ∧
  length (sources (run [OpSetLoop true; OpPlay]
                     (threeVoices.1, threeVoices.2)).1) = 1%nat.
Proof.
  split; [reflexivity|].
  destruct (loop_play_leaves_one_voice demoBuffer threeVoices.1 threeVoices.2)
    as (_ & H & _).
  - reflexivity.
  - unfold refs_allocated. vm_compute. repeat constructor.
  - exact H.
Defined.

(** ** [seek] *)

Example js_rem_wraps : js_rem (Num 13) (Num 10) = Num 3.
Proof. reflexivity. Qed.

Example js_rem_fraction : js_rem (Num (7 # 2)) (Num (3 # 2)) = Num (1 # 2).
Proof. reflexivity. Qed.

Example js_rem_sign_of_dividend : js_rem (Num (-13)) (Num 10) = Num (-3).
Proof. reflexivity. Qed.

Example js_rem_infinite_dividend : js_rem (Inf false) (Num 10) = NaN.
Proof. reflexivity. Qed.

(** On a non-negative dividend truncation is the floor. *)
Lemma Qtrunc_nonneg q : 0 <= q -> Qtrunc q = Qfloor q.
Proof.
  destruct q as [n d]. unfold Qle, Qtrunc, Qfloor; cbn. intros Hn.
  apply Z.quot_div_nonneg; lia.
Qed.

(** For [0 <= t] and [0 < d], [t % d] is the remainder of the division of
    [t] by [d]: it lies in [[0, d)] and differs from [t] by a whole number
    of [d]s. *)
Lemma js_rem_nonneg (t d : Q) :
  0 <= t -> 0 < d ->
  exists (r : Q) (k : Z),
    js_rem (Num t) (Num d) = Num r ∧ 0 <= r ∧ r < d ∧ (0 <= k)%Z ∧
    t == inject_Z k * d + r.
Proof.
  intros Ht Hd.
  assert (Hd0 : ~ d == 0) by (intros H; rewrite H in Hd; discriminate).
  assert (Hq : 0 <= t / d).
  { apply Qle_shift_div_l; [done|]. rewrite Qmult_0_l. done. }
  exists (Qred (t - inject_Z (Qfloor (t / d)) * d)), (Qfloor (t / d)).
  unfold js_rem.
  destruct (Qeq_bool d 0) eqn:Heq; [apply Qeq_bool_iff in Heq; contradiction|].
  rewrite (Qtrunc_nonneg _ Hq).
  pose proof (Qfloor_le (t / d)) as Hlo.
  pose proof (Qlt_floor (t / d)) as Hhi.
  assert (Hback : t / d * d == t) by (field; done).
  assert (Hlo' : inject_Z (Qfloor (t / d)) * d <= t / d * d).
  { apply Qmult_le_compat_r; [done | by apply Qlt_le_weak]. }
  assert (Hhi' : t / d * d < inject_Z (Qfloor (t / d) + 1) * d).
  { apply Qmult_lt_compat_r; done. }
  rewrite Hback in Hlo', Hhi'.
  rewrite inject_Z_plus in Hhi'.
  assert (Hdist : (inject_Z (Qfloor (t / d)) + inject_Z 1) * d
                  == inject_Z (Qfloor (t / d)) * d + d) by ring.
  rewrite Hdist in Hhi'.
  split; [reflexivity|]. rewrite !Qred_correct.
  set (whole := inject_Z (Qfloor (t / d)) * d) in *.
  split; [lra|]. split; [lra|]. split; [|lra].
  change 0%Z with (Qfloor 0). apply Qfloor_resp_le. done.
Qed.

Lemma stopAllSources_player p e :
  (stopAllSources p e).1 = with_resolver None (with_sources [] p).
Proof. rewrite stopAllSources_eq. reflexivity. Qed.

Lemma stopAllSources_env p e :
  let e' := (stopAllSources p e).2 in
  nodes e' = halt_all (sources p) (nodes e) ∧
  next_node e' = next_node e ∧ streamCache e' = streamCache e ∧
  network e' = network e ∧ fetchLog e' = fetchLog e ∧
  next_promise e' = next_promise e ∧
  resolved e' = resolved e ++ option_list (_endedPromiseResolver p).
Proof.
  rewrite stopAllSources_eq.
  destruct (_endedPromiseResolver p); cbn; rewrite ?app_nil_r; done.
Qed.

(** With a buffer present [play] is its body. *)
Lemma play_loaded b p e :
  buffer p = Some b -> play p e = (play_body b p e, Fulfilled).
Proof. intros Hb. unfold play, play_resume. rewrite Hb. reflexivity. Qed.

(** C6.  [seek(time)] without a buffer changes nothing.  With a buffer [b],
    the offset becomes [time % b.duration] -- for [0 <= time] and a buffer
    of positive duration the remainder of [time] modulo the duration, in
    [[0, duration)].  With no active voice nothing else changes; otherwise
    every active node is stopped and disconnected and [play] starts one new
    node at the new offset, which is then the only entry of [sources]. *)
Theorem seek_wraps_and_restarts (time : number) (p : Player) (e : Env) :
  match buffer p with
  | None => seek time p e = (p, e)
  | Some b =>
      let offset := js_rem time (Num (duration b)) in
      _offset (seek time p e).1 = offset ∧
      (∀ t, time = Num t -> 0 <= t -> 0 < duration b ->
         exists (r : Q) (k : Z),
           offset = Num r ∧ 0 <= r ∧ r < duration b ∧ (0 <= k)%Z ∧
           t == inject_Z k * duration b + r) ∧
      match sources p with
      | [] => seek time p e = (with_offset offset p, e)
      | _ :: _ =>
          sources (seek time p e).1 = [next_node e] ∧
          ∀ i, nodes (seek time p e).2 !! i =
               if decide (i = next_node e)
               then Some (voice b (with_offset offset p))
               else if decide (i ∈ sources p) then halt <$> nodes e !! i
               else nodes e !! i
      end
  end.
Proof.
  unfold seek. destruct (buffer p) as [b|] eqn:Hbuf; [|reflexivity].
  cbn zeta. cbn [sources with_offset].
  set (offset := js_rem time (Num (duration b))).
  assert (Hmod : ∀ t, time = Num t -> 0 <= t -> 0 < duration b ->
            exists (r : Q) (k : Z),
              offset = Num r ∧ 0 <= r ∧ r < duration b ∧ (0 <= k)%Z ∧
              t == inject_Z k * duration b + r).
  { intros t -> Ht Hd. apply js_rem_nonneg; done. }
  destruct (sources p) as [|s0 rest] eqn:Hsrc.
  - cbn. done.
  - rewrite (surjective_pairing (stopAllSources (with_offset offset p) e)).
    rewrite stopAllSources_player.
    pose proof (stopAllSources_env (with_offset offset p) e)
      as (Hnodes & Hnext & _).
    cbn zeta in Hnodes, Hnext. cbn [sources with_offset] in Hnodes.
    set (e2 := (stopAllSources (with_offset offset p) e).2) in *.
    set (p2 := with_resolver None (with_sources [] (with_offset offset p))).
    rewrite (play_loaded b) by exact Hbuf. cbn [fst].
    pose proof (play_body_player b p2 e2) as (_ & _ & _ & Hoff & _).
    cbn zeta in Hoff. rewrite Hoff.
    split; [reflexivity|]. split; [done|].
    rewrite play_body_sources, Hnext.
    split; [destruct (_loop p2), (at_ceiling p2); reflexivity|].
    intros i. rewrite play_body_nodes by constructor.
    rewrite Hnext.
    destruct (decide (i = next_node e)); [reflexivity|].
    rewrite decide_False.
    2:{ unfold stopped_by_play. cbn [sources p2 with_resolver with_sources take].
        destruct (_loop p2), (at_ceiling p2); rewrite elem_of_nil; tauto. }
    rewrite Hnodes, Hsrc. apply halt_all_lookup.
Qed.

Lemma seek_wraps_and_restarts_witness :
  _offset (seek (Num 13) (loadedPlayer 1) offline).1 = Num 3 ∧
  exists (r : Q) (k : Z),
    js_rem (Num 13) (Num 10) = Num r ∧ 0 <= r ∧ r < 10 ∧ (0 <= k)%Z ∧
    13 == inject_Z k * 10 + r.
Proof.
  pose proof (seek_wraps_and_restarts (Num 13) (loadedPlayer 1) offline) as H.
  cbn [buffer loadedPlayer with_buffer] in H. destruct H as (H & Hmod & _).
  split; [rewrite H; reflexivity|].
  apply (Hmod 13); [reflexivity | discriminate | reflexivity].
Defined.

(** ** Loading and the decode cache *)

(** C4, as the code has it.  [play()] without a buffer whose implicit load
    fails creates no voice and leaves the player as it was -- the only
    trace in the environment is the logged fetch -- and the promise [play]
    returned is rejected with the error of the load. *)
Theorem play_failed_load_rejects (p : Player) (e : Env) (err : LoadError) :
  buffer p = None ->
  load_fails p e err ->
  play p e = (p, log_fetch (sourcePath p) e, Rejected err) ∧
  sources (play p e).1.1 = sources p ∧
  nodes (play p e).1.2 = nodes e ∧
  next_node (play p e).1.2 = next_node e.
Proof.
  intros Hbuf [Hnet Hmiss].
  assert (Hplay : play p e = (p, log_fetch (sourcePath p) e, Rejected err)).
  { unfold play, loadAudio. rewrite Hbuf.
    destruct (_useCache p); cbn.
    - unfold loadAudioWithCaching. rewrite Hmiss by done. cbn.
      rewrite Hnet. reflexivity.
    - rewrite Hnet. reflexivity. }
  rewrite Hplay. repeat split.
Qed.

Lemma play_failed_load_rejects_witness :
  (play (constructor "a" defaults) offline).2 = Rejected FetchFailed.
Proof.
  destruct (play_failed_load_rejects (constructor "a" defaults) offline FetchFailed)
    as (H & _).
  - reflexivity.
  - split; reflexivity.
  - rewrite H. reflexivity.
Defined.

(** The claim C4 as written -- no error reaches the caller of [play] --
    fails on a fresh player when the network is down: no buffer, the load
    fails, and the promise of [play] is rejected. *)
Lemma play_failed_load_not_silent :
  buffer (constructor "a" defaults) = None ∧
  load_fails (constructor "a" defaults) offline FetchFailed ∧
  (play (constructor "a" defaults) offline).2 ≠ Fulfilled.
Proof.
  split; [reflexivity|]. split; [split; reflexivity|].
  cbv. discriminate.
Qed.

(** C8.  [loadAudioWithCaching] answers from [streamCache] on a hit,
    without fetching; on a miss it fetches once and, if that succeeds,
    stores the buffer under the key before returning it.  Hence two
    players on the same path with [useCache = true] that load one after
    the other hold the same buffer, which is the cache's entry for the
    path; the second load does not fetch and does not depend on the
    network; and a cache that started empty holds that single entry. *)
Theorem cached_loads_share_buffer (p1 p2 : Player) (e : Env)
    (answer : string -> LoadResult) :
  _useCache p1 = true -> _useCache p2 = true ->
  sourcePath p1 = sourcePath p2 ->
  (loadAudio p1 e).2 = Fulfilled ->
  let url := sourcePath p1 in
  let e1 := (loadAudio p1 e).1.2 in
  let second := loadAudio p2 (set_network answer e1) in
  loadAudioWithCaching url e =
    match streamCache e !! url with
    | Some cached => (Loaded cached, e)
    | None =>
        match network e url with
        | Loaded b => (Loaded b, set_streamCache (insert url b) (log_fetch url e))
        | Failed err => (Failed err, log_fetch url e)
        end
    end ∧
  exists b,
    buffer (loadAudio p1 e).1.1 = Some b ∧
    second.2 = Fulfilled ∧
    buffer second.1.1 = Some b ∧
    streamCache second.1.2 !! url = Some b ∧
    streamCache second.1.2 = <[url := b]> (streamCache e) ∧
    fetchLog second.1.2 = fetchLog e1 ∧
    (streamCache e = ∅ -> streamCache second.1.2 = {[ url := b ]}).
Proof.
  intros Hc1 Hc2 Hpath Hok url e1 second.
  assert (Hcontract : loadAudioWithCaching url e =
    match streamCache e !! url with
    | Some cached => (Loaded cached, e)
    | None =>
        match network e url with
        | Loaded b => (Loaded b, set_streamCache (insert url b) (log_fetch url e))
        | Failed err => (Failed err, log_fetch url e)
        end
    end).
  { unfold loadAudioWithCaching, log_fetch, loadAudioBuffer.
    destruct (streamCache e !! url); [reflexivity|].
    destruct (network e url); reflexivity. }
  split; [exact Hcontract|].
  subst second e1. unfold loadAudio in *. rewrite Hc1, Hc2 in *.
  rewrite <- Hpath. fold url in Hok |- *. rewrite Hcontract in Hok |- *.
  destruct (streamCache e !! url) as [cached|] eqn:Hlook.
  - exists cached. cbn.
    unfold loadAudioWithCaching. cbn. rewrite Hlook. cbn.
    repeat split; try done.
    + by rewrite insert_id.
    + intros Hempty. rewrite Hempty, lookup_empty in Hlook. discriminate.
  - destruct (network e url) as [b|err] eqn:Hnet; [|discriminate].
    exists b. cbn.
    unfold loadAudioWithCaching. cbn. rewrite lookup_insert_eq. cbn.
    repeat split; try done.
    + apply lookup_insert_eq.
    + intros ->. reflexivity.
Qed.

Lemma cached_loads_share_buffer_witness :
  buffer (loadAudio (constructor "a" defaults) online).1.1 = Some demoBuffer ∧
  buffer (loadAudio (constructor "a" defaults)
            (set_network (fun _ => Failed DecodeFailed)
               (loadAudio (constructor "a" defaults) online).1.2)).1.1
    = Some demoBuffer.
Proof.
  destruct (cached_loads_share_buffer (constructor "a" defaults)
              (constructor "a" defaults) online (fun _ => Failed DecodeFailed))
    as (_ & b & H1 & _ & H2 & _); try reflexivity.
  assert (Hb : b = demoBuffer).
  { assert (Some b = Some demoBuffer) as Heq by (rewrite <- H1; reflexivity).
    congruence. }
  subst b. split; [exact H1 | exact H2].
Defined.

(** ** [dispose] *)

Lemma truthy_spec (s : string) : truthy s = bool_decide (s ≠ EmptyString).
Proof. destruct s; reflexivity. Qed.

(** C9, as the code has it.  In any state, [dispose(removeFromCache)]
    does what [stop()] does to the voices, the offset and the waiter;
    disconnects panner and gain; drops the buffer; and resets [loop],
    [playbackRate] and [offset] to [false], 1 and 0.  It deletes the path
    from [streamCache] exactly when [removeFromCache] is true and the path
    is not the empty string, leaving every other entry alone.  After
    [dispose(true)] on a non-empty path the cached load of a fresh player
    on that path misses and fetches again. *)
Theorem dispose_tears_down (removeFromCache : bool) (p : Player) (e : Env)
    (opts : Options) :
  let p' := (dispose removeFromCache p e).1 in
  let e' := (dispose removeFromCache p e).2 in
  let removes := removeFromCache && bool_decide (sourcePath p ≠ EmptyString) in
  (sources p' = sources (stop p e).1 ∧
   _offset p' = _offset (stop p e).1 ∧
   _endedPromiseResolver p' = _endedPromiseResolver (stop p e).1 ∧
   nodes e' = nodes (stop p e).2 ∧
   resolved e' = resolved (stop p e).2) ∧
  (_loop p' = false ∧ _playbackRate p' = Num 1 ∧ _offset p' = Num 0) ∧
  (buffer p' = None ∧ pannerConnected p' = false ∧ gainConnected p' = false) ∧
  streamCache e' =
    (if removes then delete (sourcePath p) (streamCache e) else streamCache e) ∧
  (streamCache e' !! sourcePath p =
     if removes then None else streamCache e !! sourcePath p) ∧
  (removes = true ->
   opt_useCache opts ≠ Some false ->
   fetchLog (loadAudio (constructor (sourcePath p) opts) e').1.2
     = fetchLog e ++ [sourcePath p]).
Proof.
  intros p' e' removes. subst p' e' removes. unfold dispose, stop.
  rewrite (surjective_pairing (stopAllSources p e)).
  rewrite stopAllSources_player.
  pose proof (stopAllSources_env p e) as (Hnodes & Hnext & Hcache & Hnet & Hlog & Hprom & Hres).
  cbn zeta in *. set (e1 := (stopAllSources p e).2) in *.
  cbn [sourcePath with_graph with_resolver with_sources].
  rewrite truthy_spec.
  set (removes := removeFromCache && bool_decide (sourcePath p ≠ EmptyString)).
  cbn [fst snd sources _offset _endedPromiseResolver _loop _playbackRate buffer
       pannerConnected gainConnected
       with_graph with_resolver with_sources with_offset with_playbackRate
       with_loop with_buffer].
  split; [destruct removes; repeat split; reflexivity|].
  split; [done|]. split; [done|].
  assert (Hc : streamCache (if removes
                            then set_streamCache (delete (sourcePath p)) e1
                            else e1)
               = if removes then delete (sourcePath p) (streamCache e)
                 else streamCache e).
  { destruct removes; cbn; by rewrite Hcache. }
  split; [exact Hc|]. split.
  - rewrite Hc. destruct removes; [apply lookup_delete_eq | done].
  - intros Hrem Huse. rewrite Hrem. unfold loadAudio.
    assert (Hu : _useCache (constructor (sourcePath p) opts) = true).
    { unfold constructor. destruct opts as [[[|]|] [v|]]; cbn in *; congruence. }
    assert (Hs : sourcePath (constructor (sourcePath p) opts) = sourcePath p).
    { unfold constructor. destruct (opt_maxPolyphony opts); reflexivity. }
    rewrite Hu, Hs. unfold loadAudioWithCaching.
    cbn [streamCache set_streamCache]. rewrite lookup_delete_eq.
    cbn. destruct (network e1 (sourcePath p)); cbn; by rewrite Hlog.
Qed.

Lemma dispose_tears_down_witness :
  streamCache (run [OpLoadAudio; OpDispose true]
                 (constructor "a" defaults, online)).2 !! "a" = None ∧
  fetchLog (loadAudio (constructor "a" defaults)
              (run [OpLoadAudio; OpDispose true]
                 (constructor "a" defaults, online)).2).1.2 = ["a"; "a"].
Proof.
  pose (w := run [OpLoadAudio] (constructor "a" defaults, online)).
  destruct (dispose_tears_down true w.1 w.2 defaults)
    as (_ & _ & _ & _ & H & Hfetch).
  split; [exact H|].
  apply Hfetch; [reflexivity | discriminate].
Defined.

(** The claim C9 as written fails for the empty path, which line 164
    guards against: a player on the path [""] loads through the cache and
    is disposed with [removeFromCache = true], and the entry stays. *)
Lemma dispose_keeps_empty_path :
  streamCache (run [OpLoadAudio] (constructor "" defaults, online)).2 !! ""
    = Some demoBuffer ∧
  streamCache (run [OpLoadAudio; OpDispose true]
                 (constructor "" defaults, online)).2 !! ""
    = Some demoBuffer.
Proof. split; reflexivity. Qed.

(** ** The completion waiter *)

Lemma loadAudio_frame p e :
  let p' := (loadAudio p e).1.1 in
  let e' := (loadAudio p e).1.2 in
  sources p' = sources p ∧ _endedPromiseResolver p' = _endedPromiseResolver p ∧
  _loop p' = _loop p ∧ _maxPolyphony p' = _maxPolyphony p ∧
  nodes e' = nodes e ∧ next_node e' = next_node e ∧
  resolved e' = resolved e ∧ next_promise e' = next_promise e ∧
  match (loadAudio p e).2 with
  | Fulfilled => is_Some (buffer p')
  | Rejected _ => p' = p
  end.
Proof.
  unfold loadAudio, loadAudioWithCaching, loadAudioBuffer.
  destruct (_useCache p); [destruct (streamCache e !! sourcePath p)|];
    cbn; try destruct (network e (sourcePath p)); cbn; repeat split; eauto.
Qed.

Lemma onended_last (s : nat) (l : list nat) :
  l ≠ [] ->
  match list_find (fun x => x = s) l with
  | Some (index, _) => delete index l
  | None => l
  end = [] <-> l = [s].
Proof.
  intros Hne. destruct l as [|x [|y rest]]; [done| |].
  - cbn. destruct (decide (x = s)) as [->|Hx]; cbn; [done|].
    split; [done | congruence].
  - split; [|discriminate].
    destruct (list_find _ _) as [[[|i] ?]|]; cbn; discriminate.
Qed.

Lemma onended_eq s p e :
  onended s p e =
  let p1 :=
    match list_find (fun x => x = s) (sources p) with
    | Some (index, _) => with_sources (delete index (sources p)) p
    | None => p
    end in
  match sources p1, _endedPromiseResolver p with
  | [], Some r => (with_resolver None p1, resolve r e)
  | _, _ => (p1, e)
  end.
Proof.
  unfold onended. destruct (list_find _ _) as [[i ?]|]; reflexivity.
Qed.

(** A waiter is only ever pending over active voices: [waiter_has_voices]
    holds in every state a player can reach. *)
Lemma exec_waiter_has_voices op p e :
  waiter_has_voices p -> waiter_has_voices (exec op (p, e)).1.
Proof.
  assert (Hbody : forall b p0 e0, waiter_has_voices (play_body b p0 e0).1).
  { intros b p0 e0. unfold waiter_has_voices.
    pose proof (play_body_player b p0 e0) as (_ & _ & _ & _ & Hres & _).
    cbn zeta in Hres. rewrite Hres, play_body_sources.
    destruct (_loop p0); [by left|]. right.
    intros Heq. by apply app_nil in Heq as [_ ?]. }
  assert (Hresume : forall p0 e0,
            waiter_has_voices p0 -> waiter_has_voices (play_resume p0 e0).1).
  { intros p0 e0 H0. unfold play_resume. destruct (buffer p0); [apply Hbody | done]. }
  intros Hinv. destruct op; cbn [exec].
  - pose proof (loadAudio_frame p e) as (Hsrc & Hres & _). cbn zeta in *.
    unfold waiter_has_voices. by rewrite Hsrc, Hres.
  - unfold play. destruct (buffer p) eqn:Hbuf; cbn [fst]; [by apply Hresume|].
    pose proof (loadAudio_frame p e) as (Hsrc & Hres & _). cbn zeta in *.
    assert (waiter_has_voices (loadAudio p e).1.1) as Hinv1
      by (unfold waiter_has_voices; by rewrite Hsrc, Hres).
    destruct (loadAudio p e) as [[p1 e1] [|err]]; cbn [fst snd] in *; [|done].
    by apply Hresume.
  - unfold stop. rewrite (surjective_pairing (stopAllSources p e)).
    rewrite stopAllSources_player. by left.
  - unfold seek. destruct (buffer p) as [b|] eqn:Hbuf; [|done].
    cbn [sources with_offset].
    destruct (sources p) as [|s0 rest] eqn:Hsrc.
    + destruct Hinv as [Hnone|Hvoices]; [by left | done].
    + rewrite (surjective_pairing (stopAllSources _ e)), stopAllSources_player.
      rewrite (play_loaded b) by exact Hbuf. apply Hbody.
  - unfold whenAllEnded. destruct (sources p) eqn:Hsrc; cbn; [done|].
    right. cbn. by rewrite Hsrc.
  - unfold dispose. rewrite (surjective_pairing (stopAllSources p e)).
    rewrite stopAllSources_player. by left.
  - rewrite set_loop_eq. exact Hinv.
  - rewrite set_playbackRate_eq. exact Hinv.
  - exact Hinv.
  - unfold dispatch_ended.
    destruct (nodes e !! source) as [n|]; [destruct (node_onended n)|]; try done.
    rewrite onended_eq. cbn zeta.
    set (p1 := match list_find (fun x => x = source) (sources p) with
               | Some (index, _) => with_sources (delete index (sources p)) p
               | None => p
               end).
    assert (Hres1 : _endedPromiseResolver p1 = _endedPromiseResolver p)
      by (subst p1; destruct (list_find _ _) as [[i ?]|]; reflexivity).
    unfold waiter_has_voices.
    destruct (sources p1) eqn:Hsrc1, (_endedPromiseResolver p) eqn:Hres;
      cbn [fst]; rewrite ?Hsrc1, ?Hres1; auto.
  - unfold load_settled. destruct r; done.
  - by apply Hresume.
  - exact Hinv.
Qed.

(** What resolves a pending waiter.  [whenAllEnded()] with no active
    voice returns a promise that is already resolved and registers
    nothing; otherwise it registers the new promise as the pending waiter,
    unresolved.  While a waiter [r] is pending over a non-empty [sources],
    an event resolves it exactly when [wakes_waiter] says so -- [stop],
    [dispose], the [ended] event of the last voice, but also [seek] on a
    loaded player and [play] in loop mode -- and then clears the slot; any
    other event leaves the log of resolutions alone. *)
Theorem waiter_resolved_by (p : Player) (e : Env) :
  match sources p with
  | [] =>
      (whenAllEnded p e).1.1 = p ∧
      resolved (whenAllEnded p e).1.2 = resolved e ++ [(whenAllEnded p e).2]
  | _ :: _ =>
      _endedPromiseResolver (whenAllEnded p e).1.1 = Some (whenAllEnded p e).2 ∧
      (whenAllEnded p e).2 = next_promise e ∧
      resolved (whenAllEnded p e).1.2 = resolved e
  end ∧
  ∀ (op : Op) (r : nat),
    _endedPromiseResolver p = Some r -> sources p ≠ [] ->
    resolved (exec op (p, e)).2
      = resolved e ++ (if wakes_waiter op p e then [r] else []) ∧
    _endedPromiseResolver (exec op (p, e)).1 = waiter_after op p e r.
Proof.
  split.
  { unfold whenAllEnded. destruct (sources p); cbn; done. }
  intros op r Hr Hne. unfold waiter_after.
  destruct op; cbn [exec wakes_waiter].
  - (* loadAudio *)
    pose proof (loadAudio_frame p e) as (_ & Hres & _ & _ & _ & _ & Hlog & _).
    cbn zeta in *. rewrite Hlog, Hres, app_nil_r. done.
  - (* play *)
    unfold play.
    destruct (buffer p) as [b|] eqn:Hbuf.
    + cbn [fst]. unfold play_resume. rewrite Hbuf.
      pose proof (play_body_env b p e) as (_ & _ & _ & _ & _ & Hlog).
      pose proof (play_body_player b p e) as (_ & _ & _ & _ & Hres & _).
      cbn zeta in *. rewrite Hlog, Hres, Hr.
      destruct (_loop p); cbn; done.
    + pose proof (loadAudio_frame p e)
        as (Hsrc & Hres & Hloop & _ & _ & _ & Hlog & _ & Hset).
      cbn zeta in *.
      destruct (loadAudio p e) as [[p1 e1] [|err]]; cbn [fst snd] in *.
      * destruct Hset as [b Hb]. unfold play_resume. rewrite Hb.
        pose proof (play_body_env b p1 e1) as (_ & _ & _ & _ & _ & Hlog').
        pose proof (play_body_player b p1 e1) as (_ & _ & _ & _ & Hres' & _).
        cbn zeta in *. rewrite Hlog', Hres', Hlog, Hres, Hloop, Hr.
        destruct (_loop p); cbn; done.
      * subst p1. rewrite Hlog, Hr, andb_false_r, app_nil_r. done.
  - (* stop *)
    unfold stop. rewrite (surjective_pairing (stopAllSources p e)).
    rewrite stopAllSources_player.
    pose proof (stopAllSources_env p e) as (_ & _ & _ & _ & _ & _ & Hlog).
    cbn zeta in Hlog. cbn [fst snd]. rewrite Hlog, Hr. done.
  - (* seek *)
    unfold seek. destruct (buffer p) as [b|] eqn:Hbuf; cbn [sources with_offset].
    2:{ rewrite app_nil_r. done. }
    destruct (sources p) as [|s0 rest] eqn:Hsrc; [done|].
    set (p1 := with_offset _ p).
    rewrite (surjective_pairing (stopAllSources p1 e)), stopAllSources_player.
    pose proof (stopAllSources_env p1 e) as (_ & _ & _ & _ & _ & _ & Hlog).
    cbn zeta in Hlog. set (e2 := (stopAllSources p1 e).2) in *.
    rewrite (play_loaded b) by exact Hbuf. cbn [fst].
    pose proof (play_body_env b (with_resolver None (with_sources [] p1)) e2)
      as (_ & _ & _ & _ & _ & Hlog').
    pose proof (play_body_player b (with_resolver None (with_sources [] p1)) e2)
      as (_ & _ & _ & _ & Hres' & _).
    cbn zeta in *. rewrite Hlog', Hres', Hlog.
    cbn [_endedPromiseResolver _loop with_resolver with_sources with_offset p1].
    rewrite Hr. destruct (_loop p); cbn; rewrite app_nil_r; done.
  - (* whenAllEnded *)
    unfold whenAllEnded. destruct (sources p); cbn; [done|].
    rewrite app_nil_r. done.
  - (* dispose *)
    unfold dispose. rewrite (surjective_pairing (stopAllSources p e)).
    pose proof (stopAllSources_env p e) as (_ & _ & _ & _ & _ & _ & Hlog).
    cbn zeta in Hlog. rewrite Hr in Hlog. split; [|reflexivity].
    destruct (removeFromCache && _); cbn; exact Hlog.
  - (* loop setter *)
    rewrite set_loop_eq. cbn. rewrite app_nil_r. done.
  - (* playbackRate setter *)
    rewrite set_playbackRate_eq. cbn. rewrite app_nil_r. done.
  - (* maxPolyphony setter *)
    cbn. rewrite app_nil_r. done.
  - (* ended *)
    unfold dispatch_ended.
    destruct (nodes e !! source) as [n|]; [destruct (node_onended n)|];
      cbn [andb]; rewrite ?app_nil_r; try done.
    rewrite onended_eq. cbn zeta.
    pose proof (onended_last source (sources p) Hne) as Hlast.
    destruct (decide (sources p = [source])) as [Heq|Hneq].
    + rewrite bool_decide_eq_true_2 by done.
      rewrite Heq. cbn. rewrite decide_True by done. cbn. rewrite Hr. done.
    + rewrite bool_decide_eq_false_2 by done.
      destruct (list_find _ _) as [[i ?]|]; cbn [sources with_sources] in *.
      * destruct (delete i (sources p)) eqn:Hdel; [tauto|].
        cbn. rewrite app_nil_r. done.
      * destruct (sources p); [done|]. cbn. rewrite app_nil_r. done.
  - (* a load settles *)
    unfold load_settled. destruct r0; [destruct (_useCache p)|];
      cbn; rewrite app_nil_r; done.
  - (* play resumes *)
    unfold play_resume. destruct (buffer p) as [b|] eqn:Hbuf.
    + rewrite bool_decide_eq_true_2 by eauto.
      pose proof (play_body_env b p e) as (_ & _ & _ & _ & _ & Hlog).
      pose proof (play_body_player b p e) as (_ & _ & _ & _ & Hres & _).
      cbn zeta in *. rewrite Hlog, Hres, Hr.
      destruct (_loop p); cbn; done.
    + rewrite bool_decide_eq_false_2 by (intros [? ?]; done).
      rewrite andb_false_r, app_nil_r. done.
  - (* the network changes *)
    cbn. rewrite app_nil_r. done.
Qed.

Lemma waiter_resolved_by_witness :
  _endedPromiseResolver awaited.1 = Some 0%nat ∧
  resolved (exec OpStop (awaited.1, awaited.2)).2 = [0%nat] ∧
  resolved (exec (OpSetLoop true) (awaited.1, awaited.2)).2 = [].
Proof.
  destruct (waiter_resolved_by awaited.1 awaited.2) as (_ & H).
  split; [reflexivity|]. split.
  - destruct (H OpStop 0%nat) as (Hlog & _); [reflexivity | discriminate |].
    exact Hlog.
  - destruct (H (OpSetLoop true) 0%nat) as (Hlog & _);
      [reflexivity | discriminate |].
    exact Hlog.
Defined.

(** C3.  The code breaks the claim on [seek].  With one voice playing
    under a ceiling of 1 and a waiter pending, [seek(1)] resolves the
    waiter although the voice set never becomes empty for the caller: a
    voice is active again when [seek] returns.  [seek] restarts playback
    through [stopAllSources], which resolves the waiter as [stop()] does,
    where the documentation of [whenAllEnded] (lines 141-142) promises a
    resolution "when all audio instances have ended naturally".  The
    sibling path that replaces a playing voice, the eviction of lines
    81-88, does what the claim says: [play()] at the ceiling stops the
    old voice, starts the new one and leaves the waiter pending. *)
Lemma seek_resolves_waiter :
  _endedPromiseResolver awaited.1 = Some 0%nat ∧
  resolved awaited.2 = [] ∧
  resolved (exec (OpSeek (Num 1)) awaited).2 = [0%nat] ∧
  length (sources (exec (OpSeek (Num 1)) awaited).1) = 1%nat ∧
  sources (exec OpPlay awaited).1 = [1%nat] ∧
  resolved (exec OpPlay awaited).2 = [] ∧
  _endedPromiseResolver (exec OpPlay awaited).1 = Some 0%nat.
Proof. repeat split. Qed.

(** ** The polyphony ceiling as an invariant *)

Lemma whole_ceiling_Some v z :
  whole_ceiling v = Some z -> v = Num (inject_Z z) ∧ (1 <= z)%Z.
Proof.
  destruct v as [| |[n d]]; try discriminate.
  unfold whole_ceiling, Qden, Qnum.
  destruct (Pos.eqb_spec d 1) as [->|]; destruct (Z.leb_spec 1 n);
    cbn [andb]; try discriminate.
  intros [= <-]. done.
Qed.

Lemma ceiling_ok_within p : ceiling_ok p -> within_ceiling p = true.
Proof.
  intros (z & _ & Hz & Hlen). unfold within_ceiling, js_length, js_ge.
  rewrite Hz. unfold Qle_bool; cbn. apply Z.leb_le. lia.
Qed.

Lemma ceiling_ok_shrink p p' :
  (length (sources p') <= length (sources p))%nat ->
  _maxPolyphony p' = _maxPolyphony p ->
  ceiling_ok p -> ceiling_ok p'.
Proof.
  intros Hlen Hmax (z & Hz & Hp & Hle). exists z. rewrite Hmax.
  repeat split; try done. lia.
Qed.

Lemma play_body_ceiling b p e : ceiling_ok p -> ceiling_ok (play_body b p e).1.
Proof.
  intros (z & Hz & Hp & Hle). exists z.
  pose proof (play_body_player b p e) as (_ & _ & Hmax & _). cbn zeta in Hmax.
  rewrite Hmax, play_body_sources. repeat split; try done.
  destruct (_loop p); [cbn [length]; lia|].
  rewrite (at_ceiling_int p z Hp), length_app. cbn [length].
  destruct (Z.leb_spec z (Z.of_nat (length (sources p)))).
  - destruct (sources p); cbn in *; lia.
  - lia.
Qed.

Lemma play_resume_ceiling p e : ceiling_ok p -> ceiling_ok (play_resume p e).1.
Proof.
  unfold play_resume. destruct (buffer p); [apply play_body_ceiling | done].
Qed.

Lemma length_delete_le {A} (l : list A) i : (length (delete i l) <= length l)%nat.
Proof.
  apply sublist_length, sublist_delete.
Qed.

(** Every event that keeps the ceiling keeps the invariant. *)
Lemma exec_ceiling op p e :
  ceiling_ok p -> keeps_ceiling op p = true -> ceiling_ok (exec op (p, e)).1.
Proof.
  intros Hok Hadm. destruct op; cbn [exec].
  - pose proof (loadAudio_frame p e) as (Hsrc & _ & _ & Hmax & _).
    cbn zeta in *. eapply ceiling_ok_shrink; [| |exact Hok]; [by rewrite Hsrc|done].
  - unfold play. destruct (buffer p) eqn:Hbuf; cbn [fst].
    + by apply play_resume_ceiling.
    + pose proof (loadAudio_frame p e) as (Hsrc & _ & _ & Hmax & _).
      cbn zeta in *.
      assert (ceiling_ok (loadAudio p e).1.1) as Hok1.
      { eapply ceiling_ok_shrink; [| |exact Hok]; [by rewrite Hsrc|done]. }
      destruct (loadAudio p e) as [[p1 e1] [|err]]; cbn [fst snd] in *; [|done].
      by apply play_resume_ceiling.
  - unfold stop. rewrite (surjective_pairing (stopAllSources p e)).
    rewrite stopAllSources_player.
    eapply ceiling_ok_shrink; [| |exact Hok]; cbn; [lia|done].
  - unfold seek. destruct (buffer p) as [b|] eqn:Hbuf; [|done].
    cbn [sources with_offset].
    destruct (sources p) as [|s0 rest] eqn:Hsrc.
    + eapply ceiling_ok_shrink; [| |exact Hok]; cbn; [by rewrite Hsrc|done].
    + rewrite (surjective_pairing (stopAllSources _ e)), stopAllSources_player.
      rewrite (play_loaded b) by exact Hbuf. cbn [fst].
      apply play_body_ceiling.
      eapply ceiling_ok_shrink; [| |exact Hok]; cbn; [lia|done].
  - unfold whenAllEnded. destruct (sources p) eqn:Hsrc; cbn; [done|].
    eapply ceiling_ok_shrink; [| |exact Hok]; cbn; [by rewrite Hsrc|done].
  - unfold dispose. rewrite (surjective_pairing (stopAllSources p e)).
    rewrite stopAllSources_player. cbn [fst].
    eapply ceiling_ok_shrink; [| |exact Hok]; cbn; [lia|done].
  - rewrite set_loop_eq. eapply ceiling_ok_shrink; [| |exact Hok]; cbn; done.
  - rewrite set_playbackRate_eq.
    eapply ceiling_ok_shrink; [| |exact Hok]; cbn; done.
  - cbn in Hadm |- *. destruct (whole_ceiling value) as [z|] eqn:Hv; [|done].
    apply whole_ceiling_Some in Hv as [-> Hz]. exists z.
    repeat split; try done. cbn. by apply Z.leb_le.
  - unfold dispatch_ended.
    destruct (nodes e !! source) as [n|]; [destruct (node_onended n)|]; try done.
    rewrite onended_eq. cbn zeta.
    set (p1 := match list_find (fun x => x = source) (sources p) with
               | Some (index, _) => with_sources (delete index (sources p)) p
               | None => p
               end).
    assert (Hok1 : ceiling_ok p1).
    { subst p1. destruct (list_find _ _) as [[i ?]|]; [|done].
      eapply ceiling_ok_shrink; [| |exact Hok]; cbn; [|done].
      apply length_delete_le. }
    destruct (sources p1) eqn:Hsrc1, (_endedPromiseResolver p);
      cbn [fst]; try done.
  - unfold load_settled. destruct r; [|done].
    eapply ceiling_ok_shrink; [| |exact Hok]; cbn; done.
  - by apply play_resume_ceiling.
  - done.
Qed.

Lemma run_ceiling ops w :
  ceiling_ok w.1 -> ceiling_kept ops w = true -> ceiling_ok (run ops w).1.
Proof.
  revert w. induction ops as [|op ops IH]; intros [p e] Hok Hadm; [done|].
  cbn in Hadm. apply andb_true_iff in Hadm as [Hop Hrest].
  unfold run. cbn [foldl]. apply IH; [|done].
  by apply exec_ceiling.
Qed.

Lemma constructor_ceiling path opts :
  valid_options opts = true -> ceiling_ok (constructor path opts).
Proof.
  unfold valid_options, constructor.
  destruct (opt_maxPolyphony opts) as [v|]; intros Hv.
  - apply bool_decide_eq_true_1 in Hv as [z Hz].
    apply whole_ceiling_Some in Hz as [-> Hz]. exists z. cbn. repeat split; lia.
  - exists 1%Z. cbn. repeat split; lia.
Qed.

(** C5, as the code has it.  From a freshly constructed player whose
    ceiling is a whole number >= 1, along any sequence of events (method
    calls, setter assignments, [ended] notifications anywhere, loads
    settling and [play] resuming at any point) in which no assignment to
    [maxPolyphony] sets a value below the number of voices then active,
    [sources.length <= maxPolyphony] holds in the state reached. *)
Theorem ceiling_invariant (path : string) (opts : Options) (e : Env)
    (ops : list Op) :
  valid_options opts = true ->
  ceiling_kept ops (constructor path opts, e) = true ->
  within_ceiling (run ops (constructor path opts, e)).1 = true.
Proof.
  intros Hopts Hops. apply ceiling_ok_within, run_ceiling; [|done].
  by apply constructor_ceiling.
Qed.

Lemma ceiling_invariant_witness :
  within_ceiling
    (run [OpLoadAudio; OpPlay; OpPlay; OpPlay; OpSetMaxPolyphony (Num 3);
          OpEnded 1%nat; OpSetLoop true; OpPlay]
       (constructor "a" (upTo 2), online)).1 = true.
Proof.
  apply (ceiling_invariant "a" (upTo 2) online); reflexivity.
Defined.

(** The claim C5 as written fails on the [maxPolyphony] setter, which only
    stores its argument: with a ceiling of 2 and two voices active the
    inequality holds, and assigning [maxPolyphony = 1] leaves two active
    voices under a ceiling of 1. *)
Lemma lowering_ceiling_breaks_invariant :
  valid_options (upTo 2) = true ∧
  within_ceiling
    (run [OpLoadAudio; OpPlay; OpPlay] (constructor "a" (upTo 2), online)).1
    = true ∧
  length (sources
    (run [OpLoadAudio; OpPlay; OpPlay; OpSetMaxPolyphony (Num 1)]
       (constructor "a" (upTo 2), online)).1) = 2%nat ∧
  _maxPolyphony
    (run [OpLoadAudio; OpPlay; OpPlay; OpSetMaxPolyphony (Num 1)]
       (constructor "a" (upTo 2), online)).1 = Num 1 ∧
  within_ceiling
    (run [OpLoadAudio; OpPlay; OpPlay; OpSetMaxPolyphony (Num 1)]
       (constructor "a" (upTo 2), online)).1 = false.
Proof. repeat split. Qed.

(** ** References stay allocated *)

Lemma refs_allocated_sub p e p' e' :
  sources p' ⊆ sources p -> (next_node e <= next_node e')%nat ->
  refs_allocated p e -> refs_allocated p' e'.
Proof.
  unfold refs_allocated. rewrite !Forall_forall. intros Hsub Hnext Hwf i Hi.
  apply Hsub, Hwf in Hi. lia.
Qed.

Lemma play_body_refs b p e :
  refs_allocated p e -> refs_allocated (play_body b p e).1 (play_body b p e).2.
Proof.
  intros Hwf. unfold refs_allocated in *.
  pose proof (play_body_env b p e) as (Hnext & _). cbn zeta in Hnext.
  rewrite Hnext, play_body_sources. rewrite Forall_forall in Hwf.
  apply Forall_forall. intros i Hi.
  assert (i = next_node e ∨ i ∈ sources p) as [->|Hin]; [|lia|].
  - destruct (_loop p).
    + apply list_elem_of_singleton in Hi. tauto.
    + apply elem_of_app in Hi as [Hi|Hi].
      * right. destruct (at_ceiling p); [|done].
        destruct (sources p); [done|]. apply elem_of_cons. tauto.
      * apply list_elem_of_singleton in Hi. tauto.
  - apply Hwf in Hin. lia.
Qed.

Lemma play_resume_refs p e :
  refs_allocated p e -> refs_allocated (play_resume p e).1 (play_resume p e).2.
Proof.
  unfold play_resume. destruct (buffer p); [apply play_body_refs | done].
Qed.

(** No event puts into [sources] a reference the store has not handed out:
    [refs_allocated] holds in every state a player can reach. *)
Lemma exec_refs_allocated op p e :
  refs_allocated p e -> refs_allocated (exec op (p, e)).1 (exec op (p, e)).2.
Proof.
  intros Hwf. destruct op; cbn [exec].
  - pose proof (loadAudio_frame p e) as (Hsrc & _ & _ & _ & _ & Hnext & _).
    cbn zeta in *. eapply refs_allocated_sub; [| |exact Hwf]; [by rewrite Hsrc|lia].
  - unfold play. destruct (buffer p) eqn:Hbuf; cbn [fst].
    + by apply play_resume_refs.
    + pose proof (loadAudio_frame p e) as (Hsrc & _ & _ & _ & _ & Hnext & _).
      cbn zeta in *.
      assert (refs_allocated (loadAudio p e).1.1 (loadAudio p e).1.2) as Hwf1.
      { eapply refs_allocated_sub; [| |exact Hwf]; [by rewrite Hsrc|lia]. }
      destruct (loadAudio p e) as [[p1 e1] [|err]]; cbn [fst snd] in *; [|done].
      by apply play_resume_refs.
  - unfold stop. rewrite (surjective_pairing (stopAllSources p e)).
    rewrite stopAllSources_player. constructor.
  - unfold seek. destruct (buffer p) as [b|] eqn:Hbuf; [|done].
    cbn [sources with_offset].
    destruct (sources p) as [|s0 rest] eqn:Hsrc.
    + unfold refs_allocated. cbn. rewrite Hsrc. constructor.
    + rewrite (surjective_pairing (stopAllSources _ e)), stopAllSources_player.
      rewrite (play_loaded b) by exact Hbuf. cbn [fst].
      apply play_body_refs. constructor.
  - unfold whenAllEnded. destruct (sources p) eqn:Hsrc; cbn.
    + unfold refs_allocated. rewrite Hsrc. constructor.
    + exact Hwf.
  - unfold dispose. rewrite (surjective_pairing (stopAllSources p e)).
    rewrite stopAllSources_player. constructor.
  - rewrite set_loop_eq. exact Hwf.
  - rewrite set_playbackRate_eq. exact Hwf.
  - exact Hwf.
  - unfold dispatch_ended.
    destruct (nodes e !! source) as [n|]; [destruct (node_onended n)|]; try done.
    rewrite onended_eq. cbn zeta.
    set (p1 := match list_find (fun x => x = source) (sources p) with
               | Some (index, _) => with_sources (delete index (sources p)) p
               | None => p
               end).
    assert (Hwf1 : refs_allocated p1 e).
    { subst p1. destruct (list_find _ _) as [[i ?]|]; [|done].
      eapply refs_allocated_sub; [| |exact Hwf]; cbn; [|lia].
      apply sublist_subseteq, sublist_delete. }
    destruct (sources p1) eqn:Hsrc1, (_endedPromiseResolver p);
      cbn [fst snd]; done.
  - unfold load_settled. destruct r; [destruct (_useCache p)|]; exact Hwf.
  - by apply play_resume_refs.
  - exact Hwf.
Qed.

(** ** The two versions *)















(** * Further properties *)

(** ** Promises *)

Lemma promise_step_frame p e p1 e1 p' e' :
  resolved e1 = resolved e -> next_promise e1 = next_promise e ->
  _endedPromiseResolver p1 = _endedPromiseResolver p ->
  promise_step p1 e1 p' e' -> promise_step p e p' e'.
Proof.
  intros Hres Hnext Hslot. unfold promise_step. rewrite Hres, Hnext, Hslot. done.
Qed.

Lemma play_body_promise_step b p e :
  promise_step p e (play_body b p e).1 (play_body b p e).2.
Proof.
  pose proof (play_body_env b p e) as (_ & _ & _ & _ & Hnext & Hlog).
  pose proof (play_body_player b p e) as (_ & _ & _ & _ & Hslot & _).
  cbn zeta in *. unfold promise_step. rewrite Hnext, Hlog, Hslot.
  destruct (_loop p); [destruct (_endedPromiseResolver p) as [r|]|]; cbn.
  - right. left. exists r. done.
  - left. by rewrite app_nil_r.
  - left. by rewrite app_nil_r.
Qed.

Lemma play_resume_promise_step p e :
  promise_step p e (play_resume p e).1 (play_resume p e).2.
Proof.
  unfold play_resume. destruct (buffer p); [apply play_body_promise_step|].
  left. done.
Qed.

Lemma stopAllSources_promise_step p e :
  promise_step p e (stopAllSources p e).1 (stopAllSources p e).2.
Proof.
  rewrite stopAllSources_player.
  pose proof (stopAllSources_env p e) as (_ & _ & _ & _ & _ & Hnext & Hlog).
  cbn zeta in *. unfold promise_step. rewrite Hnext, Hlog.
  destruct (_endedPromiseResolver p) as [r|] eqn:Hslot; cbn.
  - right. left. exists r. done.
  - left. by rewrite app_nil_r.
Qed.

(** Every event is one of the four promise steps: in particular the slot
    of a pending waiter is never cleared without resolving the waiter. *)
Lemma exec_promise_step op p e :
  promise_step p e (exec op (p, e)).1 (exec op (p, e)).2.
Proof.
  destruct op; cbn [exec].
  - pose proof (loadAudio_frame p e)
      as (_ & Hslot & _ & _ & _ & _ & Hlog & Hnext & _).
    cbn zeta in *. left. done.
  - unfold play. destruct (buffer p) eqn:Hbuf; cbn [fst].
    + apply play_resume_promise_step.
    + pose proof (loadAudio_frame p e)
        as (_ & Hslot & _ & _ & _ & _ & Hlog & Hnext & _).
      cbn zeta in *.
      destruct (loadAudio p e) as [[p1 e1] [|err]]; cbn [fst snd] in *.
      * eapply promise_step_frame; [done..|]. apply play_resume_promise_step.
      * left. done.
  - unfold stop. rewrite (surjective_pairing (stopAllSources p e)).
    cbn [fst snd]. apply stopAllSources_promise_step.
  - unfold seek. destruct (buffer p) as [b|] eqn:Hbuf; [|by left].
    cbn [sources with_offset].
    destruct (sources p) as [|s0 rest] eqn:Hsrc; [by left|].
    set (p1 := with_offset _ p).
    pose proof (stopAllSources_promise_step p1 e) as Hstop.
    rewrite (surjective_pairing (stopAllSources p1 e)).
    rewrite stopAllSources_player in *.
    set (e2 := (stopAllSources p1 e).2) in *.
    rewrite (play_loaded b) by exact Hbuf. cbn [fst].
    pose proof (play_body_env b (with_resolver None (with_sources [] p1)) e2)
      as (_ & _ & _ & _ & Hnext & Hlog).
    pose proof (play_body_player b (with_resolver None (with_sources [] p1)) e2)
      as (_ & _ & _ & _ & Hslot & _).
    cbn zeta in *.
    assert (Hlog' : resolved (play_body b (with_resolver None (with_sources [] p1)) e2).2
                    = resolved e2).
    { rewrite Hlog. cbn. destruct (_loop p); cbn; by rewrite app_nil_r. }
    assert (Hslot' : _endedPromiseResolver
                       (play_body b (with_resolver None (with_sources [] p1)) e2).1
                     = None).
    { rewrite Hslot. cbn. by destruct (_loop p). }
    unfold promise_step in *. rewrite Hlog', Hnext, Hslot'. exact Hstop.
  - unfold whenAllEnded. destruct (sources p); cbn.
    + right. right. left. done.
    + right. right. right. done.
  - unfold dispose.
    pose proof (stopAllSources_promise_step p e) as Hstop.
    rewrite (surjective_pairing (stopAllSources p e)).
    rewrite stopAllSources_player in *.
    destruct (removeFromCache && _); exact Hstop.
  - rewrite set_loop_eq. by left.
  - rewrite set_playbackRate_eq. by left.
  - by left.
  - unfold dispatch_ended.
    destruct (nodes e !! source) as [n|]; [destruct (node_onended n)|];
      try by left.
    rewrite onended_eq. cbn zeta.
    set (p1 := match list_find (fun x => x = source) (sources p) with
               | Some (index, _) => with_sources (delete index (sources p)) p
               | None => p
               end).
    assert (Hslot : _endedPromiseResolver p1 = _endedPromiseResolver p)
      by (subst p1; destruct (list_find _ _) as [[i ?]|]; reflexivity).
    destruct (sources p1), (_endedPromiseResolver p) as [r|] eqn:Hr;
      cbn [fst snd]; try (left; by rewrite ?Hslot, ?Hr).
    right. left. exists r. done.
  - unfold load_settled. destruct r; [destruct (_useCache p)|]; by left.
  - apply play_resume_promise_step.
  - by left.
Qed.

Lemma promise_step_ok p e p' e' :
  promise_step p e p' e' -> promises_ok p e -> promises_ok p' e'.
Proof.
  unfold promises_ok.
  intros [(Hlog & Hnext & Hslot)|[(r & Hr & Hslot & Hlog & Hnext)
         |[(Hlog & Hnext & Hslot)|(Hlog & Hnext & Hslot)]]] (Hnd & Hall & Hpend);
    rewrite Hlog, Hnext, Hslot.
  - done.
  - rewrite Hr in Hpend. destruct Hpend as [Hlt Hnew].
    split; [|split; [|done]].
    + apply NoDup_app. split; [done|]. split; [|apply NoDup_singleton].
      intros x Hx Hx'. apply list_elem_of_singleton in Hx'. by subst.
    + apply Forall_app. split; [done|]. by apply Forall_singleton.
  - split; [|split].
    + apply NoDup_app. split; [done|]. split; [|apply NoDup_singleton].
      intros x Hx Hx'. apply list_elem_of_singleton in Hx'. subst.
      rewrite Forall_forall in Hall. apply Hall in Hx. lia.
    + apply Forall_app. split.
      * eapply Forall_impl; [exact Hall|]. cbn. lia.
      * apply Forall_singleton. lia.
    + destruct (_endedPromiseResolver p) as [r|]; [|done].
      destruct Hpend as [Hlt Hnew]. split; [lia|].
      rewrite elem_of_app, list_elem_of_singleton. intros [?| ->]; [done|lia].
  - split; [done|]. split.
    + eapply Forall_impl; [exact Hall|]. cbn. lia.
    + split; [lia|]. intros Hin. rewrite Forall_forall in Hall.
      apply Hall in Hin. lia.
Qed.

Lemma promise_step_abandoned r p e p' e' :
  promise_step p e p' e' -> abandoned r p e -> abandoned r p' e'.
Proof.
  unfold abandoned.
  intros [(Hlog & Hnext & Hslot)|[(r0 & Hr & Hslot & Hlog & Hnext)
         |[(Hlog & Hnext & Hslot)|(Hlog & Hnext & Hslot)]]] (Hlt & Hnew & Hnot);
    rewrite Hlog, Hnext, Hslot.
  - done.
  - split; [done|]. split; [|done].
    rewrite elem_of_app, list_elem_of_singleton. intros [?| ->]; [done|].
    by rewrite Hr in Hnot.
  - split; [lia|]. split; [|done].
    rewrite elem_of_app, list_elem_of_singleton. intros [?| ->]; [done|lia].
  - split; [lia|]. split; [done|]. intros [= Heq]. lia.
Qed.

Lemma run_cons op ops w : run (op :: ops) w = run ops (exec op w).
Proof. reflexivity. Qed.

Lemma run_promises_ok ops w :
  promises_ok w.1 w.2 -> promises_ok (run ops w).1 (run ops w).2.
Proof.
  revert w. induction ops as [|op ops IH]; intros [p e] Hok; [done|].
  rewrite run_cons. apply IH. eapply promise_step_ok; [|exact Hok].
  apply exec_promise_step.
Qed.

Lemma run_abandoned r ops w :
  abandoned r w.1 w.2 -> abandoned r (run ops w).1 (run ops w).2.
Proof.
  revert w. induction ops as [|op ops IH]; intros [p e] Hok; [done|].
  rewrite run_cons. apply IH. eapply promise_step_abandoned; [|exact Hok].
  apply exec_promise_step.
Qed.

(** X1.  No promise handed out by [whenAllEnded] is resolved twice.  From a
    freshly constructed player on a page whose promise log is in order,
    after any sequence of events the log of resolutions has no duplicate,
    holds only promises that were handed out, and does not hold the
    pending waiter. *)
Theorem promises_resolved_at_most_once (path : string) (opts : Options)
    (e : Env) (ops : list Op) :
  NoDup (resolved e) ->
  Forall (fun r => (r < next_promise e)%nat) (resolved e) ->
  promises_ok (run ops (constructor path opts, e)).1
              (run ops (constructor path opts, e)).2.
Proof.
  intros Hnd Hall. apply run_promises_ok. cbn [fst snd].
  unfold promises_ok. repeat split; try done.
  unfold constructor. destruct (opt_maxPolyphony opts); done.
Qed.

Lemma promises_resolved_at_most_once_witness :
  NoDup (resolved
    (run [OpLoadAudio; OpPlay; OpWhenAllEnded; OpStop; OpWhenAllEnded; OpStop]
       (constructor "a" defaults, online)).2).
Proof.
  destruct (promises_resolved_at_most_once "a" defaults online
    [OpLoadAudio; OpPlay; OpWhenAllEnded; OpStop; OpWhenAllEnded; OpStop])
    as (H & _).
  - apply NoDup_nil_2.
  - apply Forall_nil_2.
  - exact H.
Defined.

(** X2.  A waiter replaced by a second [whenAllEnded()] is never resolved.
    With a voice active, two calls of [whenAllEnded()] in a row return two
    different promises, and whatever happens afterwards the first one is
    not resolved. *)
Theorem replaced_waiter_never_resolved (p : Player) (e : Env) (ops : list Op) :
  sources p ≠ [] ->
  promises_ok p e ->
  let first := whenAllEnded p e in
  let second := whenAllEnded first.1.1 first.1.2 in
  first.2 ≠ second.2 ∧
  _endedPromiseResolver second.1.1 = Some second.2 ∧
  first.2 ∉ resolved (run ops second.1).2.
Proof.
  intros Hsrc (Hnd & Hall & Hpend) first second.
  assert (Hfirst : first = (with_resolver (Some (next_promise e)) p,
                            (new_promise e).2, next_promise e)).
  { subst first. unfold whenAllEnded. cbn. destruct (sources p); done. }
  assert (Hsecond : second =
            (with_resolver (Some (S (next_promise e))) p,
             (new_promise (new_promise e).2).2, S (next_promise e))).
  { subst second. rewrite Hfirst. unfold whenAllEnded. cbn.
    destruct (sources p); done. }
  rewrite Hfirst, Hsecond. cbn [fst snd].
  split; [lia|]. split; [done|].
  assert (Hab : abandoned (next_promise e)
                  (with_resolver (Some (S (next_promise e))) p)
                  (new_promise (new_promise e).2).2).
  { unfold abandoned. cbn. split; [lia|]. split.
    - intros Hin. rewrite Forall_forall in Hall. apply Hall in Hin. lia.
    - intros [= Heq]. lia. }
  apply (run_abandoned _ ops (_, _)) in Hab. apply Hab.
Qed.

Lemma replaced_waiter_never_resolved_witness :
  (whenAllEnded onePlaying.1 onePlaying.2).2 = 0%nat ∧
  0%nat ∉ resolved
    (run [OpEnded 0%nat; OpPlay; OpStop]
       (whenAllEnded (whenAllEnded onePlaying.1 onePlaying.2).1.1
                     (whenAllEnded onePlaying.1 onePlaying.2).1.2).1).2.
Proof.
  split; [reflexivity|].
  pose proof (replaced_waiter_never_resolved onePlaying.1 onePlaying.2
                [OpEnded 0%nat; OpPlay; OpStop]) as H.
  cbn zeta in H. destruct H as (_ & _ & H).
  - discriminate.
  - unfold promises_ok. cbn.
    split; [apply NoDup_nil_2|]. split; [apply Forall_nil_2|done].
  - exact H.
Defined.

(** ** The active voice set *)

Lemma voices_ok_nil p e : sources p = [] -> voices_ok p e.
Proof.
  intros Hsrc. unfold voices_ok, refs_allocated. rewrite Hsrc.
  split; [constructor|]. split; [apply NoDup_nil_2 | constructor].
Qed.

Lemma voices_ok_sub p e p' e' :
  sources p' `sublist_of` sources p ->
  (next_node e <= next_node e')%nat ->
  (forall i n, i ∈ sources p' -> nodes e !! i = Some n -> playing n ->
               exists n', nodes e' !! i = Some n' ∧ playing n') ->
  voices_ok p e -> voices_ok p' e'.
Proof.
  intros Hsub Hnext Hnodes (Hrefs & Hnd & Hplay). split; [|split].
  - eapply refs_allocated_sub; [|exact Hnext|exact Hrefs].
    by apply sublist_subseteq.
  - eapply sublist_NoDup; done.
  - apply Forall_forall. intros i Hi.
    rewrite Forall_forall in Hplay.
    destruct (Hplay i) as (n & Hn & Hpl); [by eapply elem_of_sublist|].
    eauto.
Qed.

Lemma play_body_voices_ok b p e :
  voices_ok p e -> voices_ok (play_body b p e).1 (play_body b p e).2.
Proof.
  intros (Hrefs & Hnd & Hplay). split; [by apply play_body_refs|].
  assert (Hfresh : next_node e ∉ sources p).
  { intros Hin. unfold refs_allocated in Hrefs. rewrite Forall_forall in Hrefs.
    apply Hrefs in Hin. lia. }
  assert (Hvoice : playing (voice b p)) by (repeat split; eauto).
  rewrite play_body_sources. destruct (_loop p) eqn:Hloop.
  - split; [apply NoDup_singleton|]. apply Forall_singleton.
    rewrite play_body_nodes, decide_True by done. eauto.
  - set (kept := if at_ceiling p then tail (sources p) else sources p).
    assert (Hsub : kept `sublist_of` sources p).
    { subst kept. destruct (at_ceiling p); [|done].
      destruct (sources p); [done|]. by apply sublist_cons. }
    split.
    + apply NoDup_app. split; [by eapply sublist_NoDup|].
      split; [|apply NoDup_singleton].
      intros x Hx Hx'. apply list_elem_of_singleton in Hx'. subst x.
      apply Hfresh. by eapply elem_of_sublist.
    + apply Forall_app. split.
      * apply Forall_forall. intros i Hi.
        assert (Hin : i ∈ sources p) by (by eapply elem_of_sublist).
        rewrite play_body_nodes by done.
        rewrite decide_False by (intros ->; done).
        rewrite decide_False.
        { rewrite Forall_forall in Hplay. by apply Hplay. }
        unfold stopped_by_play. rewrite Hloop. subst kept.
        destruct (at_ceiling p); [|apply not_elem_of_nil].
        destruct (sources p) as [|x rest]; cbn in *; [apply not_elem_of_nil|].
        apply NoDup_cons in Hnd as [Hx _].
        rewrite list_elem_of_singleton. intros ->. done.
      * apply Forall_singleton.
        rewrite play_body_nodes, decide_True by done. eauto.
Qed.

Lemma play_resume_voices_ok p e :
  voices_ok p e -> voices_ok (play_resume p e).1 (play_resume p e).2.
Proof.
  unfold play_resume. destruct (buffer p); [apply play_body_voices_ok | done].
Qed.

Lemma playing_mark_loop v n : playing n -> playing (mark_loop v n).
Proof. done. Qed.

Lemma playing_mark_playbackRate v n : playing n -> playing (mark_playbackRate v n).
Proof. done. Qed.

(** Every event keeps the voice set in order. *)
Lemma exec_voices_ok op p e :
  voices_ok p e -> voices_ok (exec op (p, e)).1 (exec op (p, e)).2.
Proof.
  intros Hok. destruct op; cbn [exec].
  - pose proof (loadAudio_frame p e) as (Hsrc & _ & _ & _ & Hnodes & Hnext & _).
    cbn zeta in *. eapply voices_ok_sub; [| | |exact Hok].
    + by rewrite Hsrc.
    + lia.
    + intros i n _ Hn Hpl. rewrite Hnodes. eauto.
  - unfold play. destruct (buffer p) eqn:Hbuf; cbn [fst].
    + by apply play_resume_voices_ok.
    + pose proof (loadAudio_frame p e) as (Hsrc & _ & _ & _ & Hnodes & Hnext & _).
      cbn zeta in *.
      assert (voices_ok (loadAudio p e).1.1 (loadAudio p e).1.2) as Hok1.
      { eapply voices_ok_sub; [| | |exact Hok].
        - by rewrite Hsrc.
        - lia.
        - intros i n _ Hn Hpl. rewrite Hnodes. eauto. }
      destruct (loadAudio p e) as [[p1 e1] [|err]]; cbn [fst snd] in *; [|done].
      by apply play_resume_voices_ok.
  - unfold stop. rewrite (surjective_pairing (stopAllSources p e)).
    rewrite stopAllSources_player. by apply voices_ok_nil.
  - unfold seek. destruct (buffer p) as [b|] eqn:Hbuf; [|done].
    cbn [sources with_offset].
    destruct (sources p) as [|s0 rest] eqn:Hsrc.
    + by apply voices_ok_nil.
    + rewrite (surjective_pairing (stopAllSources _ e)), stopAllSources_player.
      rewrite (play_loaded b) by exact Hbuf. cbn [fst].
      apply play_body_voices_ok. by apply voices_ok_nil.
  - unfold whenAllEnded. destruct (sources p) eqn:Hsrc; cbn [fst].
    + by apply voices_ok_nil.
    + eapply voices_ok_sub; [| | |exact Hok]; cbn; [by rewrite Hsrc|lia|eauto].
  - unfold dispose. rewrite (surjective_pairing (stopAllSources p e)).
    rewrite stopAllSources_player. by apply voices_ok_nil.
  - rewrite set_loop_eq. eapply voices_ok_sub; [| | |exact Hok]; cbn; [done|lia|].
    intros i n Hi Hn Hpl. rewrite alter_all_lookup by done.
    rewrite decide_True, Hn by done. cbn. eauto using playing_mark_loop.
  - rewrite set_playbackRate_eq.
    eapply voices_ok_sub; [| | |exact Hok]; cbn; [done|lia|].
    intros i n Hi Hn Hpl. rewrite alter_all_lookup by done.
    rewrite decide_True, Hn by done. cbn. eauto using playing_mark_playbackRate.
  - exact Hok.
  - unfold dispatch_ended.
    destruct (nodes e !! source) as [n|]; [destruct (node_onended n)|]; try done.
    rewrite onended_eq. cbn zeta.
    set (p1 := match list_find (fun x => x = source) (sources p) with
               | Some (index, _) => with_sources (delete index (sources p)) p
               | None => p
               end).
    assert (Hok1 : voices_ok p1 e).
    { subst p1. destruct (list_find _ _) as [[i ?]|]; [|done].
      eapply voices_ok_sub; [| | |exact Hok]; cbn; [apply sublist_delete|lia|eauto]. }
    destruct (sources p1) eqn:Hsrc1, (_endedPromiseResolver p);
      cbn [fst snd]; done.
  - unfold load_settled. destruct r; [destruct (_useCache p)|]; exact Hok.
  - by apply play_resume_voices_ok.
  - exact Hok.
Qed.

Lemma run_voices_ok ops w :
  voices_ok w.1 w.2 -> voices_ok (run ops w).1 (run ops w).2.
Proof.
  revert w. induction ops as [|op ops IH]; intros [p e] Hok; [done|].
  rewrite run_cons. apply IH. by apply exec_voices_ok.
Qed.

Lemma constructor_sources path opts : sources (constructor path opts) = [].
Proof. unfold constructor. destruct (opt_maxPolyphony opts); reflexivity. Qed.

(** X3.  The active voice set never holds a node twice, and never a
    reference the store did not hand out, in any state reachable from a
    freshly constructed player. *)
Theorem sources_never_repeat (path : string) (opts : Options) (e : Env)
    (ops : list Op) :
  NoDup (sources (run ops (constructor path opts, e)).1) ∧
  refs_allocated (run ops (constructor path opts, e)).1
                 (run ops (constructor path opts, e)).2.
Proof.
  destruct (run_voices_ok ops (constructor path opts, e)) as (Hrefs & Hnd & _).
  - apply voices_ok_nil, constructor_sources.
  - done.
Qed.

(** ** Nodes over time *)

Lemma exec_sources_step op p e i :
  i ∈ sources (exec op (p, e)).1 ->
  i ∈ sources p ∨ (next_node e <= i)%nat.
Proof.
  assert (Hbody : forall b p0 e0, i ∈ sources (play_body b p0 e0).1 ->
                    i ∈ sources p0 ∨ (next_node e0 <= i)%nat).
  { intros b p0 e0. rewrite play_body_sources. destruct (_loop p0).
    - rewrite list_elem_of_singleton. intros ->. right. lia.
    - rewrite elem_of_app, list_elem_of_singleton. intros [Hi| ->]; [|right; lia].
      left. destruct (at_ceiling p0); [|done].
      destruct (sources p0); [done|]. apply elem_of_cons. by right. }
  assert (Hresume : forall p0 e0, i ∈ sources (play_resume p0 e0).1 ->
                      i ∈ sources p0 ∨ (next_node e0 <= i)%nat).
  { intros p0 e0. unfold play_resume. destruct (buffer p0); [apply Hbody|tauto]. }
  destruct op; cbn [exec].
  - pose proof (loadAudio_frame p e) as (Hsrc & _). cbn zeta in *.
    rewrite Hsrc. tauto.
  - unfold play. destruct (buffer p) eqn:Hbuf; cbn [fst]; [apply Hresume|].
    pose proof (loadAudio_frame p e) as (Hsrc & _ & _ & _ & _ & Hnext & _).
    cbn zeta in *.
    destruct (loadAudio p e) as [[p1 e1] [|err]]; cbn [fst snd] in *.
    + intros Hi. apply Hresume in Hi. rewrite Hsrc, Hnext in Hi. done.
    + rewrite Hsrc. tauto.
  - unfold stop. rewrite (surjective_pairing (stopAllSources p e)).
    rewrite stopAllSources_player. cbn. by rewrite elem_of_nil.
  - unfold seek. destruct (buffer p) as [b|] eqn:Hbuf; [|tauto].
    cbn [sources with_offset].
    destruct (sources p) as [|s0 rest] eqn:Hsrc.
    + cbn. rewrite Hsrc. tauto.
    + rewrite (surjective_pairing (stopAllSources _ e)), stopAllSources_player.
      rewrite (play_loaded b) by exact Hbuf. cbn [fst].
      pose proof (stopAllSources_env (with_offset (js_rem time (Num (duration b))) p) e)
        as (_ & Hnext & _). cbn zeta in Hnext.
      intros Hi. apply Hbody in Hi. rewrite Hnext in Hi. cbn in Hi.
      rewrite elem_of_nil in Hi. tauto.
  - unfold whenAllEnded. destruct (sources p) eqn:Hsrc; cbn; rewrite ?Hsrc; tauto.
  - unfold dispose. rewrite (surjective_pairing (stopAllSources p e)).
    rewrite stopAllSources_player. cbn. by rewrite elem_of_nil.
  - rewrite set_loop_eq. tauto.
  - rewrite set_playbackRate_eq. tauto.
  - tauto.
  - unfold dispatch_ended.
    destruct (nodes e !! source) as [n|]; [destruct (node_onended n)|]; try tauto.
    rewrite onended_eq. cbn zeta.
    set (p1 := match list_find (fun x => x = source) (sources p) with
               | Some (index, _) => with_sources (delete index (sources p)) p
               | None => p
               end).
    assert (Hsub : sources p1 ⊆ sources p).
    { subst p1. destruct (list_find _ _) as [[j ?]|]; [|done].
      apply sublist_subseteq, sublist_delete. }
    destruct (sources p1) eqn:Hsrc1, (_endedPromiseResolver p);
      cbn [fst snd sources with_resolver]; rewrite ?Hsrc1; intros Hi; left;
      by apply Hsub.
  - unfold load_settled. destruct r; tauto.
  - apply Hresume.
  - tauto.
Qed.

Lemma exec_next_node op p e :
  (next_node e <= next_node (exec op (p, e)).2)%nat.
Proof.
  assert (Hbody : forall b p0 e0, (next_node e0 <= next_node (play_body b p0 e0).2)%nat).
  { intros b p0 e0. pose proof (play_body_env b p0 e0) as (Hnext & _).
    cbn zeta in Hnext. lia. }
  assert (Hresume : forall p0 e0, (next_node e0 <= next_node (play_resume p0 e0).2)%nat).
  { intros p0 e0. unfold play_resume. destruct (buffer p0); [apply Hbody|done]. }
  destruct op; cbn [exec].
  - pose proof (loadAudio_frame p e) as (_ & _ & _ & _ & _ & Hnext & _).
    cbn zeta in *. lia.
  - unfold play. destruct (buffer p) eqn:Hbuf; cbn [fst]; [apply Hresume|].
    pose proof (loadAudio_frame p e) as (_ & _ & _ & _ & _ & Hnext & _).
    cbn zeta in *.
    destruct (loadAudio p e) as [[p1 e1] [|err]]; cbn [fst snd] in *; [|lia].
    specialize (Hresume p1 e1). lia.
  - unfold stop. rewrite (surjective_pairing (stopAllSources p e)).
    pose proof (stopAllSources_env p e) as (_ & Hnext & _). cbn zeta in *.
    cbn. lia.
  - unfold seek. destruct (buffer p) as [b|] eqn:Hbuf; [|done].
    cbn [sources with_offset].
    destruct (sources p) as [|s0 rest] eqn:Hsrc; [done|].
    rewrite (surjective_pairing (stopAllSources _ e)), stopAllSources_player.
    rewrite (play_loaded b) by exact Hbuf. cbn [fst].
    pose proof (stopAllSources_env (with_offset (js_rem time (Num (duration b))) p) e)
      as (_ & Hnext & _). cbn zeta in Hnext.
    etrans; [|apply Hbody]. lia.
  - unfold whenAllEnded. destruct (sources p); cbn; lia.
  - unfold dispose. rewrite (surjective_pairing (stopAllSources p e)).
    pose proof (stopAllSources_env p e) as (_ & Hnext & _). cbn zeta in *.
    destruct (removeFromCache && _); cbn; lia.
  - rewrite set_loop_eq. cbn. lia.
  - rewrite set_playbackRate_eq. cbn. lia.
  - cbn. lia.
  - unfold dispatch_ended.
    destruct (nodes e !! source) as [n|]; [destruct (node_onended n)|]; try done.
    rewrite onended_eq. cbn zeta.
    destruct (sources _), (_endedPromiseResolver p); cbn; lia.
  - unfold load_settled. destruct r; [destruct (_useCache p)|]; cbn; lia.
  - apply Hresume.
  - cbn. lia.
Qed.

(** X5.  A voice that has left the active voice set never returns to it.
    A reference the store has handed out and that is not in [sources]
    stays out of [sources] whatever happens next. *)
Theorem removed_voice_never_returns (i : nat) (ops : list Op) (w : Player * Env) :
  (i < next_node w.2)%nat ->
  i ∉ sources w.1 ->
  i ∉ sources (run ops w).1.
Proof.
  revert w. induction ops as [|op ops IH]; intros [p e] Hlt Hout; [done|].
  rewrite run_cons. cbn [fst snd] in *. apply IH.
  - pose proof (exec_next_node op p e). lia.
  - intros Hin. apply exec_sources_step in Hin as [Hin|Hge]; [done|lia].
Qed.

Lemma removed_voice_never_returns_witness :
  0%nat ∉ sources (run [OpPlay; OpSeek (Num 2); OpSetLoop true; OpPlay]
                     (run [OpEnded 0%nat] onePlaying)).1.
Proof.
  apply (removed_voice_never_returns 0
           [OpPlay; OpSeek (Num 2); OpSetLoop true; OpPlay]
           (run [OpEnded 0%nat] onePlaying)).
  - vm_compute. lia.
  - vm_compute. apply not_elem_of_nil.
Defined.

Lemma evolves_refl n : evolves n n.
Proof. repeat split; done. Qed.

Lemma evolves_trans n1 n2 n3 : evolves n1 n2 -> evolves n2 n3 -> evolves n1 n3.
Proof.
  intros (Hb & Hs & Ho & Hst & Hc) (Hb' & Hs' & Ho' & Hst' & Hc').
  repeat split; try congruence; auto.
Qed.

Lemma evolves_halt n : evolves n (halt n).
Proof. repeat split; done. Qed.

Lemma halt_all_evolves l (m : gmap nat SourceNode) i n :
  m !! i = Some n -> exists n', halt_all l m !! i = Some n' ∧ evolves n n'.
Proof.
  intros Hn. rewrite halt_all_lookup, Hn.
  destruct (decide (i ∈ l)); cbn; eauto using evolves_halt, evolves_refl.
Qed.

Lemma play_body_evolves b p e i n :
  refs_allocated p e -> (i < next_node e)%nat -> nodes e !! i = Some n ->
  exists n', nodes (play_body b p e).2 !! i = Some n' ∧ evolves n n'.
Proof.
  intros Hrefs Hlt Hn. rewrite play_body_nodes by done.
  rewrite decide_False by lia. rewrite Hn.
  destruct (decide (i ∈ stopped_by_play p)); cbn;
    eauto using evolves_halt, evolves_refl.
Qed.

Lemma play_resume_evolves p e i n :
  refs_allocated p e -> (i < next_node e)%nat -> nodes e !! i = Some n ->
  exists n', nodes (play_resume p e).2 !! i = Some n' ∧ evolves n n'.
Proof.
  unfold play_resume. destruct (buffer p); [apply play_body_evolves|].
  eauto using evolves_refl.
Qed.

(** What one event does to a node the store has handed out. *)
Lemma exec_node_evolves op p e i n :
  refs_allocated p e -> (i < next_node e)%nat -> nodes e !! i = Some n ->
  exists n', nodes (exec op (p, e)).2 !! i = Some n' ∧ evolves n n'.
Proof.
  intros Hrefs Hlt Hn. destruct op; cbn [exec].
  - pose proof (loadAudio_frame p e) as (_ & _ & _ & _ & Hnodes & _).
    cbn zeta in *. rewrite Hnodes. eauto using evolves_refl.
  - unfold play. destruct (buffer p) eqn:Hbuf; cbn [fst].
    + by apply play_resume_evolves.
    + pose proof (loadAudio_frame p e) as (Hsrc & _ & _ & _ & Hnodes & Hnext & _).
      cbn zeta in *.
      assert (refs_allocated (loadAudio p e).1.1 (loadAudio p e).1.2) as Hrefs1.
      { eapply refs_allocated_sub; [| |exact Hrefs]; [by rewrite Hsrc|lia]. }
      destruct (loadAudio p e) as [[p1 e1] [|err]]; cbn [fst snd] in *.
      * apply play_resume_evolves; [done|lia|by rewrite Hnodes].
      * rewrite Hnodes. eauto using evolves_refl.
  - unfold stop. rewrite (surjective_pairing (stopAllSources p e)).
    pose proof (stopAllSources_env p e) as (Hnodes & _). cbn zeta in *.
    cbn [snd]. rewrite Hnodes. by apply halt_all_evolves.
  - unfold seek. destruct (buffer p) as [b|] eqn:Hbuf; [|eauto using evolves_refl].
    cbn [sources with_offset].
    destruct (sources p) as [|s0 rest] eqn:Hsrc; [eauto using evolves_refl|].
    set (p1 := with_offset _ p).
    rewrite (surjective_pairing (stopAllSources p1 e)), stopAllSources_player.
    pose proof (stopAllSources_env p1 e) as (Hnodes & Hnext & _).
    cbn zeta in *. set (e2 := (stopAllSources p1 e).2) in *.
    rewrite (play_loaded b) by exact Hbuf. cbn [fst].
    destruct (halt_all_evolves (sources p1) (nodes e) i n Hn) as (n1 & Hn1 & Hev1).
    rewrite <- Hnodes in Hn1.
    destruct (play_body_evolves b (with_resolver None (with_sources [] p1)) e2 i n1)
      as (n2 & Hn2 & Hev2); [constructor | lia | done |].
    eauto using evolves_trans.
  - unfold whenAllEnded. destruct (sources p); cbn; eauto using evolves_refl.
  - unfold dispose. rewrite (surjective_pairing (stopAllSources p e)).
    pose proof (stopAllSources_env p e) as (Hnodes & _). cbn zeta in *.
    assert (nodes (if removeFromCache && truthy (sourcePath (with_graph false false (stopAllSources p e).1))
                   then set_streamCache (delete (sourcePath (with_graph false false (stopAllSources p e).1)))
                          (stopAllSources p e).2
                   else (stopAllSources p e).2) = nodes (stopAllSources p e).2) as Heq
      by (destruct (removeFromCache && _); reflexivity).
    cbn [snd]. rewrite Heq, Hnodes. by apply halt_all_evolves.
  - rewrite set_loop_eq. cbn. rewrite alter_all_lookup, Hn by done.
    destruct (decide (i ∈ sources p)); cbn; eexists; split; try done;
      repeat split; done.
  - rewrite set_playbackRate_eq. cbn. rewrite alter_all_lookup, Hn by done.
    destruct (decide (i ∈ sources p)); cbn; eexists; split; try done;
      repeat split; done.
  - cbn. eauto using evolves_refl.
  - unfold dispatch_ended.
    destruct (nodes e !! source) as [n0|]; [destruct (node_onended n0)|];
      eauto using evolves_refl.
    rewrite onended_eq. cbn zeta.
    destruct (sources _), (_endedPromiseResolver p); cbn;
      eauto using evolves_refl.
  - unfold load_settled. destruct r; [destruct (_useCache p)|];
      cbn; eauto using evolves_refl.
  - by apply play_resume_evolves.
  - cbn. eauto using evolves_refl.
Qed.

(** X6.  A node is started once and stopped for good.  For a node the
    store has handed out, whatever happens afterwards the node is still in
    the store with the same buffer, the same start offset and the same
    handler; if it was stopped it is still stopped, and if it was
    disconnected it is still disconnected. *)
Theorem stopped_voice_stays_stopped (i : nat) (n : SourceNode) (ops : list Op)
    (w : Player * Env) :
  refs_allocated w.1 w.2 ->
  (i < next_node w.2)%nat ->
  nodes w.2 !! i = Some n ->
  exists n',
    nodes (run ops w).2 !! i = Some n' ∧
    node_buffer n' = node_buffer n ∧ node_started n' = node_started n ∧
    node_onended n' = node_onended n ∧
    (node_stopped n = true -> node_stopped n' = true) ∧
    (node_connected n = false -> node_connected n' = false).
Proof.
  revert w n. induction ops as [|op ops IH]; intros [p e] n Hrefs Hlt Hn.
  - exists n. split; [done|]. apply evolves_refl.
  - rewrite run_cons. cbn [fst snd] in *.
    destruct (exec_node_evolves op p e i n) as (n1 & Hn1 & Hev1); try done.
    destruct (IH (exec op (p, e)) n1) as (n2 & Hn2 & Hev2).
    + apply exec_refs_allocated, Hrefs.
    + pose proof (exec_next_node op p e). lia.
    + done.
    + exists n2. split; [done|]. by eapply evolves_trans.
Qed.

Lemma stopped_voice_stays_stopped_witness :
  exists n',
    nodes (run [OpPlay; OpSetLoop true; OpPlay; OpSeek (Num 4)]
             (run [OpStop] onePlaying)).2 !! 0%nat = Some n' ∧
    node_stopped n' = true.
Proof.
  destruct (stopped_voice_stays_stopped 0
              (halt (voice demoBuffer (constructor "a" (upTo 1))))
              [OpPlay; OpSetLoop true; OpPlay; OpSeek (Num 4)]
              (run [OpStop] onePlaying))
    as (n' & Hn' & _ & _ & _ & Hstop & _).
  - vm_compute. constructor.
  - vm_compute. lia.
  - reflexivity.
  - exists n'. split; [exact Hn' | apply Hstop; reflexivity].
Defined.

(** ** Voices the platform accepts *)

Lemma platform_accepts_offset p :
  platform_accepts p = true -> exists offset, _offset p = Num offset ∧ 0 <= offset.
Proof.
  unfold platform_accepts.
  destruct (_offset p) as [| |o]; try discriminate.
  destruct (_playbackRate p); try discriminate.
  intros H. apply andb_true_iff in H as [H _]. apply andb_true_iff in H as [H _].
  exists o. split; [done|]. by apply Qle_bool_iff.
Qed.

(** A voice that an event adds to [sources] is a node the event has
    started, at the offset the event leaves. *)
Lemma exec_new_voice op p e i :
  refs_allocated p e ->
  i ∈ sources (exec op (p, e)).1 ->
  i ∈ sources p ∨
  exists n, nodes (exec op (p, e)).2 !! i = Some n ∧
            node_started n = Some (_offset (exec op (p, e)).1).
Proof.
  intros Hrefs.
  assert (Hbody : forall b p0 e0, refs_allocated p0 e0 ->
            i ∈ sources (play_body b p0 e0).1 ->
            i ∈ sources p0 ∨
            exists n, nodes (play_body b p0 e0).2 !! i = Some n ∧
                      node_started n = Some (_offset (play_body b p0 e0).1)).
  { intros b p0 e0 Hr0 Hi.
    pose proof (play_body_player b p0 e0) as (_ & _ & _ & Hoff & _).
    cbn zeta in Hoff. rewrite Hoff.
    assert (Hnew : i = next_node e0 ->
              exists n, nodes (play_body b p0 e0).2 !! i = Some n ∧
                        node_started n = Some (_offset p0)).
    { intros ->. rewrite play_body_nodes, decide_True by done. eauto. }
    rewrite play_body_sources in Hi. destruct (_loop p0).
    - apply list_elem_of_singleton in Hi. right. by apply Hnew.
    - apply elem_of_app in Hi as [Hi|Hi].
      + left. destruct (at_ceiling p0); [|done].
        destruct (sources p0); [done|]. apply elem_of_cons. by right.
      + apply list_elem_of_singleton in Hi. right. by apply Hnew. }
  assert (Hresume : forall p0 e0, refs_allocated p0 e0 ->
            i ∈ sources (play_resume p0 e0).1 ->
            i ∈ sources p0 ∨
            exists n, nodes (play_resume p0 e0).2 !! i = Some n ∧
                      node_started n = Some (_offset (play_resume p0 e0).1)).
  { intros p0 e0. unfold play_resume. destruct (buffer p0); [apply Hbody|tauto]. }
  destruct op; cbn [exec].
  - pose proof (loadAudio_frame p e) as (Hsrc & _). cbn zeta in *.
    rewrite Hsrc. tauto.
  - unfold play. destruct (buffer p) eqn:Hbuf; cbn [fst]; [by apply Hresume|].
    pose proof (loadAudio_frame p e) as (Hsrc & _ & _ & _ & _ & Hnext & _).
    cbn zeta in *.
    destruct (loadAudio p e) as [[p1 e1] [|err]]; cbn [fst snd] in *.
    + intros Hi. apply Hresume in Hi; [by rewrite Hsrc in Hi|].
      unfold refs_allocated. rewrite Hsrc, Hnext. exact Hrefs.
    + rewrite Hsrc. tauto.
  - unfold stop. rewrite (surjective_pairing (stopAllSources p e)).
    rewrite stopAllSources_player. cbn. by rewrite elem_of_nil.
  - unfold seek. destruct (buffer p) as [b|] eqn:Hbuf; [|tauto].
    cbn [sources with_offset].
    destruct (sources p) as [|s0 rest] eqn:Hsrc.
    + cbn. rewrite Hsrc. tauto.
    + rewrite (surjective_pairing (stopAllSources _ e)), stopAllSources_player.
      rewrite (play_loaded b) by exact Hbuf. cbn [fst].
      intros Hi. apply Hbody in Hi as [Hi|Hi]; [|by right|].
      * cbn in Hi. by rewrite elem_of_nil in Hi.
      * unfold refs_allocated. cbn. apply Forall_nil_2.
  - unfold whenAllEnded. destruct (sources p) eqn:Hsrc; cbn; rewrite ?Hsrc; tauto.
  - unfold dispose. rewrite (surjective_pairing (stopAllSources p e)).
    rewrite stopAllSources_player. cbn. by rewrite elem_of_nil.
  - rewrite set_loop_eq. tauto.
  - rewrite set_playbackRate_eq. tauto.
  - tauto.
  - unfold dispatch_ended.
    destruct (nodes e !! source) as [n|]; [destruct (node_onended n)|]; try tauto.
    rewrite onended_eq. cbn zeta.
    set (p1 := match list_find (fun x => x = source) (sources p) with
               | Some (index, _) => with_sources (delete index (sources p)) p
               | None => p
               end).
    assert (Hsub : sources p1 ⊆ sources p).
    { subst p1. destruct (list_find _ _) as [[j ?]|]; [|done].
      apply sublist_subseteq, sublist_delete. }
    destruct (sources p1) eqn:Hsrc1, (_endedPromiseResolver p);
      cbn [fst snd sources with_resolver]; rewrite ?Hsrc1; intros Hi; left;
      by apply Hsub.
  - unfold load_settled. destruct r; tauto.
  - by apply Hresume.
  - tauto.
Qed.

(** On an event the platform accepts, the active voices stay started at
    offsets it accepted. *)
Lemma exec_offsets_ok op p e :
  refs_allocated p e -> offsets_ok p e ->
  platform_accepts (exec op (p, e)).1 = true ->
  offsets_ok (exec op (p, e)).1 (exec op (p, e)).2.
Proof.
  intros Hrefs Hoff Hacc. apply Forall_forall. intros i Hi.
  apply exec_new_voice in Hi as [Hold|(n & Hn & Hst)]; [| |done].
  - unfold offsets_ok in Hoff. rewrite Forall_forall in Hoff.
    destruct (Hoff i Hold) as (n & o & Hn & Hst & Hle).
    assert (Hlt : (i < next_node e)%nat).
    { unfold refs_allocated in Hrefs. rewrite Forall_forall in Hrefs.
      by apply Hrefs. }
    destruct (exec_node_evolves op p e i n) as (n' & Hn' & Hev);
      [done | done | done |].
    destruct Hev as (_ & Hst' & _).
    exists n', o. split; [exact Hn'|]. split; [by rewrite Hst'|exact Hle].
  - apply platform_accepts_offset in Hacc as (o & Ho & Hle).
    exists n, o. split; [exact Hn|]. split; [by rewrite Hst, Ho|exact Hle].
Qed.

Lemma run_offsets_ok ops w :
  refs_allocated w.1 w.2 -> offsets_ok w.1 w.2 ->
  accepted ops w = true ->
  offsets_ok (run ops w).1 (run ops w).2.
Proof.
  revert w. induction ops as [|op ops IH]; intros [p e] Hrefs Hoff Hacc; [done|].
  cbn [accepted] in Hacc. apply andb_true_iff in Hacc as [Hacc Hrest].
  rewrite run_cons. cbn [fst snd] in *.
  rewrite (surjective_pairing (exec op (p, e))) in Hrest |- *.
  apply IH; cbn [fst snd].
  - by apply exec_refs_allocated.
  - by apply exec_offsets_ok.
  - exact Hrest.
Qed.

(** X4.  Every node in the active voice set is sounding.  From a freshly
    constructed player, on every run on which the platform accepts each
    call -- every event leaves a finite offset that is not negative and a
    finite playback rate -- each node in [sources] was started, at such an
    offset, has not been stopped and is connected.  So [stop(0)] is never
    called on a node that was not started. *)
Theorem active_voices_are_playing (path : string) (opts : Options) (e : Env)
    (ops : list Op) :
  accepted ops (constructor path opts, e) = true ->
  Forall (fun i => exists n offset,
            nodes (run ops (constructor path opts, e)).2 !! i = Some n ∧
            node_started n = Some (Num offset) ∧ 0 <= offset ∧
            node_stopped n = false ∧ node_connected n = true)
         (sources (run ops (constructor path opts, e)).1).
Proof.
  intros Hacc.
  destruct (run_voices_ok ops (constructor path opts, e)) as (_ & _ & Hplay).
  { apply voices_ok_nil, constructor_sources. }
  pose proof (run_offsets_ok ops (constructor path opts, e)) as Hoff.
  cbn [fst snd] in Hoff.
  unfold offsets_ok, refs_allocated in Hoff.
  rewrite constructor_sources in Hoff.
  specialize (Hoff (Forall_nil_2 _) (Forall_nil_2 _) Hacc).
  rewrite Forall_forall in Hplay, Hoff. apply Forall_forall. intros i Hi.
  destruct (Hplay i Hi) as (n & Hn & _ & Hstop & Hconn).
  destruct (Hoff i Hi) as (n' & o & Hn' & Hst & Hle).
  rewrite Hn in Hn'. injection Hn' as <-. exists n, o. repeat split; assumption.
Qed.

Lemma active_voices_are_playing_witness :
  Forall (fun i => exists n offset,
            nodes (run [OpLoadAudio; OpPlay; OpSeek (Num 13);
                        OpSetPlaybackRate (Num 2); OpPlay]
                     (constructor "a" (upTo 2), online)).2 !! i = Some n ∧
            node_started n = Some (Num offset) ∧ 0 <= offset ∧
            node_stopped n = false ∧ node_connected n = true)
         (sources (run [OpLoadAudio; OpPlay; OpSeek (Num 13);
                        OpSetPlaybackRate (Num 2); OpPlay]
                     (constructor "a" (upTo 2), online)).1).
Proof.
  apply (active_voices_are_playing "a" (upTo 2) online
           [OpLoadAudio; OpPlay; OpSeek (Num 13); OpSetPlaybackRate (Num 2);
            OpPlay]).
  vm_compute. reflexivity.
Defined.

(** A negative seek leaves the range: the run is not one the platform
    accepts. *)
Example negative_seek_not_accepted :
  accepted [OpLoadAudio; OpPlay; OpSeek (Num (-13))]
    (constructor "a" defaults, online) = false.
Proof. vm_compute. reflexivity. Qed.

(** ** The [ended] notification *)

Lemma list_find_absent (s : nat) (l : list nat) :
  s ∉ l -> list_find (fun x => x = s) l = None.
Proof.
  intros Hout. apply list_find_None. apply Forall_forall.
  intros x Hx ->. done.
Qed.

(** X7.  An [ended] notification for a node that is no longer in the
    active voice set changes nothing -- no voice is removed and no waiter
    resolved -- in every state in which a waiter is only pending over
    active voices. *)
Theorem stale_ended_is_ignored (source : nat) (p : Player) (e : Env) :
  source ∉ sources p ->
  waiter_has_voices p ->
  exec (OpEnded source) (p, e) = (p, e).
Proof.
  intros Hout Hinv. cbn [exec]. unfold dispatch_ended.
  destruct (nodes e !! source) as [n|]; [destruct (node_onended n)|]; try done.
  rewrite onended_eq. cbn zeta. rewrite list_find_absent by done.
  destruct (sources p) eqn:Hsrc; [|done].
  destruct Hinv as [-> | Hne]; done.
Qed.

Lemma stale_ended_is_ignored_witness :
  exec (OpEnded 0%nat) (run [OpPlay; OpWhenAllEnded] onePlaying)
  = run [OpPlay; OpWhenAllEnded] onePlaying.
Proof.
  pose proof (stale_ended_is_ignored 0
                (run [OpPlay; OpWhenAllEnded] onePlaying).1
                (run [OpPlay; OpWhenAllEnded] onePlaying).2) as H.
  rewrite <- surjective_pairing in H. apply H.
  - vm_compute. intros Hin. apply list_elem_of_singleton in Hin. discriminate.
  - right. vm_compute. discriminate.
Defined.

Lemma filter_absent (s : nat) (l : list nat) :
  s ∉ l -> filter (fun x => x ≠ s) l = l.
Proof.
  induction l as [|x l IH]; intros Hout; [done|].
  apply not_elem_of_cons in Hout as [Hne Hout].
  rewrite filter_cons_True by done. by rewrite IH.
Qed.

Lemma delete_found_filter (s : nat) (l : list nat) :
  NoDup l ->
  match list_find (fun x => x = s) l with
  | Some (index, _) => delete index l
  | None => l
  end = filter (fun x => x ≠ s) l.
Proof.
  induction l as [|x l IH]; intros Hnd; [done|].
  apply NoDup_cons in Hnd as [Hx Hnd]. cbn [list_find].
  destruct (decide (x = s)) as [->|Hne].
  - rewrite filter_cons_False by (intros Hs; by apply Hs).
    rewrite filter_absent by done. reflexivity.
  - rewrite filter_cons_True by done. rewrite <- IH by done.
    destruct (list_find _ l) as [[j y]|]; reflexivity.
Qed.

(** X8.  The [ended] notification of an active one-shot voice removes that
    voice and no other: the remaining voices keep their order, no node is
    touched, and the waiter is resolved exactly when the set has become
    empty. *)
Theorem ended_removes_only_that_voice (source : nat) (n : SourceNode)
    (p : Player) (e : Env) :
  NoDup (sources p) ->
  nodes e !! source = Some n -> node_onended n = true ->
  let p' := (exec (OpEnded source) (p, e)).1 in
  let e' := (exec (OpEnded source) (p, e)).2 in
  sources p' = filter (fun x => x ≠ source) (sources p) ∧
  nodes e' = nodes e ∧
  resolved e' =
    resolved e ++
    (if bool_decide (sources p' = []) then option_list (_endedPromiseResolver p)
     else []) ∧
  _endedPromiseResolver p' =
    (if bool_decide (sources p' = []) then None else _endedPromiseResolver p).
Proof.
  intros Hnd Hn Hended. cbn [exec]. unfold dispatch_ended.
  rewrite Hn, Hended, onended_eq. cbn zeta.
  pose proof (delete_found_filter source (sources p) Hnd) as Hfilter.
  set (p1 := match list_find (fun x => x = source) (sources p) with
             | Some (index, _) => with_sources (delete index (sources p)) p
             | None => p
             end).
  assert (Hsrc1 : sources p1 = filter (fun x => x ≠ source) (sources p)).
  { rewrite <- Hfilter. subst p1.
    destruct (list_find _ _) as [[j y]|]; reflexivity. }
  assert (Hslot : _endedPromiseResolver p1 = _endedPromiseResolver p)
    by (subst p1; destruct (list_find _ _) as [[j ?]|]; reflexivity).
  destruct (sources p1) eqn:Hl, (_endedPromiseResolver p) eqn:Hr;
    cbn [fst snd sources with_resolver _endedPromiseResolver];
    rewrite ?Hl, <- ?Hsrc1; cbn; rewrite ?app_nil_r, ?Hslot; done.
Qed.

Lemma ended_removes_only_that_voice_witness :
  sources (exec (OpEnded 1%nat) (threeVoices.1, threeVoices.2)).1
  = [0%nat; 2%nat].
Proof.
  destruct (ended_removes_only_that_voice 1
              (voice demoBuffer (constructor "a" (upTo 3)))
              threeVoices.1 threeVoices.2) as (H & _).
  - vm_compute. exact (NoDup_seq 0 3).
  - reflexivity.
  - reflexivity.
  - rewrite H. reflexivity.
Defined.

(** ** The setters *)

(** X9.  The [loop] and [playbackRate] setters are retroactive and evict
    nothing.  Each stores its value, writes it to every active node and to
    no other node, and leaves [sources], the waiter and the log of
    resolutions as they were; in particular [loop = true] alone does not
    reduce the voices to one. *)
Theorem setters_are_retroactive (p : Player) (e : Env) (value : bool)
    (rate : number) :
  (_loop (set_loop value p e).1 = value ∧
   sources (set_loop value p e).1 = sources p ∧
   _endedPromiseResolver (set_loop value p e).1 = _endedPromiseResolver p ∧
   resolved (set_loop value p e).2 = resolved e ∧
   ∀ i, nodes (set_loop value p e).2 !! i =
        if decide (i ∈ sources p) then mark_loop value <$> nodes e !! i
        else nodes e !! i) ∧
  (_playbackRate (set_playbackRate rate p e).1 = rate ∧
   sources (set_playbackRate rate p e).1 = sources p ∧
   _endedPromiseResolver (set_playbackRate rate p e).1 = _endedPromiseResolver p ∧
   resolved (set_playbackRate rate p e).2 = resolved e ∧
   ∀ i, nodes (set_playbackRate rate p e).2 !! i =
        if decide (i ∈ sources p) then mark_playbackRate rate <$> nodes e !! i
        else nodes e !! i).
Proof.
  rewrite set_loop_eq, set_playbackRate_eq. cbn.
  repeat split; intros i; by apply alter_all_lookup.
Qed.

(** ** Repeated [play] *)

Lemma exec_play_loaded b p e :
  buffer p = Some b -> exec OpPlay (p, e) = play_body b p e.
Proof. intros Hb. cbn [exec]. by rewrite (play_loaded b). Qed.

Lemma tail_seq a n : tail (seq a n) = seq (S a) (n - 1).
Proof. destruct n; cbn; [done|]. by rewrite Nat.sub_0_r. Qed.

Lemma take_1_seq a n : (1 <= n)%nat -> take 1 (seq a n) = [a].
Proof. destruct n; [lia|]. done. Qed.

Lemma oneshot_plays_state (n k : nat) b p e :
  (1 <= n)%nat ->
  _maxPolyphony p = Num (inject_Z (Z.of_nat n)) ->
  buffer p = Some b -> sources p = [] -> _loop p = false ->
  (run (replicate k OpPlay) (p, e)).1
    = with_sources (seq (next_node e + (k - n)) (Nat.min k n)) p ∧
  next_node (run (replicate k OpPlay) (p, e)).2 = (next_node e + k)%nat ∧
  ∀ j, (j < k)%nat ->
       nodes (run (replicate k OpPlay) (p, e)).2 !! (next_node e + j)%nat
       = Some (if (j <? k - n)%nat then halt (voice b p) else voice b p).
Proof.
  intros Hn Hmax Hbuf Hsrc Hloop. induction k as [|k IH].
  - cbn. repeat split; [|lia|intros j Hj; lia].
    destruct p; cbn in *; subst; reflexivity.
  - destruct IH as (Hp & Hnext & Hnodes).
    rewrite replicate_snoc, run_snoc.
    destruct (run (replicate k OpPlay) (p, e)) as [pk ek]; cbn [fst snd] in *.
    subst pk. rewrite (exec_play_loaded b) by done.
    rewrite play_body_oneshot, enforce_polyphony_eq by done.
    rewrite (at_ceiling_int _ (Z.of_nat n)) by done.
    cbn [sources with_sources]. rewrite length_seq.
    change (voice b (with_sources _ p)) with (voice b p).
    destruct (Z.leb_spec (Z.of_nat n) (Z.of_nat (Nat.min k n))) as [Hle|Hlt];
      cbn [fst snd sources with_sources nodes alloc_node set_nodes next_node];
      rewrite Hnext.
    + (* the ceiling is reached: the oldest voice goes *)
      assert (Hkn : (n <= k)%nat) by lia.
      rewrite Nat.min_r, tail_seq, take_1_seq by lia.
      replace (Nat.min (S k) n) with n by lia.
      replace (S k - n)%nat with (S (k - n)) by lia.
      split; [|split; [lia|]].
      * assert (Hl : seq (S (next_node e + (k - n))) (n - 1) ++ [(next_node e + k)%nat]
                     = seq (next_node e + S (k - n)) n).
        { replace (next_node e + k)%nat
            with (S (next_node e + (k - n)) + (n - 1))%nat by lia.
          rewrite <- seq_S. f_equal; lia. }
        rewrite Hl. reflexivity.
      * intros j Hj.
        destruct (decide (j = k)) as [->|Hjk].
        { rewrite lookup_insert_eq.
          destruct (Nat.ltb_spec k (S (k - n))); [lia|done]. }
        rewrite lookup_insert_ne by lia. rewrite halt_all_lookup.
        rewrite Hnodes by lia.
        destruct (decide (j = k - n)%nat) as [->|Hjn].
        { rewrite decide_True by (apply list_elem_of_singleton; done).
          rewrite Nat.ltb_irrefl.
          destruct (Nat.ltb_spec (k - n) (S (k - n))); [done|lia]. }
        rewrite decide_False by (rewrite list_elem_of_singleton; lia).
        destruct (Nat.ltb_spec j (k - n)), (Nat.ltb_spec j (S (k - n)));
          done || lia.
    + (* below the ceiling: nothing is stopped *)
      assert (Hkn : (k < n)%nat) by lia.
      replace (Nat.min k n) with k by lia.
      replace (Nat.min (S k) n) with (S k) by lia.
      replace (k - n)%nat with 0%nat in * by lia.
      replace (S k - n)%nat with 0%nat by lia.
      rewrite Nat.add_0_r.
      split; [|split; [lia|]].
      * rewrite <- seq_S. reflexivity.
      * intros j Hj. destruct (decide (j = k)) as [->|Hjk].
        { by rewrite lookup_insert_eq. }
        rewrite lookup_insert_ne by lia. by rewrite Hnodes by lia.
Qed.

(** X10.  One-shot playback keeps the newest voices.  With a whole ceiling
    [n >= 1], a loaded buffer, no active voice and [loop = false], after
    any number [k] of [play()] calls with no [ended] event in between the
    active voices are the last [min k n] nodes started, in starting order
    and still playing, and every earlier node has been stopped and
    disconnected. *)
Theorem oneshot_plays_keep_newest (n k : nat) b p e :
  (1 <= n)%nat ->
  _maxPolyphony p = Num (inject_Z (Z.of_nat n)) ->
  buffer p = Some b -> sources p = [] -> _loop p = false ->
  sources (run (replicate k OpPlay) (p, e)).1
    = seq (next_node e + (k - n)) (Nat.min k n) ∧
  ∀ j, (j < k)%nat ->
       nodes (run (replicate k OpPlay) (p, e)).2 !! (next_node e + j)%nat
       = Some (if (j <? k - n)%nat then halt (voice b p) else voice b p).
Proof.
  intros Hn Hmax Hbuf Hsrc Hloop.
  destruct (oneshot_plays_state n k b p e) as (Hp & _ & Hnodes); try done.
  rewrite Hp. done.
Qed.

Lemma oneshot_plays_keep_newest_witness :
  sources (run (replicate 5 OpPlay) (loadedPlayer 2, offline)).1
  = [3%nat; 4%nat].
Proof.
  destruct (oneshot_plays_keep_newest 2 5 demoBuffer (loadedPlayer 2) offline)
    as (H & _); [lia | reflexivity ..|].
  exact H.
Defined.

Lemma loop_plays_state (k : nat) b p e :
  buffer p = Some b -> _loop p = true -> refs_allocated p e ->
  let w := run (replicate (S k) OpPlay) (p, e) in
  w.1 = with_resolver None (with_sources [(next_node e + k)%nat] p) ∧
  next_node w.2 = (next_node e + S k)%nat ∧
  nodes w.2 !! (next_node e + k)%nat = Some (voice b p) ∧
  ∀ j, (j < k)%nat ->
       nodes w.2 !! (next_node e + j)%nat = Some (halt (voice b p)).
Proof.
  intros Hbuf Hloop Hrefs. induction k as [|k IH]; cbn zeta in *.
  - change (replicate 1 OpPlay) with [OpPlay]. unfold run. cbn [foldl].
    rewrite (exec_play_loaded b) by done.
    pose proof (play_body_player b p e) as Hpl.
    pose proof (play_body_env b p e) as (Hnext & _).
    pose proof (play_body_sources b p e) as Hsrc.
    cbn zeta in *. rewrite Hloop in *. rewrite Nat.add_0_r.
    split; [|split; [lia|split; [|intros j Hj; lia]]].
    + destruct Hpl as (H1 & H2 & H3 & H4 & H5 & H6 & H7 & H8).
      rewrite play_body_loop by done. rewrite enforce_polyphony_eq.
      destruct (at_ceiling p); cbn; destruct p; cbn in *; subst; reflexivity.
    + rewrite play_body_nodes, decide_True by done. done.
  - destruct IH as (Hp & Hnext & Hlast & Hold).
    rewrite (replicate_snoc (S k)), run_snoc.
    destruct (run (replicate (S k) OpPlay) (p, e)) as [pk ek]; cbn [fst snd] in *.
    assert (Hrefsk : refs_allocated pk ek).
    { subst pk. unfold refs_allocated. cbn. apply Forall_singleton. lia. }
    assert (Hbufk : buffer pk = Some b) by (by subst pk).
    assert (Hloopk : _loop pk = true) by (by subst pk).
    rewrite (exec_play_loaded b) by done.
    pose proof (play_body_env b pk ek) as (Hnext' & _). cbn zeta in Hnext'.
    assert (Hvoice : voice b pk = voice b p) by (by subst pk).
    split; [|split; [lia|split]].
    + rewrite play_body_loop by done. rewrite enforce_polyphony_eq.
      subst pk. rewrite Hnext.
      replace (next_node e + S k)%nat with (next_node e + S k)%nat by done.
      destruct (at_ceiling _); reflexivity.
    + rewrite play_body_nodes by done.
      rewrite Hnext, decide_True by lia. by rewrite Hvoice.
    + intros j Hj. rewrite play_body_nodes by done.
      rewrite Hnext, decide_False by lia.
      unfold stopped_by_play. rewrite Hloopk. subst pk. cbn [sources with_sources with_resolver].
      destruct (decide (j = k)) as [->|Hjk].
      * rewrite decide_True by (apply list_elem_of_singleton; done).
        by rewrite Hlast.
      * rewrite decide_False by (rewrite list_elem_of_singleton; lia).
        apply Hold. lia.
Qed.

(** X11.  Looping playback keeps the newest voice only.  With a buffer
    loaded and [loop = true], after any number [k + 1] of [play()] calls
    the active voice set is exactly the node started last, which is
    playing, and the nodes started by the earlier calls have all been
    stopped and disconnected. *)
Theorem loop_plays_keep_newest_only (k : nat) b p e :
  buffer p = Some b -> _loop p = true -> refs_allocated p e ->
  sources (run (replicate (S k) OpPlay) (p, e)).1 = [(next_node e + k)%nat] ∧
  nodes (run (replicate (S k) OpPlay) (p, e)).2 !! (next_node e + k)%nat
    = Some (voice b p) ∧
  ∀ j, (j < k)%nat ->
       nodes (run (replicate (S k) OpPlay) (p, e)).2 !! (next_node e + j)%nat
       = Some (halt (voice b p)).
Proof.
  intros Hbuf Hloop Hrefs.
  destruct (loop_plays_state k b p e) as (Hp & _ & Hlast & Hold); try done.
  cbn zeta in *. rewrite Hp. done.
Qed.

Lemma loop_plays_keep_newest_only_witness :
  sources (run (replicate 4 OpPlay)
             (with_loop true (loadedPlayer 3), offline)).1 = [3%nat].
Proof.
  destruct (loop_plays_keep_newest_only 3 demoBuffer
              (with_loop true (loadedPlayer 3)) offline) as (H & _).
  - reflexivity.
  - reflexivity.
  - constructor.
  - exact H.
Defined.

Lemma at_ceiling_unbounded p :
  _maxPolyphony p = NaN ∨ _maxPolyphony p = Inf false -> at_ceiling p = false.
Proof. unfold at_ceiling, js_length, js_ge. intros [-> | ->]; reflexivity. Qed.

(** X12.  A ceiling of [Infinity] (or NaN) never evicts.  With
    [loop = false] and a buffer loaded, [k] calls of [play()] append [k]
    new voices after the ones already active and touch no existing
    node. *)
Theorem unbounded_ceiling_never_evicts (k : nat) b p e :
  _maxPolyphony p = NaN ∨ _maxPolyphony p = Inf false ->
  buffer p = Some b -> _loop p = false ->
  sources (run (replicate k OpPlay) (p, e)).1
    = sources p ++ seq (next_node e) k ∧
  next_node (run (replicate k OpPlay) (p, e)).2 = (next_node e + k)%nat ∧
  ∀ i, (i < next_node e)%nat ->
       nodes (run (replicate k OpPlay) (p, e)).2 !! i = nodes e !! i.
Proof.
  intros Hmax Hbuf Hloop.
  assert (Hstate : (run (replicate k OpPlay) (p, e)).1
                   = with_sources (sources p ++ seq (next_node e) k) p ∧
                   next_node (run (replicate k OpPlay) (p, e)).2 = (next_node e + k)%nat ∧
                   ∀ i, (i < next_node e)%nat ->
                     nodes (run (replicate k OpPlay) (p, e)).2 !! i = nodes e !! i).
  { induction k as [|k IH].
    - cbn. rewrite app_nil_r. repeat split; [|lia].
      destruct p; reflexivity.
    - destruct IH as (Hp & Hnext & Hnodes).
      rewrite replicate_snoc, run_snoc.
      destruct (run (replicate k OpPlay) (p, e)) as [pk ek]; cbn [fst snd] in *.
      subst pk. rewrite (exec_play_loaded b) by done.
      rewrite play_body_oneshot, enforce_polyphony_eq by done.
      rewrite at_ceiling_unbounded by done.
      cbn [fst snd sources with_sources nodes alloc_node next_node].
      rewrite Hnext. split; [|split; [lia|]].
      + by rewrite seq_S, app_assoc.
      + intros i Hi. rewrite lookup_insert_ne by lia. by apply Hnodes. }
  destruct Hstate as (Hp & Hnext & Hnodes). rewrite Hp. done.
Qed.

Lemma unbounded_ceiling_never_evicts_witness :
  sources (run (replicate 4 OpPlay)
             (with_maxPolyphony (Inf false) (loadedPlayer 1), offline)).1
  = [0%nat; 1%nat; 2%nat; 3%nat].
Proof.
  destruct (unbounded_ceiling_never_evicts 4 demoBuffer
              (with_maxPolyphony (Inf false) (loadedPlayer 1)) offline)
    as (H & _).
  - right. reflexivity.
  - reflexivity.
  - reflexivity.
  - exact H.
Defined.

(** X13.  A ceiling of at most 1 -- 0 and negative values included -- acts
    as a ceiling of 1.  With [1 >= maxPolyphony], [loop = false], a buffer
    loaded and at most one voice active, [play()] leaves exactly the new
    voice: the previous one, if any, is stopped and disconnected. *)
Theorem ceiling_below_one_acts_as_one b p e :
  js_ge (Num 1) (_maxPolyphony p) = true ->
  buffer p = Some b -> _loop p = false ->
  (length (sources p) <= 1)%nat ->
  refs_allocated p e ->
  sources (exec OpPlay (p, e)).1 = [next_node e] ∧
  ∀ i, nodes (exec OpPlay (p, e)).2 !! i =
       if decide (i = next_node e) then Some (voice b p)
       else if decide (i ∈ sources p) then halt <$> nodes e !! i
       else nodes e !! i.
Proof.
  intros Hmax Hbuf Hloop Hlen Hrefs. rewrite (exec_play_loaded b) by done.
  rewrite play_body_sources, Hloop. split.
  - destruct (sources p) as [|s [|s' rest]] eqn:Hsrc; cbn in Hlen; [| |lia].
    + by destruct (at_ceiling p).
    + unfold at_ceiling. rewrite Hsrc. unfold js_length. cbn [length].
      change (Num (inject_Z (Z.of_nat 1))) with (Num 1). by rewrite Hmax.
  - intros i. rewrite play_body_nodes by done.
    destruct (decide (i = next_node e)); [done|].
    unfold stopped_by_play. rewrite Hloop.
    destruct (sources p) as [|s [|s' rest]] eqn:Hsrc; cbn in Hlen; [| |lia].
    + destruct (at_ceiling p); cbn; rewrite !decide_False; try done;
        apply not_elem_of_nil.
    + unfold at_ceiling. rewrite Hsrc. unfold js_length. cbn [length].
      change (Num (inject_Z (Z.of_nat 1))) with (Num 1). rewrite Hmax. done.
Qed.

Lemma ceiling_below_one_acts_as_one_witness :
  sources (run [OpPlay; OpPlay]
             (with_maxPolyphony (Num 0) (loadedPlayer 1), offline)).1 = [1%nat].
Proof.
  pose (w := exec OpPlay (with_maxPolyphony (Num 0) (loadedPlayer 1), offline)).
  destruct (ceiling_below_one_acts_as_one demoBuffer w.1 w.2) as (H & _).
  - reflexivity.
  - reflexivity.
  - reflexivity.
  - vm_compute. lia.
  - vm_compute. repeat constructor.
  - exact H.
Defined.

(** ** Loading again *)

(** X14.  A failed load changes nothing but the log of fetches, and can be
    retried.  When the load of a player fails, [loadAudio()] rejects and
    leaves the player -- with whatever buffer it held -- and the cache as
    they were; a second [loadAudio()] once the network answers fetches
    again, is fulfilled with the decoded buffer, and a caching player then
    stores it. *)
Theorem failed_load_can_be_retried (p : Player) (e : Env) (err : LoadError)
    (b : AudioBuffer) (answer : string -> LoadResult) :
  load_fails p e err ->
  answer (sourcePath p) = Loaded b ->
  let first := loadAudio p e in
  let second := loadAudio first.1.1 (set_network answer first.1.2) in
  first.2 = Rejected err ∧ first.1.1 = p ∧
  streamCache first.1.2 = streamCache e ∧
  fetchLog first.1.2 = fetchLog e ++ [sourcePath p] ∧
  second.2 = Fulfilled ∧ buffer second.1.1 = Some b ∧
  fetchLog second.1.2 = fetchLog e ++ [sourcePath p; sourcePath p] ∧
  streamCache second.1.2 =
    (if _useCache p then <[sourcePath p := b]> (streamCache e)
     else streamCache e).
Proof.
  intros [Hnet Hmiss] Hanswer first second.
  assert (Hfirst : first = (p, log_fetch (sourcePath p) e, Rejected err)).
  { subst first. unfold loadAudio, loadAudioWithCaching.
    destruct (_useCache p); [rewrite Hmiss by done|]; cbn; rewrite Hnet; done. }
  subst second. rewrite Hfirst. cbn [fst snd].
  repeat split; try done.
  all: unfold loadAudio, loadAudioWithCaching; destruct (_useCache p) eqn:Huse;
    cbn; rewrite ?Hmiss by done; cbn; rewrite Hanswer; cbn;
    rewrite <- ?app_assoc; done.
Qed.

Lemma failed_load_can_be_retried_witness :
  buffer (loadAudio (loadAudio (constructor "a" defaults) offline).1.1
            (set_network (fun _ => Loaded demoBuffer)
               (loadAudio (constructor "a" defaults) offline).1.2)).1.1
  = Some demoBuffer.
Proof.
  destruct (failed_load_can_be_retried (constructor "a" defaults) offline
              FetchFailed demoBuffer (fun _ => Loaded demoBuffer))
    as (_ & _ & _ & _ & _ & H & _).
  - split; reflexivity.
  - reflexivity.
  - exact H.
Defined.

(** X15.  Players that do not cache share nothing.  With
    [useCache = false] a load never reads or writes [streamCache], even
    when it holds the path: each of two loads on the same path fetches,
    and each player holds what the network answered to its own fetch. *)
Theorem uncached_loads_always_fetch (p1 p2 : Player) (e : Env)
    (b1 b2 : AudioBuffer) (answer : string -> LoadResult) :
  _useCache p1 = false -> _useCache p2 = false ->
  sourcePath p1 = sourcePath p2 ->
  network e (sourcePath p1) = Loaded b1 ->
  answer (sourcePath p1) = Loaded b2 ->
  let first := loadAudio p1 e in
  let second := loadAudio p2 (set_network answer first.1.2) in
  buffer first.1.1 = Some b1 ∧ buffer second.1.1 = Some b2 ∧
  streamCache second.1.2 = streamCache e ∧
  fetchLog second.1.2 = fetchLog e ++ [sourcePath p1; sourcePath p1].
Proof.
  intros Hu1 Hu2 Hpath Hnet Hanswer first second. subst second first.
  unfold loadAudio, loadAudioBuffer. rewrite Hu1, Hu2, <- Hpath. cbn.
  rewrite Hnet. cbn. rewrite Hanswer. cbn. rewrite <- app_assoc. done.
Qed.

Lemma uncached_loads_always_fetch_witness :
  fetchLog
    (loadAudio (constructor "a" uncached)
       (set_network (fun _ => Loaded demoBuffer)
          (loadAudio (constructor "a" uncached) online).1.2)).1.2
  = ["a"; "a"]%string.
Proof.
  destruct (uncached_loads_always_fetch (constructor "a" uncached)
              (constructor "a" uncached) online demoBuffer demoBuffer
              (fun _ => Loaded demoBuffer)) as (_ & _ & _ & H).
  - reflexivity.
  - reflexivity.
  - reflexivity.
  - reflexivity.
  - reflexivity.
  - exact H.
Defined.

(** ** After teardown *)

(** X16.  [stop()] and [dispose()] are idempotent: a second call in a row
    changes nothing more -- no node is touched again and no promise is
    resolved a second time. *)
Theorem teardown_is_idempotent (p : Player) (e : Env) (removeFromCache : bool) :
  stop (stop p e).1 (stop p e).2 = stop p e ∧
  dispose removeFromCache (dispose removeFromCache p e).1
                          (dispose removeFromCache p e).2
    = dispose removeFromCache p e.
Proof.
  split.
  - unfold stop. rewrite (surjective_pairing (stopAllSources p e)).
    rewrite (stopAllSources_eq p e). cbn [fst snd].
    rewrite stopAllSources_eq. cbn.
    destruct (_endedPromiseResolver p); reflexivity.
  - unfold dispose. rewrite (surjective_pairing (stopAllSources p e)).
    rewrite (stopAllSources_eq p e). cbn [fst snd].
    rewrite stopAllSources_eq. cbn.
    destruct (_endedPromiseResolver p), (removeFromCache && truthy (sourcePath p));
      cbn; try reflexivity;
      (f_equal; unfold set_streamCache, set_nodes, resolve, halt_all, alter_all;
       cbn; f_equal; apply delete_delete_eq).
Qed.

Lemma play_body_graph b p e :
  pannerConnected (play_body b p e).1 = pannerConnected p ∧
  gainConnected (play_body b p e).1 = gainConnected p.
Proof.
  destruct (_loop p) eqn:Hl.
  - rewrite play_body_loop, enforce_polyphony_eq by done.
    destruct (at_ceiling p); done.
  - rewrite play_body_oneshot, enforce_polyphony_eq by done.
    destruct (at_ceiling p); done.
Qed.

(** X17.  [dispose()] of [part_001] is not final.  After
    [dispose(false)], a [play()] on a caching player whose path is still
    cached reloads the buffer from the cache without fetching and starts a
    voice with the default settings, while panner and gain stay
    disconnected. *)
Theorem play_after_dispose_revives (p : Player) (e : Env) (b : AudioBuffer) :
  _useCache p = true ->
  streamCache e !! sourcePath p = Some b ->
  let disposed := dispose false p e in
  let played := play disposed.1 disposed.2 in
  played.2 = Fulfilled ∧
  buffer played.1.1 = Some b ∧
  sources played.1.1 = [next_node e] ∧
  fetchLog played.1.2 = fetchLog e ∧
  pannerConnected played.1.1 = false ∧ gainConnected played.1.1 = false ∧
  nodes played.1.2 !! next_node e =
    Some {| node_buffer := b; node_loop := false; node_playbackRate := Num 1;
            node_connected := true; node_onended := true;
            node_started := Some (Num 0); node_stopped := false |}.
Proof.
  intros Huse Hhit disposed played.
  pose proof (stopAllSources_env p e)
    as (_ & Hnext & Hcache & _ & Hlog & _). cbn zeta in *.
  assert (Hd : disposed =
            (with_resolver None (with_offset (Num 0) (with_playbackRate (Num 1)
               (with_loop false (with_buffer None (with_graph false false
                  (with_resolver None (with_sources [] p))))))),
             (stopAllSources p e).2)).
  { subst disposed. unfold dispose.
    rewrite (surjective_pairing (stopAllSources p e)), stopAllSources_player.
    reflexivity. }
  subst played. rewrite Hd. cbn [fst snd].
  set (p1 := with_resolver None _). set (e1 := (stopAllSources p e).2) in *.
  assert (Hload : loadAudio p1 e1 = (with_buffer (Some b) p1, e1, Fulfilled)).
  { unfold loadAudio, loadAudioWithCaching. cbn [_useCache sourcePath p1
      with_resolver with_offset with_playbackRate with_loop with_buffer
      with_graph with_sources].
    rewrite Huse, Hcache, Hhit. reflexivity. }
  unfold play. cbn [buffer p1 with_resolver with_offset with_playbackRate
    with_loop with_buffer]. rewrite Hload. unfold play_resume.
  cbn [buffer with_buffer fst snd].
  pose proof (play_body_player b (with_buffer (Some b) p1) e1)
    as (_ & _ & _ & _ & _ & _ & _ & Hbuf).
  pose proof (play_body_env b (with_buffer (Some b) p1) e1)
    as (_ & _ & _ & Hlog' & _).
  cbn zeta in *. rewrite Hbuf, Hlog', Hlog, play_body_sources, Hnext.
  split; [done|]. split; [done|].
  split; [by destruct (at_ceiling _)|]. split; [done|].
  rewrite <- Hnext.
  assert (Hrefs1 : refs_allocated (with_buffer (Some b) p1) e1)
    by (unfold refs_allocated; cbn; constructor).
  rewrite play_body_nodes by exact Hrefs1.
  rewrite decide_True by reflexivity.
  pose proof (play_body_graph b (with_buffer (Some b) p1) e1) as (Hpan & Hgain).
  rewrite Hpan, Hgain. done.
Qed.

Lemma play_after_dispose_revives_witness :
  sources (play (dispose false onePlaying.1 onePlaying.2).1
                (dispose false onePlaying.1 onePlaying.2).2).1.1
  = [next_node onePlaying.2].
Proof.
  destruct (play_after_dispose_revives onePlaying.1 onePlaying.2 demoBuffer)
    as (_ & _ & H & _).
  - vm_compute. reflexivity.
  - vm_compute. reflexivity.
  - exact H.
Defined.

(** ** [seek] before the start *)

Lemma Qtrunc_nonpos q : q <= 0 -> Qtrunc q = Qceiling q.
Proof.
  destruct q as [n d]. unfold Qle, Qtrunc, Qceiling, Qfloor; cbn. intros Hn.
  rewrite <- (Z.opp_involutive n) at 1. rewrite Z.quot_opp_l by lia.
  f_equal. apply Z.quot_div_nonneg; lia.
Qed.

Lemma seek_offset time b p e :
  buffer p = Some b ->
  _offset (seek time p e).1 = js_rem time (Num (duration b)).
Proof.
  intros Hbuf. unfold seek. rewrite Hbuf. cbn [sources with_offset].
  destruct (sources p); [done|].
  rewrite (surjective_pairing (stopAllSources _ e)), stopAllSources_player.
  rewrite (play_loaded b) by exact Hbuf. cbn [fst].
  pose proof (play_body_player b
    (with_resolver None (with_sources []
       (with_offset (js_rem time (Num (duration b))) p)))
    (stopAllSources (with_offset (js_rem time (Num (duration b))) p) e).2)
    as (_ & _ & _ & Hoff & _).
  cbn zeta in Hoff. rewrite Hoff. reflexivity.
Qed.

(** X18.  [seek] to a negative time does not wrap into the track.  For
    [time <= 0] and a buffer of positive duration the new offset is the
    remainder with the sign of [time]: it lies in [(-duration, 0]] and
    differs from [time] by a whole number of durations. *)
Theorem seek_negative_time_stays_negative (t : Q) b (p : Player) (e : Env) :
  buffer p = Some b ->
  t <= 0 -> 0 < duration b ->
  exists (r : Q) (k : Z),
    _offset (seek (Num t) p e).1 = Num r ∧
    - duration b < r ∧ r <= 0 ∧ (k <= 0)%Z ∧
    t == inject_Z k * duration b + r.
Proof.
  intros Hbuf Ht Hd. rewrite (seek_offset _ b) by done.
  set (d := duration b) in *.
  assert (Hd0 : ~ d == 0) by (intros H; rewrite H in Hd; discriminate).
  assert (Hq : t / d <= 0).
  { apply Qle_shift_div_r; [done|]. by rewrite Qmult_0_l. }
  exists (Qred (t - inject_Z (Qceiling (t / d)) * d)), (Qceiling (t / d)).
  unfold js_rem.
  destruct (Qeq_bool d 0) eqn:Heq; [apply Qeq_bool_iff in Heq; contradiction|].
  rewrite (Qtrunc_nonpos _ Hq).
  pose proof (Qle_ceiling (t / d)) as Hhi.
  pose proof (Qceiling_lt (t / d)) as Hlo.
  assert (Hback : t / d * d == t) by (field; done).
  assert (Hhi' : t / d * d <= inject_Z (Qceiling (t / d)) * d).
  { apply Qmult_le_compat_r; [done | by apply Qlt_le_weak]. }
  assert (Hlo' : inject_Z (Qceiling (t / d) - 1) * d < t / d * d).
  { apply Qmult_lt_compat_r; done. }
  rewrite Hback in Hlo', Hhi'.
  unfold Z.sub in Hlo'. rewrite inject_Z_plus in Hlo'.
  assert (Hdist : (inject_Z (Qceiling (t / d)) + inject_Z (-1)) * d
                  == inject_Z (Qceiling (t / d)) * d - d) by ring.
  rewrite Hdist in Hlo'.
  split; [reflexivity|]. rewrite !Qred_correct.
  set (whole := inject_Z (Qceiling (t / d)) * d) in *.
  split; [lra|]. split; [lra|]. split; [|lra].
  change 0%Z with (Qceiling 0). apply Qceiling_resp_le. done.
Qed.

Lemma seek_negative_time_stays_negative_witness :
  _offset (seek (Num (-3)) (loadedPlayer 1) offline).1 = Num (-3).
Proof.
  destruct (seek_negative_time_stays_negative (-3) demoBuffer
              (loadedPlayer 1) offline) as (r & k & H & _).
  - reflexivity.
  - discriminate.
  - reflexivity.
  - reflexivity.
Defined.

(** ** The demo page *)

Lemma loadAudio_cached_miss p e b :
  _useCache p = true -> streamCache e !! sourcePath p = None ->
  network e (sourcePath p) = Loaded b ->
  loadAudio p e =
  (with_buffer (Some b) p,
   set_streamCache (insert (sourcePath p) b) (log_fetch (sourcePath p) e),
   Fulfilled).
Proof.
  intros Huse Hmiss Hnet. unfold loadAudio, loadAudioWithCaching.
  rewrite Huse, Hmiss. cbn. rewrite Hnet. reflexivity.
Qed.

Lemma loadAudio_cached_hit p e b :
  _useCache p = true -> streamCache e !! sourcePath p = Some b ->
  loadAudio p e = (with_buffer (Some b) p, e, Fulfilled).
Proof.
  intros Huse Hhit. unfold loadAudio, loadAudioWithCaching.
  rewrite Huse, Hhit. reflexivity.
Qed.

Lemma loadAudio_cached_fail p e err :
  _useCache p = true -> streamCache e !! sourcePath p = None ->
  network e (sourcePath p) = Failed err ->
  loadAudio p e = (p, log_fetch (sourcePath p) e, Rejected err).
Proof.
  intros Huse Hmiss Hnet. unfold loadAudio, loadAudioWithCaching.
  rewrite Huse, Hmiss. cbn. rewrite Hnet. reflexivity.
Qed.

(** X19.  The demo fetches each track once.  On a page where neither track
    is cached and the network delivers both, [initialise()] is fulfilled
    with all three players loaded and all three play buttons enabled; the
    two players on the dropped track hold the same buffer, the second of
    them served by the cache; the fetches made are one per distinct track;
    [sound1] loops and [sound3] has a ceiling of 2. *)
Theorem initialise_fetches_each_track_once (backgroundTrack droppedTrack : string)
    (e : Env) (b1 b2 : AudioBuffer) :
  streamCache e !! backgroundTrack = None ->
  streamCache e !! droppedTrack = None ->
  network e backgroundTrack = Loaded b1 ->
  network e droppedTrack = Loaded b2 ->
  let done := initialise backgroundTrack droppedTrack e in
  done.2 = Fulfilled ∧
  (exists s1 s2 s3,
     done.1.1 = {| sound1 := Some s1; sound2 := Some s2; sound3 := Some s3;
                   buttonPlayLoop := true; buttonPlayDropped := true;
                   buttonPlayDroppedOverlapped := true |} ∧
     buffer s1 = Some b1 ∧ buffer s2 = Some b2 ∧ buffer s3 = Some b2 ∧
     _loop s1 = true ∧ _loop s2 = false ∧ _loop s3 = false ∧
     _maxPolyphony s1 = Num 1 ∧ _maxPolyphony s2 = Num 1 ∧
     _maxPolyphony s3 = Num 2) ∧
  fetchLog done.1.2 =
    fetchLog e ++ (if decide (backgroundTrack = droppedTrack)
                   then [backgroundTrack]
                   else [backgroundTrack; droppedTrack]) ∧
  streamCache done.1.2 =
    <[droppedTrack := b2]> (<[backgroundTrack := b1]> (streamCache e)).
Proof.
  intros Hm1 Hm2 Hn1 Hn2 done.
  set (s1 := with_loop true (constructor backgroundTrack defaults)).
  set (s2 := constructor droppedTrack defaults).
  set (s3 := with_maxPolyphony (Num 2) (constructor droppedTrack defaults)).
  set (e1 := set_streamCache (insert backgroundTrack b1)
               (log_fetch backgroundTrack e)).
  assert (H1 : loadAudio s1 e = (with_buffer (Some b1) s1, e1, Fulfilled))
    by (by apply loadAudio_cached_miss).
  destruct (decide (backgroundTrack = droppedTrack)) as [Heq|Hne].
  - assert (b2 = b1) as -> by congruence.
    assert (Hhit : streamCache e1 !! droppedTrack = Some b1)
      by (rewrite <- Heq; apply lookup_insert_eq).
    assert (H2 : loadAudio s2 e1 = (with_buffer (Some b1) s2, e1, Fulfilled))
      by (by apply loadAudio_cached_hit).
    assert (H3 : loadAudio s3 e1 = (with_buffer (Some b1) s3, e1, Fulfilled))
      by (by apply loadAudio_cached_hit).
    assert (Hdone : done =
              ({| sound1 := Some (with_buffer (Some b1) s1);
                  sound2 := Some (with_buffer (Some b1) s2);
                  sound3 := Some (with_buffer (Some b1) s3);
                  buttonPlayLoop := true; buttonPlayDropped := true;
                  buttonPlayDroppedOverlapped := true |}, e1, Fulfilled)).
    { subst done. unfold initialise.
      change (set_loop true (constructor backgroundTrack defaults) e)
        with (s1, e).
      cbn beta iota. rewrite H1. fold s2. rewrite H2.
      change (set_maxPolyphony (Num 2) s2 e1) with (s3, e1).
      cbn beta iota. rewrite H3. reflexivity. }
    rewrite Hdone. cbn [fst snd]. split; [done|]. split; [|split; [done|]].
    + do 3 eexists. split; [reflexivity|]. done.
    + subst e1. cbn. rewrite <- Heq. by rewrite insert_insert_eq.
  - set (e2 := set_streamCache (insert droppedTrack b2)
                 (log_fetch droppedTrack e1)).
    assert (H2 : loadAudio s2 e1 = (with_buffer (Some b2) s2, e2, Fulfilled)).
    { apply loadAudio_cached_miss; [done| |done].
      subst e1. cbn. by rewrite lookup_insert_ne. }
    assert (H3 : loadAudio s3 e2 = (with_buffer (Some b2) s3, e2, Fulfilled)).
    { apply loadAudio_cached_hit; [done|]. apply lookup_insert_eq. }
    assert (Hdone : done =
              ({| sound1 := Some (with_buffer (Some b1) s1);
                  sound2 := Some (with_buffer (Some b2) s2);
                  sound3 := Some (with_buffer (Some b2) s3);
                  buttonPlayLoop := true; buttonPlayDropped := true;
                  buttonPlayDroppedOverlapped := true |}, e2, Fulfilled)).
    { subst done. unfold initialise.
      change (set_loop true (constructor backgroundTrack defaults) e)
        with (s1, e).
      cbn beta iota. rewrite H1. fold s2. rewrite H2.
      change (set_maxPolyphony (Num 2) s2 e2) with (s3, e2).
      cbn beta iota. rewrite H3. reflexivity. }
    rewrite Hdone. cbn [fst snd]. split; [done|]. split; [|split; [|done]].
    + do 3 eexists. split; [reflexivity|]. done.
    + subst e2 e1. cbn. by rewrite <- app_assoc.
Qed.

Lemma initialise_fetches_each_track_once_witness :
  fetchLog (initialise "l" "e" online).1.2 = ["l"; "e"]%string.
Proof.
  destruct (initialise_fetches_each_track_once "l" "e" online
              demoBuffer demoBuffer) as (_ & _ & H & _).
  - reflexivity.
  - reflexivity.
  - reflexivity.
  - reflexivity.
  - rewrite H. reflexivity.
Defined.

(** X20.  [initialise()] stops at the first load that fails.  When the
    background track loads and the dropped track does not, the promise of
    [initialise()] is rejected with that error.  By then [sound1] is
    loaded and looping and its button enabled; [sound2] has been
    constructed, with the default settings, but holds no buffer and its
    button has not been enabled; [sound3] has not been constructed.  The
    dropped track was fetched once only, and nothing was cached for it. *)
Theorem initialise_stops_at_failed_load (backgroundTrack droppedTrack : string)
    (e : Env) (b1 : AudioBuffer) (err : LoadError) :
  backgroundTrack ≠ droppedTrack ->
  streamCache e !! backgroundTrack = None ->
  streamCache e !! droppedTrack = None ->
  network e backgroundTrack = Loaded b1 ->
  network e droppedTrack = Failed err ->
  let done := initialise backgroundTrack droppedTrack e in
  done.2 = Rejected err ∧
  (exists s1,
     done.1.1 = {| sound1 := Some s1;
                   sound2 := Some (constructor droppedTrack defaults);
                   sound3 := None;
                   buttonPlayLoop := true; buttonPlayDropped := false;
                   buttonPlayDroppedOverlapped := false |} ∧
     buffer s1 = Some b1 ∧ _loop s1 = true ∧
     buffer (constructor droppedTrack defaults) = None) ∧
  fetchLog done.1.2 = fetchLog e ++ [backgroundTrack; droppedTrack] ∧
  streamCache done.1.2 = <[backgroundTrack := b1]> (streamCache e).
Proof.
  intros Hne Hm1 Hm2 Hn1 Hn2 done.
  set (s1 := with_loop true (constructor backgroundTrack defaults)).
  set (s2 := constructor droppedTrack defaults).
  set (e1 := set_streamCache (insert backgroundTrack b1)
               (log_fetch backgroundTrack e)).
  assert (H1 : loadAudio s1 e = (with_buffer (Some b1) s1, e1, Fulfilled))
    by (by apply loadAudio_cached_miss).
  assert (H2 : loadAudio s2 e1 = (s2, log_fetch droppedTrack e1, Rejected err)).
  { apply loadAudio_cached_fail; [done| |done].
    subst e1. cbn. by rewrite lookup_insert_ne. }
  assert (Hdone : done =
            ({| sound1 := Some (with_buffer (Some b1) s1);
                sound2 := Some s2; sound3 := None;
                buttonPlayLoop := true; buttonPlayDropped := false;
                buttonPlayDroppedOverlapped := false |},
             log_fetch droppedTrack e1, Rejected err)).
  { subst done. unfold initialise.
    change (set_loop true (constructor backgroundTrack defaults) e)
      with (s1, e).
    cbn beta iota. rewrite H1. fold s2. rewrite H2. reflexivity. }
  rewrite Hdone. cbn [fst snd]. split; [done|]. split; [|split; [|done]].
  - eexists. split; [reflexivity|]. done.
  - subst e1. cbn. by rewrite <- app_assoc.
Qed.

Lemma initialise_stops_at_failed_load_witness :
  (initialise "l" "e"
     (emptyEnv (fun url => if String.eqb url "l" then Loaded demoBuffer
                           else Failed FetchFailed))).2
  = Rejected FetchFailed.
Proof.
  destruct (initialise_stops_at_failed_load "l" "e"
     (emptyEnv (fun url => if String.eqb url "l" then Loaded demoBuffer
                           else Failed FetchFailed))
     demoBuffer FetchFailed) as (H & _).
  - discriminate.
  - reflexivity.
  - reflexivity.
  - reflexivity.
  - reflexivity.
  - exact H.
Defined.

(** X21.  Every click on the overlapped button abandons the waiter of the
    click before.  Two clicks in a row on a loaded one-shot player return
    two different promises; after the second click the first promise is
    not the pending waiter, and nothing that happens later resolves it. *)
Theorem overlapped_clicks_abandon_waiter (s3 : Player) (e : Env) b
    (ops : list Op) :
  buffer s3 = Some b -> _loop s3 = false ->
  promises_ok s3 e ->
  let first := playDroppedOverlapped s3 e in
  let second := playDroppedOverlapped first.1.1 first.1.2 in
  first.2 ≠ second.2 ∧
  _endedPromiseResolver second.1.1 = Some second.2 ∧
  first.2 ∉ resolved (run ops second.1).2.
Proof.
  intros Hbuf Hloop Hok first second.
  assert (Hclick : forall p0 e0, buffer p0 = Some b -> _loop p0 = false ->
            promises_ok p0 e0 ->
            let c := playDroppedOverlapped p0 e0 in
            c.2 = next_promise e0 ∧
            _endedPromiseResolver c.1.1 = Some (next_promise e0) ∧
            next_promise c.1.2 = S (next_promise e0) ∧
            resolved c.1.2 = resolved e0 ∧
            buffer c.1.1 = Some b ∧ _loop c.1.1 = false).
  { intros p0 e0 Hb0 Hl0 Hok0 c. subst c. unfold playDroppedOverlapped.
    rewrite Hb0, (play_loaded b) by done. cbn [fst].
    pose proof (play_body_env b p0 e0) as (_ & _ & _ & _ & Hnext & Hlog).
    pose proof (play_body_player b p0 e0) as (Hl & _ & _ & _ & _ & _ & _ & Hb).
    pose proof (play_body_sources b p0 e0) as Hsrc.
    cbn zeta in *. rewrite Hl0 in *.
    destruct (play_body b p0 e0) as [p1 e1]; cbn [fst snd] in *.
    unfold whenAllEnded. cbn.
    destruct (sources p1) eqn:Hs1.
    { exfalso. symmetry in Hsrc. by apply app_nil in Hsrc as [_ ?]. }
    cbn. rewrite Hnext, Hlog, app_nil_r, Hb, Hl, Hb0. done. }
  destruct (Hclick s3 e Hbuf Hloop Hok) as (H1 & H2 & H3 & H4 & H5 & H6).
  fold first in H1, H2, H3, H4, H5, H6.
  assert (Hok1 : promises_ok first.1.1 first.1.2).
  { destruct Hok as (Hnd & Hall & _). unfold promises_ok.
    rewrite H2, H3, H4. split; [done|]. split.
    - eapply Forall_impl; [exact Hall|]. cbn. lia.
    - split; [lia|]. intros Hin. rewrite Forall_forall in Hall.
      apply Hall in Hin. lia. }
  destruct (Hclick first.1.1 first.1.2 H5 H6 Hok1) as (G1 & G2 & G3 & G4 & _).
  fold second in G1, G2, G3, G4.
  rewrite H1, G1, H3. split; [lia|]. split; [by rewrite G2, H3|].
  assert (Hab : abandoned (next_promise e) second.1.1 second.1.2).
  { unfold abandoned. rewrite G2, G3, G4, H3, H4. split; [lia|]. split.
    - destruct Hok as (_ & Hall & _). intros Hin.
      rewrite Forall_forall in Hall. apply Hall in Hin. lia.
    - intros [= Heq]. lia. }
  apply (run_abandoned _ ops) in Hab. apply Hab.
Qed.

Lemma overlapped_clicks_abandon_waiter_witness :
  (playDroppedOverlapped (loadedPlayer 2) offline).2 = 0%nat ∧
  0%nat ∉ resolved
    (run [OpEnded 0%nat; OpEnded 1%nat]
       (playDroppedOverlapped
          (playDroppedOverlapped (loadedPlayer 2) offline).1.1
          (playDroppedOverlapped (loadedPlayer 2) offline).1.2).1).2.
Proof.
  split; [reflexivity|].
  pose proof (overlapped_clicks_abandon_waiter (loadedPlayer 2) offline
                demoBuffer [OpEnded 0%nat; OpEnded 1%nat]) as H.
  cbn zeta in H. destruct H as (_ & _ & H).
  - reflexivity.
  - reflexivity.
  - unfold promises_ok. cbn.
    split; [apply NoDup_nil_2|]. split; [apply Forall_nil_2|done].
  - exact H.
Defined.

(** ** Waiting for the voices to end *)

Lemma run_waiter_has_voices ops w :
  waiter_has_voices w.1 -> waiter_has_voices (run ops w).1.
Proof.
  revert w. induction ops as [|op ops IH]; intros [p e] Hok; [done|].
  rewrite run_cons. apply IH. by apply exec_waiter_has_voices.
Qed.

(** X22.  A waiter is only ever pending while a voice is active.  From
    a freshly constructed player, on every run on which the platform
    accepts each call -- every event leaves a finite offset that is not
    negative and a finite playback rate -- either no waiter is pending or
    the active voice set is not empty: the set never becomes empty
    without the pending waiter being resolved. *)
Theorem waiter_pending_only_over_voices (path : string) (opts : Options)
    (e : Env) (ops : list Op) :
  accepted ops (constructor path opts, e) = true ->
  _endedPromiseResolver (run ops (constructor path opts, e)).1 = None ∨
  sources (run ops (constructor path opts, e)).1 ≠ [].
Proof.
  intros _. apply (run_waiter_has_voices ops (constructor path opts, e)).
  left. unfold constructor. by destruct (opt_maxPolyphony opts).
Qed.

Lemma waiter_pending_only_over_voices_witness :
  _endedPromiseResolver
    (run [OpLoadAudio; OpPlay; OpWhenAllEnded; OpSeek (Num 13); OpPlay;
          OpWhenAllEnded; OpEnded 2%nat]
       (constructor "a" defaults, online)).1 = None ∨
  sources
    (run [OpLoadAudio; OpPlay; OpWhenAllEnded; OpSeek (Num 13); OpPlay;
          OpWhenAllEnded; OpEnded 2%nat]
       (constructor "a" defaults, online)).1 ≠ [].
Proof.
  apply (waiter_pending_only_over_voices "a" defaults online
           [OpLoadAudio; OpPlay; OpWhenAllEnded; OpSeek (Num 13); OpPlay;
            OpWhenAllEnded; OpEnded 2%nat]).
  vm_compute. reflexivity.
Defined.

Lemma dispatch_ended_active source n p e :
  NoDup (sources p) ->
  nodes e !! source = Some n -> node_onended n = true ->
  let kept := filter (fun x => x ≠ source) (sources p) in
  exec (OpEnded source) (p, e) =
  match kept, _endedPromiseResolver p with
  | [], Some r => (with_resolver None (with_sources kept p), resolve r e)
  | _, _ => (with_sources kept p, e)
  end
  ∨ ((source ∉ sources p) ∧ kept = sources p ∧
     exec (OpEnded source) (p, e) =
     match sources p, _endedPromiseResolver p with
     | [], Some r => (with_resolver None p, resolve r e)
     | _, _ => (p, e)
     end).
Proof.
  intros Hnd Hn Hended kept. cbn [exec]. unfold dispatch_ended.
  rewrite Hn, Hended, onended_eq. cbn zeta.
  pose proof (delete_found_filter source (sources p) Hnd) as Hfilter.
  fold kept in Hfilter.
  destruct (list_find (fun x => x = source) (sources p)) as [[j y]|] eqn:Hfind.
  - left. cbn [sources with_sources _endedPromiseResolver]. rewrite Hfilter.
    reflexivity.
  - right. apply list_find_None in Hfind. rewrite Forall_forall in Hfind.
    split; [|split; [by symmetry|reflexivity]].
    intros Hin. by apply (Hfind source).
Qed.

Lemma ended_all_state (r : nat) (l : list nat) :
  forall p e,
  l ≠ [] -> NoDup l -> sources p ≡ₚ l ->
  Forall (fun i => exists n, nodes e !! i = Some n ∧ node_onended n = true) l ->
  _endedPromiseResolver p = Some r ->
  sources (run (OpEnded <$> l) (p, e)).1 = [] ∧
  _endedPromiseResolver (run (OpEnded <$> l) (p, e)).1 = None ∧
  resolved (run (OpEnded <$> l) (p, e)).2 = resolved e ++ [r] ∧
  nodes (run (OpEnded <$> l) (p, e)).2 = nodes e.
Proof.
  induction l as [|s l IH]; intros p e Hne Hnd Hperm Hhandlers Hr; [done|].
  apply NoDup_cons in Hnd as [Hs Hnd].
  apply Forall_cons in Hhandlers as [(n & Hn & Hended) Hhandlers].
  assert (Hndp : NoDup (sources p)) by (rewrite Hperm; by apply NoDup_cons).
  assert (Hin : s ∈ sources p) by (rewrite Hperm; apply elem_of_cons; by left).
  assert (Hkept : filter (fun x => x ≠ s) (sources p) ≡ₚ l).
  { rewrite Hperm, filter_cons_False by (intros Hx; by apply Hx).
    by rewrite filter_absent. }
  cbn [fmap list_fmap]. rewrite run_cons.
  destruct (dispatch_ended_active s n p e Hndp Hn Hended) as [Hstep|(Hout & _)];
    [|done].
  cbn zeta in Hstep. rewrite Hstep, Hr. clear Hstep.
  destruct l as [|s' l'].
  - apply Permutation_nil_r in Hkept. rewrite Hkept. cbn. done.
  - destruct (filter (fun x => x ≠ s) (sources p)) as [|k kept] eqn:Hf.
    { apply Permutation_nil_l in Hkept. discriminate. }
    apply IH; try done.
Qed.

(** X23.  When every active voice has ended, the waiter is resolved once.
    With one-shot voices active (each carrying the handler) and a waiter
    pending, once the [ended] notifications of all of them have been
    delivered -- in whatever order -- the active voice set is empty, the
    waiter has been resolved exactly once, its slot is clear and no node
    was touched. *)
Theorem all_voices_ended_resolves_waiter (r : nat) (order : list nat)
    (p : Player) (e : Env) :
  order ≠ [] -> NoDup order -> sources p ≡ₚ order ->
  Forall (fun i => exists n, nodes e !! i = Some n ∧ node_onended n = true)
         order ->
  _endedPromiseResolver p = Some r ->
  sources (run (OpEnded <$> order) (p, e)).1 = [] ∧
  _endedPromiseResolver (run (OpEnded <$> order) (p, e)).1 = None ∧
  resolved (run (OpEnded <$> order) (p, e)).2 = resolved e ++ [r] ∧
  nodes (run (OpEnded <$> order) (p, e)).2 = nodes e.
Proof. intros. by apply ended_all_state. Qed.

Lemma all_voices_ended_resolves_waiter_witness :
  resolved
    (run [OpEnded 2%nat; OpEnded 0%nat; OpEnded 1%nat]
       (exec OpWhenAllEnded threeVoices)).2 = [0%nat].
Proof.
  pose proof (all_voices_ended_resolves_waiter 0 [2; 0; 1]%nat
                (exec OpWhenAllEnded threeVoices).1
                (exec OpWhenAllEnded threeVoices).2) as H.
  rewrite <- surjective_pairing in H.
  destruct H as (_ & _ & H & _).
  - discriminate.
  - apply (bool_decide_unpack _). vm_compute. exact I.
  - vm_compute. apply (bool_decide_unpack _). vm_compute. exact I.
  - vm_compute. repeat constructor; eexists; split; reflexivity.
  - reflexivity.
  - exact H.
Defined.

(** ** One call of [play], in general *)

(** X24.  [play()] on a loaded player always starts exactly one new node,
    configured from the player: it holds the player's buffer, loop flag and
    playback rate, is started at the player's offset, carries the [ended]
    handler exactly when not looping, and is the newest entry of
    [sources].  In one-shot mode the voices kept are the previous ones in
    their order, less the oldest when the ceiling was reached. *)
Theorem play_starts_one_configured_voice b (p : Player) (e : Env) :
  buffer p = Some b ->
  refs_allocated p e ->
  (play p e).2 = Fulfilled ∧
  last (sources (play p e).1.1) = Some (next_node e) ∧
  nodes (play p e).1.2 !! next_node e = Some (voice b p) ∧
  next_node (play p e).1.2 = S (next_node e) ∧
  (_loop p = false ->
   sources (play p e).1.1
     = (if at_ceiling p then tail (sources p) else sources p) ++ [next_node e]).
Proof.
  intros Hbuf Hrefs. rewrite (play_loaded b) by done. cbn [fst snd].
  pose proof (play_body_env b p e) as (Hnext & _). cbn zeta in Hnext.
  rewrite play_body_sources, play_body_nodes, decide_True, Hnext by done.
  split; [done|]. split; [|split; [done|split; [done|]]].
  - destruct (_loop p); [done | apply last_snoc].
  - by intros ->.
Qed.

Lemma play_starts_one_configured_voice_witness :
  last (sources (play threeVoices.1 threeVoices.2).1.1) = Some 3%nat.
Proof.
  destruct (play_starts_one_configured_voice demoBuffer
              threeVoices.1 threeVoices.2) as (_ & H & _).
  - reflexivity.
  - vm_compute. repeat constructor.
  - exact H.
Defined.
